(** * STLL paragraph layout: a shallow embedding of [layoutParagraph.cpp]

    The development follows the source file top to bottom: the normalized
    view of the text ([LayoutDataView]), the break and hyphenation analysis,
    the run builder, the line assembler ([addLine]) and the two line
    breakers, and finally [layoutParagraph] itself.

    Conventions.
    - [size_t] indices are [nat]; [int], [int32_t] and [char] values are [Z].
      Signed overflow is undefined behaviour in C++, so [Z] arithmetic is the
      meaning of the code on every execution that has one.
    - [float] and [double] values live in an abstract type with the
      operations the source uses ([FloatOps]); nothing is assumed about
      them.
    - HarfBuzz, FriBidi, liblinebreak and the hyphenation dictionaries are
      collaborators: they are parameters of the functions that call them.
    - A computation ends in [Ret] (normal return), [Throw] (a
      [LayoutException_c] escapes), [Fault] (an out-of-range access, a null
      dereference or a failed [assert]) or [OutOfFuel] (the bound handed to
      a loop of the model was too small). *)

From Stdlib Require Import ZArith String Lia.
From stdpp Require Import base option list strings sorting.

Set Default Proof Using "Type".

(** ** Outcomes of a call *)

Inductive res (A : Type) : Type :=
  | Ret (a : A)
  | Throw (what : string)
  | Fault
  | OutOfFuel.
Arguments Ret {A} a.
Arguments Throw {A} what.
Arguments Fault {A}.
Arguments OutOfFuel {A}.

#[global] Instance res_ret : MRet res := fun A a => Ret a.
#[global] Instance res_bind : MBind res := fun A B f m =>
  match m with
  | Ret a => f a
  | Throw s => Throw s
  | Fault => Fault
  | OutOfFuel => OutOfFuel
  end.

(** Element access of a [std::vector] or [std::u32string] through
    [operator[]]: out of range it is undefined. *)
Definition at_ {A} (v : list A) (i : nat) : res A :=
  match v !! i with
  | Some a => Ret a
  | None => Fault
  end.

(** [while (pos < size && p pos) pos++] *)
Fixpoint scan_from (p : nat → bool) (n : nat) (pos : nat) : nat :=
  match n with
  | O => pos
  | S n' => if p pos then scan_from p n' (S pos) else pos
  end.
Definition scan_while (size : nat) (p : nat → bool) (pos : nat) : nat :=
  scan_from p (size - pos) pos.

(** ** Data model ([stll/layouter.h]) *)

(** Modelled from the spec: the declarations of [stll/layouter.h] are not
    part of the sources at hand; the records below have the members that
    [layoutParagraph.cpp] and [layouterSDL.cpp] read and write, with the
    meaning section 3 of the specification gives them. *)
Record color_c := { col_r : Z; col_g : Z; col_b : Z; col_a : Z }.

(** A font face behind a [std::shared_ptr<FontFace_c>]; two pointers are
    equal when they point at the same face, [face] stands for the address. *)
Record FontFace_c := {
  face : nat;
  getAscender : Z;
  getDescender : Z;
  containsGlyph : Z → bool
}.

Definition same_font (f g : option FontFace_c) : bool :=
  match f, g with
  | None, None => true
  | Some f, Some g => Nat.eqb (face f) (face g)
  | _, _ => false
  end.

(** The font of an attribute: a family that picks a face by codepoint. *)
Record Font_c := {
  get : Z → option FontFace_c;
  getUnderlinePosition : Z;
  getUnderlineThickness : Z
}.

Inductive command_t := CMD_GLYPH | CMD_RECT | CMD_IMAGE.

#[global] Instance command_t_eq_dec : EqDecision command_t.
Proof. solve_decision. Defined.

Record CommandData_c := {
  command : command_t;
  x : Z; y : Z; w : Z; h : Z;
  glyphIndex : Z;
  font : option FontFace_c;
  c : color_c;
  blurr : Z
}.

Definition mkGlyph (f : option FontFace_c) (gi gx gy : Z) (col : color_c) (bl : Z) :=
  {| command := CMD_GLYPH; x := gx; y := gy; w := 0; h := 0;
     glyphIndex := gi; font := f; c := col; blurr := bl |}.
Definition mkRect (gx gy gw gh : Z) (col : color_c) (bl : Z) :=
  {| command := CMD_RECT; x := gx; y := gy; w := gw; h := gh;
     glyphIndex := 0; font := None; c := col; blurr := bl |}.

Record Rectangle_c := { rx : Z; ry : Z; rw : Z; rh : Z }.

Record LinkInformation_c := { url : string; areas : list Rectangle_c }.

Record TextLayout_c := {
  data : list CommandData_c;
  links : list LinkInformation_c;
  firstBaseline : Z;
  height : Z;
  layout_left : Z;
  layout_right : Z
}.

Definition emptyLayout : TextLayout_c :=
  {| data := []; links := []; firstBaseline := 0; height := 0; layout_left := 0; layout_right := 0 |}.

Definition addCommand (l : TextLayout_c) (cmd : CommandData_c) :=
  {| data := data l ++ [cmd]; links := links l; firstBaseline := firstBaseline l;
     height := height l; layout_left := layout_left l; layout_right := layout_right l |}.
Definition setLinks (l : TextLayout_c) (ls : list LinkInformation_c) :=
  {| data := data l; links := ls; firstBaseline := firstBaseline l;
     height := height l; layout_left := layout_left l; layout_right := layout_right l |}.
Definition setFirstBaseline (l : TextLayout_c) (v : Z) :=
  {| data := data l; links := links l; firstBaseline := v;
     height := height l; layout_left := layout_left l; layout_right := layout_right l |}.
Definition setHeight (l : TextLayout_c) (v : Z) :=
  {| data := data l; links := links l; firstBaseline := firstBaseline l;
     height := v; layout_left := layout_left l; layout_right := layout_right l |}.
Definition setLeft (l : TextLayout_c) (v : Z) :=
  {| data := data l; links := links l; firstBaseline := firstBaseline l;
     height := height l; layout_left := v; layout_right := layout_right l |}.
Definition setRight (l : TextLayout_c) (v : Z) :=
  {| data := data l; links := links l; firstBaseline := firstBaseline l;
     height := height l; layout_left := layout_left l; layout_right := v |}.

Record shadow := { sh_dx : Z; sh_dy : Z; sh_c : color_c; sh_blurr : Z }.

(** Modelled from the spec: the flag set of an attribute includes
    UNDERLINE; the bit it occupies is declared in [stll/layouter.h]. *)
Definition FL_UNDERLINE : Z := 1.

Record CodepointAttributes_c := {
  a_c : color_c;
  a_font : Font_c;
  a_lang : string;
  a_flags : Z;
  a_link : nat;
  a_baseline_shift : Z;
  a_inlay : option TextLayout_c;
  a_shadows : list shadow
}.

(** [AttributeIndex_c]: [operator[]] and [hasAttribute]. *)
Record AttributeIndex_c := {
  attr_at : nat → CodepointAttributes_c;
  hasAttribute : nat → bool
}.

(** [AttributeIndex_c(a)]: every codepoint has the attribute [a]. *)
Definition AttributeIndex_all (a : CodepointAttributes_c) : AttributeIndex_c :=
  {| attr_at := fun _ => a; hasAttribute := fun _ => true |}.

Inductive align_t := ALG_LEFT | ALG_RIGHT | ALG_CENTER | ALG_JUSTIFY_LEFT | ALG_JUSTIFY_RIGHT.

Record LayoutProperties_c := {
  ltr : bool;
  align : align_t;
  indent : Z;
  hyphenate : bool;
  optimizeLinebreaks : bool;
  underlineFont : option Font_c;
  p_links : list string
}.

Record Shape_c := {
  getLeft : Z → Z → Z;
  getRight : Z → Z → Z;
  getLeft2 : Z → Z → Z;
  getRight2 : Z → Z → Z
}.

(** Modelled from the spec: the classes NOBREAK, ALLOWBREAK, MUSTBREAK and
    INSIDEACHAR of the break analyzers; [linebreak.h] and [wordbreak.h]
    belong to liblinebreak, whose values these are. *)
Definition LINEBREAK_MUSTBREAK : Z := 0.
Definition LINEBREAK_ALLOWBREAK : Z := 1.
Definition LINEBREAK_NOBREAK : Z := 2.
Definition LINEBREAK_INSIDEACHAR : Z := 3.
Definition WORDBREAK_BREAK : Z := 0.
Definition WORDBREAK_NOBREAK : Z := 1.

Definition U_SPACE : Z := 0x20.
Definition U_NEWLINE : Z := 0x0A.
Definition U_SHY : Z := 0xAD.
Definition U_HYPHEN : Z := 0x2010.
Definition U_HYPHEN_MINUS : Z := 0x2D.

(** ** The normalized view, [class LayoutDataView] *)

Record LayoutDataView := {
  txt32 : list Z;
  idx : list nat;
  attr : AttributeIndex_c;
  embeddingLevels : list Z;
  linebreaks : list Z;
  hyphens : list bool
}.

Definition isBidiCharacter (ch : Z) : bool :=
  if (ch =? 0x202A)%Z || (ch =? 0x202B)%Z || (ch =? 0x202C)%Z then true else false.

(** The constructor's loop; [t] is what is left of the string from
    position [i] on. *)
Fixpoint view_loop (t : list Z) (i : nat) (tx : list Z) (ix : list nat)
  : list Z * list nat :=
  match t with
  | [] => (tx, ix)
  | ch :: t' =>
      if negb (isBidiCharacter ch)
      then view_loop t' (S i) (tx ++ [ch]) (ix ++ [i])
      else view_loop t' (S i) tx ix
  end.

Definition mkView (t : list Z) (a : AttributeIndex_c) (e : list Z) : LayoutDataView :=
  let '(tx, ix) := view_loop t 0 [] [] in
  {| txt32 := tx; idx := ix; attr := a; embeddingLevels := e;
     linebreaks := replicate (length ix) 0%Z; hyphens := [] |}.

(** The positions the loop keeps, read off the string directly. *)
Fixpoint kept (t : list Z) (i : nat) : list nat :=
  match t with
  | [] => []
  | ch :: t' => if isBidiCharacter ch then kept t' (S i) else i :: kept t' (S i)
  end.

Definition size (v : LayoutDataView) : nat := length (txt32 v).

(** Accessors.  [txt], [att], [hasatt], [emb], [lnb] are only ever called
    below a guard [i < size], and [embeddingLevels] is as long as the
    original string in every view the code builds; for these the model
    reads with a default that the guard makes unreachable.  A read the code
    does not guard (the cluster index handed back by the shaper) goes
    through [at_]. *)
Definition txt (v : LayoutDataView) (i : nat) : Z := nth i (txt32 v) 0%Z.
Definition att (v : LayoutDataView) (i : nat) : CodepointAttributes_c :=
  attr_at (attr v) (nth i (idx v) 0).
Definition hasatt (v : LayoutDataView) (i : nat) : bool :=
  hasAttribute (attr v) (nth i (idx v) 0).
Definition att_checked (v : LayoutDataView) (i : nat) : res CodepointAttributes_c :=
  k ← at_ (idx v) i; mret (attr_at (attr v) k).
Definition emb (v : LayoutDataView) (i : nat) : Z :=
  nth (nth i (idx v) 0) (embeddingLevels v) 0%Z.
Definition lnb (v : LayoutDataView) (i : nat) : Z := nth i (linebreaks v) 0%Z.
Definition hyp (v : LayoutDataView) (i : nat) : bool :=
  bool_decide (i < length (hyphens v)) && nth i (hyphens v) false.

(** [sethyp]: the mask is resized to the size of the view, then written. *)
Definition sethyp (v : LayoutDataView) (i : nat) : res LayoutDataView :=
  let hs := resize (length (idx v)) false (hyphens v) in
  if bool_decide (i < length hs)
  then Ret {| txt32 := txt32 v; idx := idx v; attr := attr v;
              embeddingLevels := embeddingLevels v; linebreaks := linebreaks v;
              hyphens := <[i := true]> hs |}
  else Fault.

Definition set_linebreaks (v : LayoutDataView) (lb : list Z) : LayoutDataView :=
  {| txt32 := txt32 v; idx := idx v; attr := attr v;
     embeddingLevels := embeddingLevels v; linebreaks := lb;
     hyphens := hyphens v |}.

(** ** Collaborators *)

(** One entry of the hyphenator's answer: the hyphen count after a letter
    and the replacement text of a complex hyphenation. *)
Record Hyphens := { hy_hyphens : Z; hy_rep : list Z }.

(** Modelled from the spec: [hyphen/hyphen.h] is not part of the sources at
    hand; [Dict.hyphenate(word)] answers with one entry per position. *)
Definition HyphenDict := list Z → list Hyphens.

(** A shaped glyph: [hb_glyph_info_t] and [hb_glyph_position_t]. *)
Record glyph := {
  g_codepoint : Z;
  g_cluster : nat;
  x_offset : Z;
  y_offset : Z;
  x_advance : Z;
  y_advance : Z
}.

(** What the external libraries compute.  The analyzers answer with the
    class of each position of the window they are given; the shaper gets
    the face, the language string the buffer is configured from, the
    direction ([true] for right-to-left) and the codepoints with their
    cluster numbers. *)
Record Externals := {
  fribidi_get_par_embedding_levels : list Z → bool → option (list Z);
  set_linebreaks_utf32 : list Z → string → nat → Z;
  set_wordbreaks_utf32 : list Z → string → nat → Z;
  getHyphenDict : string → option HyphenDict;
  hb_shape : FontFace_c → string → bool → list (Z * nat) → list glyph
}.

(** [c_str() + start], read for [len] characters: the string is followed by
    its terminating zero. *)
Definition c_window (s : list Z) (start len : nat) : list Z :=
  take len (drop start (s ++ [0%Z])).

(** [s.find_first_of(ch, pos) >= j], where a miss is [npos]. *)
Definition find_first_of (s : list Z) (ch : Z) (pos : nat) : option nat :=
  (λ r, pos + r.1) <$> list_find (λ e, e = ch) (drop pos s).
Definition found_at_or_after (r : option nat) (j : nat) : bool :=
  match r with
  | None => true
  | Some k => bool_decide (j ≤ k)
  end.

(** [s.substr(pos, n)] *)
Definition substr (s : list Z) (pos n : nat) : res (list Z) :=
  if bool_decide (pos ≤ length s) then Ret (take n (drop pos s))
  else Throw "std::out_of_range".

(** ** Line-break and hyphenation analysis *)

Section Analysis.
Context (E : Externals).

(** The analyzer writes [len] classes into [linebreaks] from [start] on. *)
Definition write_breaks (lb : list Z) (start len : nat) (f : nat → Z) : list Z :=
  take start lb ++ (f <$> seq 0 len) ++ drop (start + len) lb.

Fixpoint getLinebreaks_loop (fuel : nat) (view : LayoutDataView) (runstart : nat)
  : res LayoutDataView :=
  if bool_decide (runstart < size view) then
    match fuel with
    | O => OutOfFuel
    | S fuel' =>
        let lang := a_lang (att view runstart) in
        let runpos :=
          scan_while (size view)
            (λ p, String.eqb lang (a_lang (att view p))) (runstart + 1) in
        let len := runpos - runstart + (if bool_decide (runpos < size view) then 1 else 0) in
        let out := set_linebreaks_utf32 E (c_window (txt32 view) runstart len) lang in
        getLinebreaks_loop fuel'
          (set_linebreaks view (write_breaks (linebreaks view) runstart len out)) runpos
    end
  else Ret view.

Definition getLinebreaks (view : LayoutDataView) : res LayoutDataView :=
  getLinebreaks_loop (size view) view 0.

(** [std::string curLang = view.att(0).lang;] at the head of the section
    that starts at [sectionstart]. *)
Definition curLang (view : LayoutDataView) (sectionstart : nat) : string :=
  a_lang (att view 0).

(** [find end of current language section] *)
Definition section_end (view : LayoutDataView) (sectionstart : nat) : nat :=
  scan_while (size view)
    (λ i, hasatt view i && String.eqb (a_lang (att view i)) (curLang view sectionstart))
    (sectionstart + 1).

(** [for (l = 0; l < j-wordstart+1; l++)] *)
Fixpoint mark_loop (hy : list Hyphens) (base : nat) (ls : list nat)
    (view : LayoutDataView) : res LayoutDataView :=
  match ls with
  | [] => Ret view
  | l :: ls' =>
      e ← at_ hy l;
      view' ← (if negb (Z.rem (hy_hyphens e) 2 =? 0)%Z && Nat.eqb (length (hy_rep e)) 0
               then sethyp view (base + l + 1)
               else Ret view);
      mark_loop hy base ls' view'
  end.

(** [for (j = 1; j < breaks.size(); j++)] *)
Fixpoint word_loop (dict : HyphenDict) (breaks : list Z) (sectionstart : nat)
    (js : list nat) (wordstart : nat) (view : LayoutDataView) : res LayoutDataView :=
  match js with
  | [] => Ret view
  | j :: js' =>
      b ← at_ breaks (j - 1);
      if (b =? WORDBREAK_BREAK)%Z then
        view' ←
          (if found_at_or_after (find_first_of (txt32 view) U_SHY wordstart) j then
             word ← substr (txt32 view) wordstart (j - wordstart);
             mark_loop (dict word) (sectionstart + wordstart)
                       (seq 0 (j - wordstart + 1)) view
           else Ret view);
        word_loop dict breaks sectionstart js' j view'
      else word_loop dict breaks sectionstart js' wordstart view
  end.

Definition section_breaks (view : LayoutDataView) (sectionstart i : nat) : list Z :=
  let len := i - sectionstart + 1 in
  (set_wordbreaks_utf32 E (c_window (txt32 view) sectionstart len)
     (curLang view sectionstart) <$> seq 0 len) ++ [WORDBREAK_BREAK].

Fixpoint getHyphens_loop (fuel : nat) (view : LayoutDataView) (sectionstart : nat)
  : res LayoutDataView :=
  if bool_decide (sectionstart < size view) then
    match fuel with
    | O => OutOfFuel
    | S fuel' =>
        if hasatt view sectionstart
           && negb (String.eqb (a_lang (att view sectionstart)) "")
        then
          let i := section_end view sectionstart in
          view' ←
            match getHyphenDict E (curLang view sectionstart) with
            | Some dict =>
                let breaks := section_breaks view sectionstart i in
                word_loop dict breaks sectionstart
                          (seq 1 (length breaks - 1)) 0 view
            | None => Ret view
            end;
          getHyphens_loop fuel' view' i
        else getHyphens_loop fuel' view (sectionstart + 1)
    end
  else Ret view.

Definition getHyphens (view : LayoutDataView) : res LayoutDataView :=
  getHyphens_loop (size view) view 0.

End Analysis.

(** ** Runs *)

(** [runInfo]; the member [text] exists in debug builds only and is left
    out. *)
Record runInfo := {
  run : list (nat * CommandData_c);
  dx : Z;
  dy : Z;
  embeddingLevel : Z;
  linebreak : Z;
  r_font : option FontFace_c;
  space : bool;
  shy : bool;
  ascender : Z;
  descender : Z;
  r_links : list LinkInformation_c
}.

(** [for (j = 0; j < a.shadows.size(); j++)] of [addUnderline]: the
    shadow rectangles, shadow [j] on layer [size - j]. *)
Definition underline_shadows (gx gy gw gh : Z) (a : CodepointAttributes_c)
  : list (nat * CommandData_c) :=
  imap (λ j s, (length (a_shadows a) - j,
                mkRect (gx + sh_dx s) (gy + sh_dy s) gw gh (sh_c s) (sh_blurr s)))
       (a_shadows a).

Definition addUnderline (cmds : list (nat * CommandData_c)) (gx gw : Z)
    (prop : LayoutProperties_c) (a : CodepointAttributes_c) : list (nat * CommandData_c) :=
  if negb (Z.land (a_flags a) FL_UNDERLINE =? 0)%Z then
    let f := match underlineFont prop with Some uf => uf | None => a_font a end in
    let gy := (- (getUnderlinePosition f + getUnderlineThickness f `quot` 2))%Z in
    let gh := Z.max 64 (getUnderlineThickness f) in
    cmds ++ underline_shadows gx gy gw gh a ++ [(0, mkRect gx gy gw gh (a_c a) 0%Z)]
  else cmds.

(** [for (j = 0; j < view.att(runstart).shadows.size(); j++)] of
    [createRun]: the count [n] comes from the attribute of the run's first
    codepoint, the shadow itself is read from the cluster's attribute. *)
Fixpoint glyph_shadows (n : nat) (js : list nat) (a : CodepointAttributes_c)
    (f : option FontFace_c) (gi gx gy : Z) : res (list (nat * CommandData_c)) :=
  match js with
  | [] => Ret []
  | j :: js' =>
      s ← at_ (a_shadows a) j;
      rest ← glyph_shadows n js' a f gi gx gy;
      mret ((n - j, mkGlyph f gi (gx + sh_dx s) (gy + sh_dy s) (sh_c s) (sh_blurr s)) :: rest)
  end.

(** The hyperlink bookkeeping of [createRun]'s first pass. *)
Record link_state := {
  ls_dx : Z;
  curLink : nat;
  linkRect : Rectangle_c;
  linkStart : Z;
  ls_links : list LinkInformation_c
}.

Definition set_x_offset (g : glyph) (v : Z) : glyph :=
  {| g_codepoint := g_codepoint g; g_cluster := g_cluster g; x_offset := v;
     y_offset := y_offset g; x_advance := x_advance g; y_advance := y_advance g |}.

(** [language.find_first_of('-')] *)
Fixpoint find_dash (s : string) : option nat :=
  match s with
  | EmptyString => None
  | String ch s' => if Ascii.eqb ch (Ascii.ascii_of_nat 45) then Some 0 else S <$> find_dash s'
  end.

(** [HB_TAG(language[i+1], ..., language[i+4])] reads four characters
    after the dash. *)
Definition script_tag_in_range (language : string) : bool :=
  match find_dash language with
  | Some i => bool_decide (i + 4 ≤ String.length language)
  | None => true
  end.

Definition NonLinearScript : string :=
  "STLL only supports line based scripts and this text appears to be something else".

Section Runs.
Context (E : Externals).

(** First pass over the glyphs: absolute positions, [run.dx], links. *)
Fixpoint position_loop (view : LayoutDataView) (prop : LayoutProperties_c)
    (asc desc : Z) (gs : list glyph) (st : link_state)
  : res (list glyph * link_state) :=
  match gs with
  | [] => Ret ([], st)
  | g :: gs' =>
      a ← att_checked view (g_cluster g);
      match a_inlay a with
      | Some _ =>
          '(gs'', st') ← position_loop view prop asc desc gs' st;
          mret (g :: gs'', st')
      | None =>
          let start :=
            if (Nat.eqb (curLink st) 0 && negb (Nat.eqb (a_link a) 0))
               || negb (Nat.eqb (curLink st) (a_link a))
            then ls_dx st else linkStart st in
          let g' := set_x_offset g (x_offset g + ls_dx st) in
          let dx1 := (ls_dx st + x_advance g)%Z in
          st1 ←
            (if negb (Nat.eqb (a_link a) 0) then
               '(ls1, cur1) ←
                 (if negb (Nat.eqb (curLink st) 0) && negb (Nat.eqb (curLink st) (a_link a))
                  then u ← at_ (p_links prop) (curLink st - 1);
                       mret (ls_links st ++ [{| url := u; areas := [linkRect st] |}], 0)
                  else mret (ls_links st, curLink st));
               if Nat.eqb cur1 0 then
                 mret {| ls_dx := dx1; curLink := a_link a;
                         linkRect := {| rx := start; ry := - asc;
                                        rw := dx1 - start; rh := asc - desc |};
                         linkStart := start; ls_links := ls1 |}
               else
                 mret {| ls_dx := dx1; curLink := cur1;
                         linkRect := {| rx := rx (linkRect st); ry := ry (linkRect st);
                                        rw := dx1 - start; rh := rh (linkRect st) |};
                         linkStart := start; ls_links := ls1 |}
             else
               mret {| ls_dx := dx1; curLink := curLink st; linkRect := linkRect st;
                       linkStart := start; ls_links := ls_links st |});
          '(gs'', st') ← position_loop view prop asc desc gs' st1;
          mret (g' :: gs'', st')
      end
  end.

Definition shift_inlay (asc rdx : Z) (cmd : CommandData_c) : CommandData_c :=
  {| command := command cmd; x := x cmd + rdx; y := y cmd - (asc - 1);
     w := w cmd; h := h cmd; glyphIndex := glyphIndex cmd; font := font cmd;
     c := c cmd; blurr := blurr cmd |}.

(** Second pass: the drawing commands, in the order [gs] lists the
    glyphs. *)
Fixpoint output_loop (view : LayoutDataView) (prop : LayoutProperties_c)
    (f : option FontFace_c) (runstart : nat) (asc : Z) (gs : list glyph)
    (cmds : list (nat * CommandData_c)) (rdx : Z)
  : res (list (nat * CommandData_c) * Z) :=
  match gs with
  | [] => Ret (cmds, rdx)
  | g :: gs' =>
      a ← att_checked view (g_cluster g);
      match a_inlay a with
      | Some obj =>
          let cmds1 := cmds ++ ((λ cmd, (0, shift_inlay asc rdx cmd)) <$> data obj) in
          let cmds2 := addUnderline cmds1 rdx (layout_right obj) prop a in
          output_loop view prop f runstart asc gs' cmds2 (rdx + layout_right obj)%Z
      | None =>
          let gi := g_codepoint g in
          let gx := x_offset g in
          let gy := (0 - y_offset g - a_baseline_shift (att view runstart))%Z in
          let n := length (a_shadows (att view runstart)) in
          sh ← glyph_shadows n (seq 0 n) a f gi gx gy;
          let cmds1 := cmds ++ sh ++ [(0, mkGlyph f gi gx gy (a_c a) 0%Z)] in
          let cmds2 := addUnderline cmds1 gx (x_advance g + 64)%Z prop a in
          if negb (y_advance g =? 0)%Z then Throw NonLinearScript
          else output_loop view prop f runstart asc gs' cmds2 rdx
      end
  end.

(** The buffer handed to the shaper, and what comes back when there is
    no face to shape with: the codepoints themselves, all positions zero. *)
Definition run_buffer (view : LayoutDataView) (runstart spos : nat) : list (Z * nat) :=
  zip (take (spos - runstart) (drop runstart (txt32 view)))
      (seq runstart (spos - runstart)).
Definition unshaped (buf : list (Z * nat)) : list glyph :=
  (λ b, {| g_codepoint := b.1; g_cluster := b.2; x_offset := 0; y_offset := 0;
           x_advance := 0; y_advance := 0 |}) <$> buf.

(** The glyphs of the run: the shaper's answer for the buffer, or the
    buffer as it is when there is no face. *)
Definition run_glyphs (view : LayoutDataView) (spos runstart : nat)
    (f : option FontFace_c) : res (list glyph) :=
  let is_shy := (txt view runstart =? U_SHY)%Z in
  let language := a_lang (att view runstart) in
  buf ← (if negb is_shy then Ret (run_buffer view runstart spos)
         else match f with
              | Some fc => Ret [(if containsGlyph fc U_HYPHEN then U_HYPHEN
                                 else U_HYPHEN_MINUS, 0)]
              | None => Fault
              end);
  let rtl := negb (Z.rem (emb view runstart) 2 =? 0)%Z in
  mret (match f with
        | Some fc => hb_shape E fc language rtl buf
        | None => unshaped buf
        end).

Definition createRun (view : LayoutDataView) (spos runstart : nat)
    (prop : LayoutProperties_c) (f : option FontFace_c) : res runInfo :=
  let is_space := (txt view (spos - 1) =? U_SPACE)%Z || (txt view (spos - 1) =? U_NEWLINE)%Z in
  let is_shy := (txt view runstart =? U_SHY)%Z in
  if is_shy && negb (Nat.eqb (spos - runstart) 1) then Fault else
  let language := a_lang (att view runstart) in
  if negb (script_tag_in_range language) then Fault else
  glyphs ← run_glyphs view spos runstart f;
  let level := emb view runstart in
  let rtl := negb (Z.rem level 2 =? 0)%Z in
  let bs := a_baseline_shift (att view runstart) in
  '(asc, desc) ←
    match a_inlay (att view runstart) with
    | Some obj => Ret (height obj + bs, height obj - (height obj + bs))%Z
    | None => match f with
              | Some fc => Ret (getAscender fc + bs, getDescender fc + bs)%Z
              | None => Fault
              end
    end;
  '(gs, st) ← position_loop view prop asc desc glyphs
                {| ls_dx := 0; curLink := 0;
                   linkRect := {| rx := 0; ry := 0; rw := 0; rh := 0 |};
                   linkStart := 0; ls_links := [] |};
  '(cmds, rdx) ← output_loop view prop f runstart asc
                   (if rtl then reverse gs else gs) [] (ls_dx st);
  lks ← (if negb (Nat.eqb (curLink st) 0)
         then u ← at_ (p_links prop) (curLink st - 1);
              mret (ls_links st ++ [{| url := u; areas := [linkRect st] |}])
         else mret (ls_links st));
  mret {| run := cmds; dx := rdx; dy := 0; embeddingLevel := level;
          linebreak := lnb view (spos - 1); r_font := f;
          space := is_space; shy := is_shy; ascender := asc; descender := desc;
          r_links := lks |}.

(** The condition under which the run that starts at [runstart] goes on
    over position [spos]. *)
Definition run_continues (view : LayoutDataView) (f : option FontFace_c)
    (runstart spos : nat) : bool :=
  (emb view runstart =? emb view spos)%Z
  && String.eqb (a_lang (att view runstart)) (a_lang (att view spos))
  && same_font f (get (a_font (att view spos)) (txt view spos))
  && (a_baseline_shift (att view runstart) =? a_baseline_shift (att view spos))%Z
  && negb (bool_decide (is_Some (a_inlay (att view spos))))
  && negb (bool_decide (is_Some (a_inlay (att view (spos - 1)))))
  && ((lnb view (spos - 1) =? LINEBREAK_NOBREAK)%Z
      || (lnb view (spos - 1) =? LINEBREAK_INSIDEACHAR)%Z)
  && negb (txt view spos =? U_SPACE)%Z
  && negb (txt view (spos - 1) =? U_SPACE)%Z
  && negb (txt view spos =? U_NEWLINE)%Z
  && negb (txt view (spos - 1) =? U_NEWLINE)%Z
  && negb (txt view spos =? U_SHY)%Z
  && negb (hyp view spos).

(** The view of the synthesized soft hyphen. *)
Definition shy_view (view : LayoutDataView) (runstart : nat) : LayoutDataView :=
  set_linebreaks
    (mkView [U_SHY] (AttributeIndex_all (att view runstart)) [emb view runstart])
    [LINEBREAK_ALLOWBREAK].

Fixpoint createTextRuns_loop (fuel : nat) (view : LayoutDataView)
    (prop : LayoutProperties_c) (runstart : nat) (runs : list runInfo)
  : res (list runInfo) :=
  if bool_decide (runstart < size view) then
    match fuel with
    | O => OutOfFuel
    | S fuel' =>
        let f := get (a_font (att view runstart)) (txt view runstart) in
        let spos := scan_while (size view) (run_continues view f runstart) (runstart + 1) in
        r ← createRun view spos runstart prop f;
        runs' ← (if hyp view spos
                 then r2 ← createRun (shy_view view runstart) 1 0 prop f;
                      mret (runs ++ [r; r2])
                 else mret (runs ++ [r]));
        createTextRuns_loop fuel' view prop spos runs'
    end
  else Ret runs.

Definition createTextRuns (view : LayoutDataView) (prop : LayoutProperties_c)
  : res (list runInfo) :=
  createTextRuns_loop (size view) view prop 0 [].

End Runs.


(** ** Floating point *)

(** The [float] and [double] computations of the source, over an abstract
    carrier: conversions from and to [int], the arithmetic, [fabs], [pow]
    and the comparisons. *)
Class FloatOps := {
  fl : Type;
  of_int : Z → fl;
  to_int : fl → Z;
  fadd : fl → fl → fl;
  fsub : fl → fl → fl;
  fmul : fl → fl → fl;
  fdiv : fl → fl → fl;
  fabs : fl → fl;
  fpow : fl → Z → fl;
  flt : fl → fl → bool;
  fle : fl → fl → bool;
  feq : fl → fl → bool
}.

(** ** The line assembler, [addLine] *)

Definition LF_FIRST : Z := 1.
Definition LF_LAST : Z := 2.
Definition LF_SMALL_SPACE : Z := 4.

(** [lineflags & flag] as a condition *)
Definition has_flag (lineflags flag : Z) : bool := negb (Z.land lineflags flag =? 0)%Z.

(** One pass of the reordering loop for the level [i]: every maximal
    stretch of runs whose level is above [i] is reversed; [acc] holds the
    stretch under way, already reversed. *)
Fixpoint reverse_regions (lvl : nat → Z) (i : Z) (acc order : list nat) : list nat :=
  match order with
  | [] => acc
  | r :: rest =>
      if (i <? lvl r)%Z then reverse_regions lvl i (r :: acc) rest
      else acc ++ r :: reverse_regions lvl i [] rest
  end.

(** [for (int i = max_level-1; i >= 0; i--)] *)
Definition reorder (lvl : nat → Z) (max_level : Z) (order : list nat) : list nat :=
  foldl (λ o i, reverse_regions lvl (Z.of_nat i) [] o) order
        (reverse (seq 0 (Z.to_nat max_level))).

(** [mergeLinks] for one link: the rectangles go to the first link of the
    layout with the same url, or to a new link at the end. *)
Fixpoint add_areas (ls : list LinkInformation_c) (u : string) (rs : list Rectangle_c)
  : list LinkInformation_c :=
  match ls with
  | [] => [{| url := u; areas := rs |}]
  | l2 :: ls' =>
      if String.eqb u (url l2) then {| url := url l2; areas := areas l2 ++ rs |} :: ls'
      else l2 :: add_areas ls' u rs
  end.

Definition shift_rect (ddx ddy : Z) (r : Rectangle_c) : Rectangle_c :=
  {| rx := rx r + ddx; ry := ry r + ddy; rw := rw r; rh := rh r |}.

Definition mergeLinks (txl : list LinkInformation_c) (ls : list LinkInformation_c)
    (ddx ddy : Z) : list LinkInformation_c :=
  foldl (λ acc l, add_areas acc (url l) (shift_rect ddx ddy <$> areas l)) txl ls.

Definition set_run_cmds (r : runInfo) (cmds : list (nat * CommandData_c))
    (ls : list LinkInformation_c) : runInfo :=
  {| run := cmds; dx := dx r; dy := dy r; embeddingLevel := embeddingLevel r;
     linebreak := linebreak r; r_font := r_font r; space := space r; shy := shy r;
     ascender := ascender r; descender := descender r; r_links := ls |}.

(** What one run contributes to the layer [lay] of its line; [is_last]
    says that the run is the last of the line. *)
Definition emit_run (is_last : bool) (r : runInfo) (lay : nat)
  : list (nat * CommandData_c) :=
  if negb (shy r) || is_last then
    if negb (space r) then
      filter (λ cc, cc.1 = lay) (run r)
    else
      filter (λ cc, cc.1 = lay ∧ command cc.2 = CMD_RECT) (run r)
  else [].

(** [maxlayer]: one more than the largest layer of the runs in [order]. *)
Definition maxlayer_of (runs : list runInfo) (order : list nat) : nat :=
  foldl (λ m ri,
           foldl (λ m' cc, Nat.max m' (cc.1 + 1)) m
                 (match runs !! ri with Some r => run r | None => [] end))
        0 order.

(** The commands of the line in the order [addLine] appends them, each
    with the layer it was filed under. *)
Definition emit_layer (runs : list runInfo) (runstart spos lay : nat)
  : list (nat * CommandData_c) :=
  flat_map (λ i, match runs !! i with
                 | Some r => emit_run (Nat.eqb (S i) spos) r lay
                 | None => []
                 end)
           (seq runstart (spos - runstart)).

Definition line_commands (runs : list runInfo) (order : list nat) (runstart spos : nat)
  : list (nat * CommandData_c) :=
  let maxlayer := maxlayer_of runs order in
  flat_map (λ layer, emit_layer runs runstart spos (maxlayer - layer - 1))
           (seq 0 maxlayer).

Section Assembler.
Context {F : FloatOps}.

(** [1.0 * spaceLeft / numSpace] *)
Definition space_share (spaceLeft numSpace : Z) : fl :=
  fdiv (fmul (of_int 1) (of_int spaceLeft)) (of_int numSpace).

(** The [switch (prop.align)]: where the line starts and by how much
    every space grows. *)
Definition line_start (prop : LayoutProperties_c) (left spaceLeft lineflags numSpace : Z)
  : Z * fl :=
  match align prop with
  | ALG_LEFT =>
      (if has_flag lineflags LF_FIRST then left + indent prop else left, of_int 0)%Z
  | ALG_RIGHT => (left + spaceLeft, of_int 0)%Z
  | ALG_CENTER => (left + spaceLeft `quot` 2, of_int 0)%Z
  | ALG_JUSTIFY_LEFT =>
      let spaceadder :=
        if (0 <? numSpace)%Z && negb (has_flag lineflags LF_LAST)
        then space_share spaceLeft numSpace else of_int 0 in
      (if has_flag lineflags LF_FIRST then left + indent prop else left, spaceadder)%Z
  | ALG_JUSTIFY_RIGHT =>
      if (0 <? numSpace)%Z && negb (has_flag lineflags LF_LAST)
      then (left, space_share spaceLeft numSpace)
      else (left + spaceLeft, of_int 0)%Z
  end.

(** [xpos2 + spaceadder*numSpace] *)
Definition run_offset (xpos2 : Z) (spaceadder : fl) (numSpace : Z) : fl :=
  fadd (of_int xpos2) (fmul spaceadder (of_int numSpace)).

(** [cc.second.x += off; cc.second.y += ypos;] *)
Definition move_cmd (off : fl) (ypos : Z) (cmd : CommandData_c) : CommandData_c :=
  {| command := command cmd; x := to_int (fadd (of_int (x cmd)) off);
     y := y cmd + ypos; w := w cmd; h := h cmd; glyphIndex := glyphIndex cmd;
     font := font cmd; c := c cmd; blurr := blurr cmd |}.
(** [cc.second.w += spaceadder;] *)
Definition widen_cmd (spaceadder : fl) (cmd : CommandData_c) : CommandData_c :=
  {| command := command cmd; x := x cmd; y := y cmd;
     w := to_int (fadd (of_int (w cmd)) spaceadder); h := h cmd;
     glyphIndex := glyphIndex cmd; font := font cmd; c := c cmd; blurr := blurr cmd |}.

Definition place_cmd (is_space : bool) (spaceadder off : fl) (ypos : Z)
    (cc : nat * CommandData_c) : nat * CommandData_c :=
  if negb is_space then (cc.1, move_cmd off ypos cc.2)
  else match command cc.2 with
       | CMD_RECT => (cc.1, move_cmd off ypos (widen_cmd spaceadder cc.2))
       | _ => cc
       end.

(** [runs[ri].links[0].areas[0].w += spaceadder], when both exist *)
Definition widen_first_area (spaceadder : fl) (ls : list LinkInformation_c)
  : list LinkInformation_c :=
  match ls with
  | {| url := u; areas := a0 :: rest |} :: ls' =>
      {| url := u;
         areas := {| rx := rx a0; ry := ry a0;
                     rw := to_int (fadd (of_int (rw a0)) spaceadder);
                     rh := rh a0 |} :: rest |} :: ls'
  | _ => ls
  end.

(** [for (auto ri : runorder)]: the runs are moved to their place, the
    links are merged into the layout. *)
Fixpoint place_loop (spos : nat) (ypos lineflags : Z) (spaceadder : fl)
    (order : list nat) (runs : list runInfo) (txl : list LinkInformation_c)
    (xpos2 numSpace : Z) : res (list runInfo * list LinkInformation_c) :=
  match order with
  | [] => Ret (runs, txl)
  | ri :: order' =>
      r ← at_ runs ri;
      if negb (shy r) || Nat.eqb (S ri) spos then
        let off := run_offset xpos2 spaceadder numSpace in
        let cmds := place_cmd (space r) spaceadder off ypos <$> run r in
        let ls := if space r then widen_first_area spaceadder (r_links r) else r_links r in
        let runs' := <[ri := set_run_cmds r cmds ls]> runs in
        let txl' := mergeLinks txl ls (to_int off) ypos in
        let numSpace' := (if space r then numSpace + 1 else numSpace)%Z in
        let xpos2' :=
          (if negb (space r) then xpos2 + dx r
           else if has_flag lineflags LF_SMALL_SPACE then xpos2 + (9 * dx r) `quot` 10
                else xpos2 + dx r)%Z in
        place_loop spos ypos lineflags spaceadder order' runs' txl' xpos2' numSpace'
      else
        place_loop spos ypos lineflags spaceadder order' runs txl xpos2 numSpace
  end.

Fixpoint run_levels (runs : list runInfo) (order : list nat) : res (list Z) :=
  match order with
  | [] => Ret []
  | ri :: order' =>
      r ← at_ runs ri;
      ls ← run_levels runs order';
      mret (embeddingLevel r :: ls)
  end.

Definition addLine (runstart spos : nat) (runs : list runInfo) (l : TextLayout_c)
    (ypos curWidth left right lineflags numSpace : Z) (prop : LayoutProperties_c)
  : res (list runInfo * TextLayout_c) :=
  if bool_decide (spos < runstart) then Throw "std::length_error" else
  let order0 := seq runstart (spos - runstart) in
  levels ← run_levels runs order0;
  let max_level := foldl Z.max 0%Z levels in
  let lvl := λ ri, match runs !! ri with Some r => embeddingLevel r | None => 0%Z end in
  let runorder := reorder lvl max_level order0 in
  let spaceLeft := (right - left - curWidth)%Z in
  let '(xpos, spaceadder) := line_start prop left spaceLeft lineflags numSpace in
  '(runs', txl) ← place_loop spos ypos lineflags spaceadder runorder runs (links l) xpos 0%Z;
  let cmds := line_commands runs' runorder runstart spos in
  mret (runs', foldl addCommand (setLinks l txl) (cmds.*2)).

End Assembler.


(** ** The greedy line breaker, [breakLines] *)

(** The line under construction: [curAscend], [curDescend], [curWidth],
    [spos] and [numSpace] (and their [new...] copies while a candidate is
    measured). *)
Record line_acc := {
  curAscend : Z;
  curDescend : Z;
  curWidth : Z;
  l_spos : nat;
  numSpace : nat
}.

Definition is_break (lb : Z) : bool :=
  (lb =? LINEBREAK_ALLOWBREAK)%Z || (lb =? LINEBREAK_MUSTBREAK)%Z.

(** The two conditions under which the candidate ends with the run
    [newspos]. *)
Definition break_after (runs : list runInfo) (newspos : nat) : bool :=
  match runs !! (newspos + 1) with
  | Some r1 => space r1 && is_break (linebreak r1)
  | None => false
  end
  || match runs !! newspos with
     | Some r => negb (space r) && is_break (linebreak r)
     | None => false
     end.

Definition add_run (c : line_acc) (r : runInfo) : line_acc :=
  {| curAscend := Z.max (curAscend c) (ascender r);
     curDescend := Z.min (curDescend c) (descender r);
     curWidth := curWidth c + dx r;
     l_spos := l_spos c;
     numSpace := if space r then numSpace c + 1 else numSpace c |}.

Definition set_spos (c : line_acc) (p : nat) : line_acc :=
  {| curAscend := curAscend c; curDescend := curDescend c; curWidth := curWidth c;
     l_spos := p; numSpace := numSpace c |}.
Definition set_width (c : line_acc) (wd : Z) : line_acc :=
  {| curAscend := curAscend c; curDescend := curDescend c; curWidth := wd;
     l_spos := l_spos c; numSpace := numSpace c |}.

(** [while (newspos < runs.size())]: runs are added up to the next place
    where the line may break; [n] bounds the runs that are left. *)
Fixpoint extend (runs : list runInfo) (n : nat) (c : line_acc) : line_acc :=
  match n with
  | O => c
  | S n' =>
      match runs !! l_spos c with
      | None => c
      | Some r =>
          let c1 := add_run c r in
          if break_after runs (l_spos c) then c1
          else extend runs n' (set_spos c1 (S (l_spos c)))
      end
  end.

(** The candidate after the closing [newspos++]. *)
Definition candidate (runs : list runInfo) (cur : line_acc) : line_acc :=
  let c := extend runs (length runs - l_spos cur) cur in
  set_spos c (S (l_spos c)).

Inductive step := Overrun | Commit (c : line_acc) (force : bool).

(** Whether the candidate [new] is wider than the column at its height. *)
Definition overruns (shape : Shape_c) (ypos : Z) (new : line_acc) : bool :=
  let bottom := (ypos + curAscend new - curDescend new)%Z in
  (getRight shape ypos bottom <? getLeft shape ypos bottom + curWidth new)%Z.

(** One turn of [while (spos < runs.size())]. *)
Definition try_extend (runs : list runInfo) (shape : Shape_c) (ypos : Z)
    (runstart : nat) (cur : line_acc) : res step :=
  let new := candidate runs cur in
  if bool_decide (runstart < l_spos cur) && overruns shape ypos new then Ret Overrun
  else
    wd ← (if bool_decide (runstart < l_spos cur)
          then r ← at_ runs (l_spos cur - 1);
               mret (if shy r then curWidth new - dx r else curWidth new)%Z
          else mret (curWidth new));
    let c' := set_width new wd in
    last ← at_ runs (l_spos c' - 1);
    let force :=
      (linebreak last =? LINEBREAK_MUSTBREAK)%Z
      || match runs !! l_spos c' with
         | Some r => space r && (linebreak r =? LINEBREAK_MUSTBREAK)%Z
         | None => false
         end in
    Ret (Commit c' force).

Fixpoint fill_line (fuel : nat) (runs : list runInfo) (shape : Shape_c) (ypos : Z)
    (runstart : nat) (cur : line_acc) : res (line_acc * bool) :=
  if bool_decide (l_spos cur < length runs) then
    match fuel with
    | O => OutOfFuel
    | S fuel' =>
        s ← try_extend runs shape ypos runstart cur;
        match s with
        | Overrun => Ret (cur, false)
        | Commit c' true => Ret (c', true)
        | Commit c' false => fill_line fuel' runs shape ypos runstart c'
        end
    end
  else Ret (cur, false).

Record breaker_state := {
  b_runs : list runInfo;
  b_runstart : nat;
  b_ypos : Z;
  b_layout : TextLayout_c;
  firstline : bool
}.

Definition is_center (a : align_t) : bool :=
  match a with ALG_CENTER => true | _ => false end.

Section Greedy.
Context {F : FloatOps}.

(** One turn of [while (runstart < runs.size())]. *)
Definition breakLines_iter (shape : Shape_c) (prop : LayoutProperties_c)
    (st : breaker_state) : res breaker_state :=
  let runs := b_runs st in
  let ypos := b_ypos st in
  let runstart :=
    scan_while (length runs)
      (λ i, match runs !! i with Some r => space r | None => false end)
      (b_runstart st) in
  let cur0 :=
    {| curAscend := 0; curDescend := 0;
       curWidth := if firstline st && negb (is_center (align prop))
                   then indent prop else 0%Z;
       l_spos := runstart; numSpace := 0 |} in
  '(cur, force) ← fill_line (length runs) runs shape ypos runstart cur0;
  let forcebreak := force || Nat.eqb (l_spos cur) (length runs) in
  let bottom := (ypos + curAscend cur - curDescend cur)%Z in
  '(runs', l') ←
    addLine runstart (l_spos cur) runs (b_layout st) (ypos + curAscend cur)%Z
      (curWidth cur) (getLeft shape ypos bottom) (getRight shape ypos bottom)
      ((if firstline st then LF_FIRST else 0) + (if forcebreak then LF_LAST else 0))%Z
      (Z.of_nat (numSpace cur)) prop;
  mret {| b_runs := runs'; b_runstart := l_spos cur; b_ypos := bottom;
          b_layout := if firstline st then setFirstBaseline l' (ypos + curAscend cur)%Z
                      else l';
          firstline := false |}.

Fixpoint breakLines_loop (fuel : nat) (shape : Shape_c) (prop : LayoutProperties_c)
    (st : breaker_state) : res breaker_state :=
  if bool_decide (b_runstart st < length (b_runs st)) then
    match fuel with
    | O => OutOfFuel
    | S fuel' =>
        st' ← breakLines_iter shape prop st;
        breakLines_loop fuel' shape prop st'
    end
  else Ret st.

(** The loop gets one unit of fuel per run. *)
Definition breakLines (runs : list runInfo) (shape : Shape_c)
    (prop : LayoutProperties_c) (ystart : Z) : res TextLayout_c :=
  st ← breakLines_loop (length runs) shape prop
         {| b_runs := runs; b_runstart := 0; b_ypos := ystart;
            b_layout := emptyLayout; firstline := true |};
  let ypos := b_ypos st in
  mret (setRight (setLeft (setHeight (b_layout st) ypos)
                          (getLeft2 shape ystart ypos))
                 (getRight2 shape ystart ypos)).

End Greedy.


(** ** The optimizing line breaker, [breakLinesOptimize] *)

Section Optimizer.
Context {F : FloatOps}.

(** [lineinfo], one entry per break position. *)
Record lineinfo := {
  from : nat;
  demerits : fl;
  li_ascend : Z;
  li_descend : Z;
  li_width : Z;
  li_spaces : Z;
  li_ypos : Z;
  li_forcebreak : bool;
  linetype : Z;
  hypen : bool;
  start : bool
}.

(** A value-initialized entry of [std::vector<lineinfo>]. *)
Definition lineinfo0 : lineinfo :=
  {| from := 0; demerits := of_int 0; li_ascend := 0; li_descend := 0; li_width := 0;
     li_spaces := 0; li_ypos := 0; li_forcebreak := false; linetype := 0;
     hypen := false; start := false |}.

Definition set_demerits (e : lineinfo) (d : fl) : lineinfo :=
  {| from := from e; demerits := d; li_ascend := li_ascend e; li_descend := li_descend e;
     li_width := li_width e; li_spaces := li_spaces e; li_ypos := li_ypos e;
     li_forcebreak := li_forcebreak e; linetype := linetype e; hypen := hypen e;
     start := start e |}.
Definition set_ypos (e : lineinfo) (yp : Z) : lineinfo :=
  {| from := from e; demerits := demerits e; li_ascend := li_ascend e;
     li_descend := li_descend e; li_width := li_width e; li_spaces := li_spaces e;
     li_ypos := yp; li_forcebreak := li_forcebreak e; linetype := linetype e;
     hypen := hypen e; start := start e |}.

Definition INT_MAX : Z := 2147483647.

(** [while (runs[s1].space) s1++;] *)
Fixpoint skip_fwd (runs : list runInfo) (n : nat) (s1 : nat) : res nat :=
  r ← at_ runs s1;
  if space r then
    match n with
    | O => OutOfFuel
    | S n' => skip_fwd runs n' (S s1)
    end
  else Ret s1.

(** [while (runs[s2-1].space) s2--;] *)
Fixpoint skip_bwd (runs : list runInfo) (s2 : nat) : res nat :=
  match s2 with
  | O => Fault
  | S p => r ← at_ runs p; if space r then skip_bwd runs p else Ret s2
  end.

Record measure := {
  Ascend : Z;
  Descend : Z;
  Width : Z;
  Space : Z;
  optimalStretch : Z;
  spaceWidth : Z
}.

(** [for (int j = s1; j < s2; j++)] *)
Fixpoint measure_loop (runs : list runInfo) (s2 : nat) (js : list nat) (m : measure)
  : res measure :=
  match js with
  | [] => Ret m
  | j :: js' =>
      r ← at_ runs j;
      if negb (shy r) || Nat.eqb (S j) s2 then
        let asc := Z.max (Ascend m) (ascender r) in
        let desc := Z.min (Descend m) (descender r) in
        if space r then
          measure_loop runs s2 js'
            {| Ascend := asc; Descend := desc;
               Width := Width m + (dx r * 9) `quot` 10;
               Space := Space m + 1;
               optimalStretch := optimalStretch m + dx r `quot` 10;
               spaceWidth := spaceWidth m + dx r |}
        else
          measure_loop runs s2 js'
            {| Ascend := asc; Descend := desc; Width := Width m + dx r;
               Space := Space m; optimalStretch := optimalStretch m;
               spaceWidth := spaceWidth m |}
      else measure_loop runs s2 js' m
  end.

(** [100.0*pow(1.0*fillinDifference/optimalFillin, 3)] *)
Definition badness_of (fillin optimalFillin : fl) : fl :=
  let fillinDifference := fabs (fsub fillin optimalFillin) in
  fmul (of_int 100) (fpow (fdiv (fmul (of_int 1) fillinDifference) optimalFillin) 3).

Definition linetype_of (badness fillin optimalFillin : fl) : Z :=
  if fle (of_int 100) badness then 3
  else if fle (of_int 13) badness then
         if flt optimalFillin fillin then 2 else 0
       else 1.

(** The demerits from badness, hyphen and line type. *)
Definition base_demerits (badness : fl) (two_hyphens : bool) (lt prev_lt : Z) : fl :=
  let d := fmul (fadd (of_int 10) badness) (fadd (of_int 10) badness) in
  let d := if two_hyphens then fadd d (of_int 10000) else d in
  let d := if (1 <? Z.abs (lt - prev_lt))%Z then fadd d (of_int 10000) else d in
  if negb (lt =? prev_lt)%Z then fadd d (of_int 5000) else d.

(** [if (runs[i-1].linebreak == LINEBREAK_MUSTBREAK || i == runs.size())]:
    [column] is the width of the column at the line's height. *)
Definition at_forced_end (runs : list runInfo) (i : nat) : res bool :=
  r ← at_ runs (i - 1);
  mret ((linebreak r =? LINEBREAK_MUSTBREAK)%Z || Nat.eqb i (length runs)).

Definition final_demerits (at_end : bool) (wd column : Z) (d : fl) : fl * bool :=
  if at_end then
    (if (column `quot` 3 <? wd)%Z then of_int 0 else of_int 100000, true)
  else (d, false).

Inductive cand := TooLong | Cand (e : lineinfo).

(** The line from [start-1] to [i], coming from the entry [prev]. *)
Definition eval_start (runs : list runInfo) (shape : Shape_c)
    (prop : LayoutProperties_c) (prev : lineinfo) (i st : nat) : res cand :=
  let width0 := if Nat.eqb st 1 && negb (is_center (align prop))
                then indent prop else 0%Z in
  s1 ← skip_fwd runs (length runs) (st - 1);
  s2 ← skip_bwd runs i;
  m ← measure_loop runs s2 (seq s1 (s2 - s1))
        {| Ascend := 0; Descend := 0; Width := width0; Space := 0;
           optimalStretch := 0; spaceWidth := 0 |};
  let top := li_ypos prev in
  let bottom := (top + Ascend m - Descend m)%Z in
  let left := getLeft shape top bottom in
  let right := getRight shape top bottom in
  if (right <? left + Width m)%Z then Ret TooLong else
  let fillin := of_int (right - left - Width m) in
  let optimalFillin := of_int (spaceWidth m - Width m) in
  let badness := badness_of fillin optimalFillin in
  let lt := linetype_of badness fillin optimalFillin in
  last ← at_ runs (s2 - 1);
  let d := base_demerits badness (shy last && hypen prev) lt (linetype prev) in
  at_end ← at_forced_end runs i;
  let '(d', force) := final_demerits at_end (Width m) (right - left) d in
  Ret (Cand {| from := st - 1; demerits := fadd d' (demerits prev);
               li_ascend := Ascend m; li_descend := Descend m; li_width := Width m;
               li_spaces := Space m; li_ypos := top + Ascend m - Descend m;
               li_forcebreak := force; linetype := lt; hypen := shy last;
               start := false |}).

(** [for (size_t start = i; start > 0; start--)] *)
Fixpoint starts_loop (runs : list runInfo) (shape : Shape_c)
    (prop : LayoutProperties_c) (i : nat) (sts : list nat) (li : list lineinfo)
  : res (list lineinfo) :=
  match sts with
  | [] => Ret li
  | st :: sts' =>
      prev ← at_ li (st - 1);
      if feq (demerits prev) (of_int INT_MAX) then starts_loop runs shape prop i sts' li
      else
        r ← eval_start runs shape prop prev i st;
        match r with
        | TooLong => Ret li
        | Cand e =>
            cur ← at_ li i;
            if flt (demerits e) (demerits cur)
            then starts_loop runs shape prop i sts' (<[i := e]> li)
            else starts_loop runs shape prop i sts' li
        end
  end.

(** [while (!li[ii].start) { breaks.push_back(ii); ii = li[ii].from; }] *)
Fixpoint collect_breaks (fuel : nat) (li : list lineinfo) (ii : nat) (breaks : list nat)
  : res (list nat) :=
  e ← at_ li ii;
  if start e then Ret (breaks ++ [ii])
  else match fuel with
       | O => OutOfFuel
       | S fuel' => collect_breaks fuel' li (from e) (breaks ++ [ii])
       end.

(** [for (ii = breaks.size()-1; ii > 0; ii--)]: the lines of the
    sub-paragraph, top down. *)
Fixpoint emit_lines (shape : Shape_c) (prop : LayoutProperties_c) (breaks : list nat)
    (iis : list nat) (runs : list runInfo) (li : list lineinfo) (l : TextLayout_c)
  : res (list runInfo * list lineinfo * TextLayout_c) :=
  match iis with
  | [] => Ret (runs, li, l)
  | ii :: iis' =>
      b1 ← at_ breaks (ii - 1);
      b2 ← at_ breaks ii;
      bb ← at_ li b1;
      cc ← at_ li b2;
      s1 ← skip_fwd runs (length runs) b2;
      s2 ← skip_bwd runs b1;
      let top := li_ypos cc in
      let bottom := (top + li_ascend bb - li_descend bb)%Z in
      let is_first := Nat.eqb ii (length breaks - 1) in
      '(runs', l') ←
        addLine s1 s2 runs l (top + li_ascend bb)%Z (li_width bb)
          (getLeft shape top bottom) (getRight shape top bottom)
          ((if is_first then LF_FIRST else 0) + (if Nat.eqb ii 1 then LF_LAST else 0)
           + LF_SMALL_SPACE)%Z
          (li_spaces bb) prop;
      let l'' := if is_first then setFirstBaseline l' (top + li_ascend bb)%Z else l' in
      emit_lines shape prop breaks iis' runs' (<[b2 := set_ypos cc bottom]> li) l''
  end.

Record opt_state := {
  o_runs : list runInfo;
  o_li : list lineinfo;
  o_i : nat;
  o_layout : TextLayout_c
}.

(** The body of [for (size_t i = 1; i < runs.size()+1; i++)]. *)
Definition optimize_iter (shape : Shape_c) (prop : LayoutProperties_c)
    (s : opt_state) : res opt_state :=
  let runs := o_runs s in
  let i := o_i s in
  cur ← at_ (o_li s) i;
  let li := <[i := set_demerits cur (of_int INT_MAX)]> (o_li s) in
  r ← at_ runs (i - 1);
  li ← (if is_break (linebreak r)
        then starts_loop runs shape prop i (reverse (seq 1 i)) li
        else Ret li);
  at_end ← at_forced_end runs i;
  if (at_end : bool) then
    breaks ← collect_breaks (length li) li i [];
    '(runs', li', l') ←
      emit_lines shape prop breaks (reverse (seq 1 (length breaks - 1)))
                 runs li (o_layout s);
    e0 ← at_ li' 0;
    ei ← at_ li' i;
    Ret {| o_runs := drop i runs'; o_li := <[0 := set_ypos e0 (li_ypos ei)]> li';
           o_i := 0; o_layout := l' |}
  else
    Ret {| o_runs := runs; o_li := li; o_i := i; o_layout := o_layout s |}.

Definition next_i (s : opt_state) : opt_state :=
  {| o_runs := o_runs s; o_li := o_li s; o_i := o_i s + 1; o_layout := o_layout s |}.

Fixpoint optimize_loop (fuel : nat) (shape : Shape_c) (prop : LayoutProperties_c)
    (s : opt_state) : res opt_state :=
  if bool_decide (o_i s < length (o_runs s) + 1) then
    match fuel with
    | O => OutOfFuel
    | S fuel' =>
        s' ← optimize_iter shape prop s;
        optimize_loop fuel' shape prop (next_i s')
    end
  else Ret s.

(** The loop gets one unit of fuel per run: every turn moves [i] one run
    forward, and a turn that ends a sub-paragraph removes the runs before
    [i] and starts over behind them. *)
Definition breakLinesOptimize (runs : list runInfo) (shape : Shape_c)
    (prop : LayoutProperties_c) (ystart : Z) : res TextLayout_c :=
  let li0 :=
    {| from := 0; demerits := of_int 0; li_ascend := 0; li_descend := 0;
       li_width := 0; li_spaces := 0; li_ypos := ystart; li_forcebreak := false;
       linetype := 0; hypen := false; start := true |} in
  s ← optimize_loop (length runs) shape prop
        {| o_runs := runs; o_li := li0 :: replicate (length runs) lineinfo0;
           o_i := 1; o_layout := emptyLayout |};
  e0 ← at_ (o_li s) 0;
  let ypos := li_ypos e0 in
  mret (setRight (setLeft (setHeight (o_layout s) ypos)
                          (getLeft2 shape ystart ypos))
                 (getRight2 shape ystart ypos)).

End Optimizer.

(** ** [layoutParagraph] *)

Definition BidiFailure : string :=
  "unable to calculate embedding levels, possible out of memory".

Section Paragraph.
Context (E : Externals) {F : FloatOps}.

(** [getBidiEmbeddingLevels]: the vector of levels is as long as the
    text, FriBidi fills it or reports failure. *)
Definition getBidiEmbeddingLevels (t : list Z) (prop : LayoutProperties_c)
  : res (list Z) :=
  match fribidi_get_par_embedding_levels E t (ltr prop) with
  | Some lv => Ret (resize (length t) 0%Z lv)
  | None => Throw BidiFailure
  end.

(** The view with its break classes and hyphenation points. *)
Definition analyse (t : list Z) (a : AttributeIndex_c) (prop : LayoutProperties_c)
  : res LayoutDataView :=
  embedding_levels ← getBidiEmbeddingLevels t prop;
  let view := mkView t a embedding_levels in
  view ← getLinebreaks E view;
  if hyphenate prop then getHyphens E view else Ret view.

Definition layoutParagraph (t : list Z) (a : AttributeIndex_c) (shape : Shape_c)
    (prop : LayoutProperties_c) (ystart : Z) : res TextLayout_c :=
  view ← analyse t a prop;
  runs ← createTextRuns E view prop;
  if optimizeLinebreaks prop
  then breakLinesOptimize runs shape prop ystart
  else breakLines runs shape prop ystart.

End Paragraph.


(** ** Vocabulary of the properties *)

(** Calls that neither throw nor depend on fuel. *)
Definition clean {A} (r : res A) : Prop :=
  match r with Ret _ | Fault => True | Throw _ | OutOfFuel => False end.

(** A glyph that makes [createRun] give up: its vertical advance is not
    zero and its cluster is not an inline object. *)
Definition offending (view : LayoutDataView) (g : glyph) : Prop :=
  y_advance g ≠ 0%Z ∧
  ∃ a, att_checked view (g_cluster g) = Ret a ∧ a_inlay a = None.

(** Two glyphs of the same cluster with the same vertical advance. *)
Definition same_cell (g g' : glyph) : Prop :=
  g_cluster g = g_cluster g' ∧ y_advance g = y_advance g'.

(** What the breakers read of a run when they choose the breaks. *)
Definition run_kind (r : runInfo) : bool * Z := (space r, linebreak r).

(** The run list ends, as liblinebreak ends every text, in a forced
    break. *)
Definition ends_with_mustbreak (runs : list runInfo) : Prop :=
  ∀ rl, last runs = Some rl → linebreak rl = LINEBREAK_MUSTBREAK.

(** A position at which the greedy breaker may start to measure a
    candidate: inside the list or at its end, and not on a closing blank. *)
Definition candidate_start (runs : list runInfo) (p : nat) : Prop :=
  p ≤ length runs ∧
  ∀ rl, last runs = Some rl → space rl = true → p + 1 ≠ length runs.

(** ** Concrete collaborators and inputs

    Small stand-ins for the external libraries, used to run the model: a
    word breaker that breaks around blanks, a line breaker that allows a
    break after a blank and forces one at the end of its window, a
    dictionary that admits a hyphen after the first letter of every word
    of three letters or more (its answer is five entries longer than the
    word), and a shaper that answers one glyph of
    advance 640 per codepoint. *)
Module Sample.

Definition black : color_c := {| col_r := 0; col_g := 0; col_b := 0; col_a := 255 |}.

Definition face1 : FontFace_c :=
  {| face := 1; getAscender := 640; getDescender := -128; containsGlyph := λ _, true |}.

Definition font1 : Font_c :=
  {| get := λ _, Some face1; getUnderlinePosition := -64; getUnderlineThickness := 32 |}.

Definition attr_of (lang : string) : CodepointAttributes_c :=
  {| a_c := black; a_font := font1; a_lang := lang; a_flags := 0; a_link := 0;
     a_baseline_shift := 0; a_inlay := None; a_shadows := [] |}.

(** One attribute per original position, told apart by language. *)
Definition attrs (langs : list string) : AttributeIndex_c :=
  {| attr_at := λ i, attr_of (nth i langs ""%string);
     hasAttribute := λ i, bool_decide (i < length langs) |}.

Definition word_char (ch : Z) : bool := negb (ch =? 0)%Z && negb (ch =? U_SPACE)%Z.

Definition wordbreaks (wd : list Z) (lang : string) (k : nat) : Z :=
  if word_char (nth k wd 0%Z) && word_char (nth (k + 1) wd 0%Z)
  then WORDBREAK_NOBREAK else WORDBREAK_BREAK.

Definition linebreaks_of (wd : list Z) (lang : string) (k : nat) : Z :=
  if Nat.eqb (k + 1) (length wd) then LINEBREAK_MUSTBREAK
  else if (nth k wd 0%Z =? U_SPACE)%Z then LINEBREAK_ALLOWBREAK
       else LINEBREAK_NOBREAK.

Definition after_first_letter : HyphenDict := λ word,
  imap (λ k _, {| hy_hyphens := if Nat.eqb k 0 && bool_decide (3 ≤ length word)
                                then 1 else 0;
                  hy_rep := [] |})
       (word ++ replicate 5 0%Z).

Definition shape_glyphs (f : FontFace_c) (lang : string) (rtl : bool)
    (buf : list (Z * nat)) : list glyph :=
  (λ b, {| g_codepoint := b.1; g_cluster := b.2; x_offset := 0; y_offset := 0;
           x_advance := 640; y_advance := 0 |}) <$> buf.

(** Levels: everything left-to-right. *)
Definition levels (t : list Z) (is_ltr : bool) : option (list Z) :=
  Some (replicate (length t) 0%Z).

(** The libraries with a hyphenation dictionary for the one language
    [dict_lang]. *)
Definition lib (dict_lang : string) : Externals :=
  {| fribidi_get_par_embedding_levels := levels;
     set_linebreaks_utf32 := linebreaks_of;
     set_wordbreaks_utf32 := wordbreaks;
     getHyphenDict := λ l, if String.eqb l dict_lang then Some after_first_letter else None;
     hb_shape := shape_glyphs |}.

Definition view_of (t : list Z) (langs : list string) : LayoutDataView :=
  mkView t (attrs langs) (replicate (length t) 0%Z).

(** "x" in English followed by "abc" in German. *)
Definition view_en_de : LayoutDataView :=
  view_of [120; 97; 98; 99]%Z ["en"; "de"; "de"; "de"]%string.
(** "xabc", all of it German. *)
Definition view_de : LayoutDataView :=
  view_of [120; 97; 98; 99]%Z ["de"; "de"; "de"; "de"]%string.

(** "abcd" in English, a blank that carries no language, then "xy"
    followed by a soft hyphen the user typed, in English again. *)
Definition view_user_shy : LayoutDataView :=
  view_of [97; 98; 99; 100; 32; 120; 121; 173]%Z
          ["en"; "en"; "en"; "en"; ""; "en"; "en"; "en"]%string.

(** Integers standing in for floating point, to run the model. *)
Definition zfloat : FloatOps :=
  {| fl := Z; of_int := id; to_int := id; fadd := Z.add; fsub := Z.sub;
     fmul := Z.mul; fdiv := Z.quot; fabs := Z.abs; fpow := Z.pow;
     flt := Z.ltb; fle := Z.leb; feq := Z.eqb |}.

(** A straight column from 0 to [wd]. *)
Definition column (wd : Z) : Shape_c :=
  {| getLeft := λ _ _, 0%Z; getRight := λ _ _, wd;
     getLeft2 := λ _ _, 0%Z; getRight2 := λ _ _, wd |}.

Definition props (al : align_t) (opt : bool) : LayoutProperties_c :=
  {| ltr := true; align := al; indent := 0; hyphenate := false;
     optimizeLinebreaks := opt; underlineFont := None; p_links := [] |}.

(** An inline object, ten pixels square, and the attribute that places
    it; the attribute names a font as well. *)
Definition picture : TextLayout_c :=
  {| data := [mkRect 0 0 640 640 black 0]; links := []; firstBaseline := 0;
     height := 640; layout_left := 0; layout_right := 640 |}.
Definition attr_picture : CodepointAttributes_c :=
  {| a_c := black; a_font := font1; a_lang := "en"; a_flags := 0; a_link := 0;
     a_baseline_shift := 0; a_inlay := Some picture; a_shadows := [] |}.

(** A shaper for a vertical script: every glyph advances downwards. *)
Definition shape_vertical (f : FontFace_c) (lang : string) (rtl : bool)
    (buf : list (Z * nat)) : list glyph :=
  (λ b, {| g_codepoint := b.1; g_cluster := b.2; x_offset := 0; y_offset := 0;
           x_advance := 0; y_advance := 640 |}) <$> buf.
Definition lib_vertical : Externals :=
  {| fribidi_get_par_embedding_levels := levels;
     set_linebreaks_utf32 := linebreaks_of;
     set_wordbreaks_utf32 := wordbreaks;
     getHyphenDict := λ _, None;
     hb_shape := shape_vertical |}.

(** Runs for the line breakers: a word and a blank of the given
    advance and break class, and a word with one shadow. *)
Definition word_run (adv lb : Z) : runInfo :=
  {| run := [(0, mkGlyph (Some face1) 36 0 0 black 0)]; dx := adv; dy := 0;
     embeddingLevel := 0; linebreak := lb; r_font := Some face1; space := false;
     shy := false; ascender := 640; descender := -128; r_links := [] |}.
Definition space_run (adv lb : Z) : runInfo :=
  {| run := [(0, mkGlyph (Some face1) 3 0 0 black 0)]; dx := adv; dy := 0;
     embeddingLevel := 0; linebreak := lb; r_font := Some face1; space := true;
     shy := false; ascender := 640; descender := -128; r_links := [] |}.
Definition shadow_run (adv lb : Z) : runInfo :=
  {| run := [(1, mkGlyph (Some face1) 36 64 64 black 2);
             (0, mkGlyph (Some face1) 36 0 0 black 0)];
     dx := adv; dy := 0; embeddingLevel := 0; linebreak := lb;
     r_font := Some face1; space := false; shy := false; ascender := 640;
     descender := -128; r_links := [] |}.

(** The letter "a" and the object replacement character, each as a
    text of its own. *)
Definition view_a : LayoutDataView :=
  mkView [97%Z] (AttributeIndex_all (attr_of "en")) [0%Z].
Definition view_picture : LayoutDataView :=
  set_linebreaks (mkView [65532%Z] (AttributeIndex_all attr_picture) [0%Z])
                 [LINEBREAK_MUSTBREAK].

Definition two_words : list runInfo :=
  [word_run 3200 LINEBREAK_NOBREAK; space_run 640 LINEBREAK_ALLOWBREAK;
   word_run 3200 LINEBREAK_MUSTBREAK].
Definition shadowed : list runInfo := [shadow_run 640 LINEBREAK_MUSTBREAK].

Definition start_state (runs : list runInfo) : breaker_state :=
  {| b_runs := runs; b_runstart := 0; b_ypos := 0; b_layout := emptyLayout;
     firstline := true |}.
Definition after_first_turn : breaker_state :=
  Eval vm_compute in
    match breakLines_iter (F := zfloat) (column 6400) (props ALG_LEFT false)
            (start_state two_words) with
    | Ret st => st
    | _ => start_state []
    end.

(** The optimizer's entry for the start of the paragraph, and the line
    over all of [two_words] that ends the paragraph. *)
Definition entry0 : lineinfo (F := zfloat) :=
  {| from := 0; demerits := of_int (FloatOps := zfloat) 0; li_ascend := 0;
     li_descend := 0; li_width := 0; li_spaces := 0; li_ypos := 0;
     li_forcebreak := false; linetype := 0; hypen := false; start := true |}.
Definition closing_line : lineinfo (F := zfloat) :=
  Eval vm_compute in
    match eval_start (F := zfloat) two_words (column 64000) (props ALG_LEFT true)
            entry0 3 1 with
    | Ret (Cand e) => e
    | _ => entry0
    end.

End Sample.


(** ** Vocabulary of the further properties *)

(** [v'] is [v] with hyphenation marks added: nothing else differs, no
    mark inside the view is lost, and the mask is the old one or has the
    size of the view. *)
Definition marks_added (v v' : LayoutDataView) : Prop :=
  txt32 v' = txt32 v ∧ idx v' = idx v ∧ linebreaks v' = linebreaks v ∧
  attr v' = attr v ∧ embeddingLevels v' = embeddingLevels v ∧
  (hyphens v' = hyphens v ∨ length (hyphens v') = length (idx v)) ∧
  ∀ i, i < length (idx v) → hyp v i = true → hyp v' i = true.


(** The rectangles filed under the url [u], in order. *)
Definition areas_of (u : string) (ls : list LinkInformation_c) : list Rectangle_c :=
  flat_map areas (filter (λ l, url l = u) ls).


(** The sum of a list of advances. *)
Definition Zsum (l : list Z) : Z := foldr Z.add 0%Z l.

(** What one glyph adds to the advance of its run: its own advance, or
    the right edge of the inline object its cluster stands for. *)
Definition text_advance (view : LayoutDataView) (g : glyph) : Z :=
  match att_checked view (g_cluster g) with
  | Ret a => match a_inlay a with Some _ => 0%Z | None => x_advance g end
  | _ => 0%Z
  end.
Definition inlay_advance (view : LayoutDataView) (g : glyph) : Z :=
  match att_checked view (g_cluster g) with
  | Ret a => match a_inlay a with Some obj => layout_right obj | None => 0%Z end
  | _ => 0%Z
  end.
Definition glyph_advance (view : LayoutDataView) (g : glyph) : Z :=
  (text_advance view g + inlay_advance view g)%Z.


(** A line never rises above its top and never ends above its
    baseline. *)
Definition upright (c : line_acc) : Prop :=
  (0 ≤ curAscend c)%Z ∧ (curDescend c ≤ 0)%Z.


(** What the run [j] adds to the width of a line that ends before [s2]
    as the optimizing breaker measures it. *)
Definition measured_advance (runs : list runInfo) (s2 j : nat) : Z :=
  match runs !! j with
  | Some r =>
      if negb (shy r) || Nat.eqb (S j) s2 then
        if space r then ((dx r * 9) `quot` 10)%Z else dx r
      else 0%Z
  | None => 0%Z
  end.

(** Every entry but a start of a sub-paragraph points to an entry in
    front of it. *)
Definition backlinks {F : FloatOps} (li : list lineinfo) : Prop :=
  ∀ k e, li !! k = Some e → start e = true ∨ from e < k.


(** ** The XHTML front end: [normalizeHTML]

    From [layouterXHTML.cpp].  A [std::string] is a list of [char]
    values. *)

Definition CH_LF : Z := 10.
Definition CH_CR : Z := 13.
Definition CH_BLANK : Z := 32.

(** [if (a == '\n' || a == '\r') a = ' ';] *)
Definition blanked (a : Z) : Z :=
  if (a =? CH_LF)%Z || (a =? CH_CR)%Z then CH_BLANK else a.

(** The body of [for (auto a : in)], on [out] and [prev]. *)
Definition normalize_step (st : list Z * Z) (a : Z) : list Z * Z :=
  let a := blanked a in
  ((if negb (a =? CH_BLANK)%Z || negb (st.2 =? CH_BLANK)%Z then st.1 ++ [a] else st.1), a).

Definition normalizeHTML (inp : list Z) (prev : Z) : list Z :=
  (foldl normalize_step ([], prev) inp).1.

(** The characters [normalizeHTML] treats as white space. *)
Definition is_white (a : Z) : bool :=
  (a =? CH_LF)%Z || (a =? CH_CR)%Z || (a =? CH_BLANK)%Z.


(** ** The SDL back end: [spanner]

    From [layouterSDL.cpp].  The pixel memory of the surface is a list
    of 32-bit pixels, and a [uint32_t*] is the index of the pixel it
    points at, counted from the start of that memory: pointer arithmetic
    is arithmetic on indices, and reading or writing through a pointer
    outside of the memory is undefined. *)

Module SDL.

(** [FT_Span]: [short x; unsigned short len; unsigned char coverage]. *)
Record FT_Span := { x : Z; len : Z; coverage : Z }.

Record spanInfo := {
  pixels : Z;
  first_pixel : Z;
  last_pixel : Z;
  pitch : Z;
  rshift : Z;
  gshift : Z;
  bshift : Z;
  ashift : Z;
  c : color_c
}.

(** Conversion to [uint8_t] and to [uint32_t]. *)
Definition uint8 (v : Z) : Z := v mod 256.
Definition uint32 (v : Z) : Z := v mod 2 ^ 32.

(** [uint8_t alpha = (spans[i].coverage * baton->c.a()) / 255;] *)
Definition alpha_of (b : spanInfo) (s : FT_Span) : Z :=
  uint8 ((coverage s * col_a (c b)) `quot` 255).

(** [uint8_t pr = *start >> baton->rshift;] *)
Definition channel (px shift : Z) : Z := uint8 (Z.shiftr px shift).

(** [pr = ((255-alpha)*pr + (alpha*baton->c.r()))/255;] *)
Definition blend (alpha p col : Z) : Z :=
  uint8 (((255 - alpha) * p + alpha * col) `quot` 255).

(** The new value of the pixel [px].  The shifts are made on [int] and
    their union is converted to [uint32_t]; a channel at bit 24 whose top
    bit is set leaves the range of [int], where the value is taken to
    wrap around. *)
Definition blend_pixel (b : spanInfo) (alpha px : Z) : Z :=
  let pr := blend alpha (channel px (rshift b)) (col_r (c b)) in
  let pg := blend alpha (channel px (gshift b)) (col_g (c b)) in
  let pb := blend alpha (channel px (bshift b)) (col_b (c b)) in
  uint32 (Z.lor (Z.lor (Z.shiftl pr (rshift b)) (Z.shiftl pg (gshift b)))
                (Z.shiftl pb (bshift b))).

(** [*start] *)
Definition deref (mem : list Z) (p : Z) : res Z :=
  if (p <? 0)%Z then Fault else at_ mem (Z.to_nat p).

(** [for (int x = 0; x < spans[i].len; x++)]; the flag tells that the
    loop left the function. *)
Fixpoint pixel_loop (b : spanInfo) (alpha : Z) (n : nat) (start : Z) (mem : list Z)
  : res (list Z * bool) :=
  match n with
  | O => Ret (mem, false)
  | S n' =>
      px ← deref mem start;
      let mem' := <[Z.to_nat start := blend_pixel b alpha px]> mem in
      if (start + 1 >=? last_pixel b)%Z then Ret (mem', true)
      else pixel_loop b alpha n' (start + 1) mem'
  end.

(** [for (int i = 0; i < count; i++)] *)
Fixpoint span_loop (b : spanInfo) (scanline : Z) (spans : list FT_Span) (mem : list Z)
  : res (list Z) :=
  match spans with
  | [] => Ret mem
  | s :: rest =>
      let start := (scanline + x s)%Z in
      if (start + len s >=? last_pixel b)%Z then Ret mem
      else
        '(mem', gone) ← pixel_loop b (alpha_of b s) (Z.to_nat (len s)) start mem;
        if (gone : bool) then Ret mem' else span_loop b scanline rest mem'
  end.

Definition spanner (y : Z) (spans : list FT_Span) (b : spanInfo) (mem : list Z)
  : res (list Z) :=
  let scanline := (pixels b - y * pitch b)%Z in
  if (scanline >=? first_pixel b)%Z then span_loop b scanline spans mem
  else Ret mem.

(** The three colour channels lie inside the pixel and do not overlap. *)
Definition channels_apart (b : spanInfo) : Prop :=
  (0 ≤ rshift b ≤ 24 ∧ 0 ≤ gshift b ≤ 24 ∧ 0 ≤ bshift b ≤ 24)%Z ∧
  (8 ≤ Z.abs (rshift b - gshift b) ∧ 8 ≤ Z.abs (rshift b - bshift b)
   ∧ 8 ≤ Z.abs (gshift b - bshift b))%Z.

(** A value of [uint8_t]. *)
Definition is_uint8 (v : Z) : Prop := (0 ≤ v ≤ 255)%Z.

End SDL.


(** ** Inputs for the further properties *)

Module Cases.

(** The value a computation returned, [d] when it did not return. *)
Definition returned {A} (d : A) (r : res A) : A :=
  match r with Ret a => a | _ => d end.

(** "xabc" in German with its break classes, and after hyphenation with
    a German dictionary. *)
Definition broken_de : LayoutDataView :=
  returned Sample.view_de (getLinebreaks (Sample.lib "de") Sample.view_de).
Definition hyphenated_de : LayoutDataView :=
  returned broken_de (getHyphens (Sample.lib "de") broken_de).

(** Two links of a line and one of the layout that shares a url with the
    first of them. *)
Definition link_a : LinkInformation_c :=
  {| url := "a"; areas := [{| rx := 0; ry := 0; rw := 640; rh := 640 |}] |}.
Definition link_b : LinkInformation_c :=
  {| url := "b"; areas := [{| rx := 640; ry := 0; rw := 640; rh := 640 |}] |}.

(** Levels of five runs: the three in the middle are right-to-left. *)
Definition middle_rtl (r : nat) : Z := if bool_decide (1 ≤ r ≤ 3) then 1%Z else 0%Z.

(** The glyphs and the run of the letter "a". *)
Definition glyphs_a : list glyph :=
  returned [] (run_glyphs (Sample.lib "en") Sample.view_a 1 0 (Some Sample.face1)).
Definition run_a : runInfo :=
  returned (Sample.word_run 0 0)
    (createRun (Sample.lib "en") Sample.view_a 1 0 (Sample.props ALG_LEFT false)
               (Some Sample.face1)).
Definition hyphen_run : runInfo :=
  returned (Sample.word_run 0 0)
    (createRun (Sample.lib "en") (shy_view Sample.view_a 0) 1 0
               (Sample.props ALG_LEFT false) (Some Sample.face1)).
Definition runs_a : list runInfo :=
  returned [] (createTextRuns (Sample.lib "en") Sample.view_a (Sample.props ALG_LEFT false)).

(** The first line of "word blank word" in a column that holds it all,
    and the paragraph broken greedily in a column that holds one word. *)
Definition first_line : list runInfo * TextLayout_c :=
  returned ([], emptyLayout)
    (addLine (F := Sample.zfloat) 0 3 Sample.two_words emptyLayout 640 7040 0 64000 3 1
             (Sample.props ALG_LEFT false)).
Definition two_lines : TextLayout_c :=
  returned emptyLayout
    (breakLines (F := Sample.zfloat) Sample.two_words (Sample.column 6400)
                (Sample.props ALG_LEFT false) 7).

(** A surface of four rows of four pixels, red above green above blue,
    an opaque colour, and a span of two pixels at full coverage. *)
Definition surface : list Z := replicate 16 0xFFFFFFFF%Z.
Definition ink : color_c := {| col_r := 10; col_g := 20; col_b := 30; col_a := 255 |}.
Definition baton : SDL.spanInfo :=
  {| SDL.pixels := 5; SDL.first_pixel := 0; SDL.last_pixel := 16; SDL.pitch := 4;
     SDL.rshift := 16; SDL.gshift := 8; SDL.bshift := 0; SDL.ashift := 24;
     SDL.c := ink |}.
Definition full_span : SDL.FT_Span := {| SDL.x := 1; SDL.len := 2; SDL.coverage := 255 |}.
Definition left_span : SDL.FT_Span := {| SDL.x := -2; SDL.len := 1; SDL.coverage := 255 |}.

(** A justified line over "word blank word" with 1000 units to spare,
    and the line over the one word with a shadow. *)
Definition justified_line : list runInfo * TextLayout_c :=
  returned ([], emptyLayout)
    (addLine (F := Sample.zfloat) 0 3 Sample.two_words emptyLayout 640 7040 0 8040 0 1
             (Sample.props ALG_JUSTIFY_LEFT false)).
Definition shadow_line : list runInfo * TextLayout_c :=
  returned ([], emptyLayout)
    (addLine (F := Sample.zfloat) 0 1 Sample.shadowed emptyLayout 640 640 0 6400 3 0
             (Sample.props ALG_LEFT false)).

(** A decoder for UTF-8 sequences of one and two bytes. *)
Fixpoint utf8_decode (s : list Z) : list Z :=
  match s with
  | [] => []
  | b :: rest =>
      if (b <? 128)%Z then b :: utf8_decode rest
      else match rest with
           | b2 :: rest' => ((b mod 32) * 64 + b2 mod 64)%Z :: utf8_decode rest'
           | [] => []
           end
  end.

End Cases.


(** ** Vocabulary of the placement of a line *)

(** The width the runs [pre] take up on a line that ends before
    [spos], and the number of blanks among them: a soft hyphen inside
    the line takes up nothing, a blank nine tenths of its advance when
    the line asks for small spaces. *)
Definition placed_width (spos : nat) (lineflags : Z) (runs : list runInfo)
    (pre : list nat) : Z :=
  Zsum ((λ ri, match runs !! ri with
               | Some r =>
                   if negb (shy r) || Nat.eqb (S ri) spos then
                     if space r && has_flag lineflags LF_SMALL_SPACE
                     then ((9 * dx r) `quot` 10)%Z else dx r
                   else 0%Z
               | None => 0%Z
               end) <$> pre).
Definition placed_spaces (spos : nat) (runs : list runInfo) (pre : list nat) : Z :=
  Zsum ((λ ri, match runs !! ri with
               | Some r =>
                   if (negb (shy r) || Nat.eqb (S ri) spos) && space r then 1%Z else 0%Z
               | None => 0%Z
               end) <$> pre).

(** The command [cc'] is the command [cc] of a run put on its line:
    moved right by [off] and down by [ypos]; in a blank only a rectangle
    is moved, and it is made wider by [spaceadder]. *)
Definition placed {F : FloatOps} (is_space : bool) (spaceadder off : fl) (ypos : Z)
    (cc cc' : nat * CommandData_c) : Prop :=
  cc'.1 = cc.1 ∧ command cc'.2 = command cc.2 ∧ h cc'.2 = h cc.2 ∧
  glyphIndex cc'.2 = glyphIndex cc.2 ∧ font cc'.2 = font cc.2 ∧ c cc'.2 = c cc.2 ∧
  blurr cc'.2 = blurr cc.2 ∧
  if is_space then
    match command cc.2 with
    | CMD_RECT =>
        x cc'.2 = to_int (fadd (of_int (x cc.2)) off) ∧ y cc'.2 = (y cc.2 + ypos)%Z ∧
        w cc'.2 = to_int (fadd (of_int (w cc.2)) spaceadder)
    | _ => x cc'.2 = x cc.2 ∧ y cc'.2 = y cc.2 ∧ w cc'.2 = w cc.2
    end
  else
    x cc'.2 = to_int (fadd (of_int (x cc.2)) off) ∧ y cc'.2 = (y cc.2 + ypos)%Z ∧
    w cc'.2 = w cc.2.


(** ** The XHTML front end: the text of a paragraph

    From [layoutXML_text] in [layouterXHTML.cpp]: what the function does
    to [txt] for one text node.  [u8_convertToU32], from [utf-8.h], is
    a parameter. *)

(** [char prev = txt[txt.length()-1]]: the [char32_t] is converted to
    [char], which keeps its low eight bits. *)
Definition to_char (ch : Z) : Z := ((ch + 128) mod 256 - 128)%Z.

(** [if (txt.length() == 0) txt = u8_convertToU32(normalizeHTML(i.value(), ' '));
     else txt += u8_convertToU32(normalizeHTML(i.value(), txt[txt.length()-1]));] *)
Definition add_text (u8_convertToU32 : list Z → list Z) (txt value : list Z) : list Z :=
  if Nat.eqb (length txt) 0 then u8_convertToU32 (normalizeHTML value CH_BLANK)
  else txt ++ u8_convertToU32
                (normalizeHTML value (to_char (nth (length txt - 1) txt 0%Z))).

(** A character of the 7-bit range, where UTF-8 and UTF-32 agree. *)
Definition is_ascii (ch : Z) : Prop := (0 ≤ ch < 128)%Z.


(** A node of the document as [layoutXML_text] tells nodes apart: a
    text node with its value, an element with its name and its
    children, or a node of another kind. *)
#[warnings="-register-all"]
Inductive xml_node :=
| node_pcdata (value : list Z)
| node_element (name : string) (children : list xml_node)
| node_other.

(** [(std::string("i") == i.name()) || (std::string("div") == i.name())] *)
Definition text_element (name : string) : bool :=
  String.eqb "i" name || String.eqb "div" name.

(** [layoutXML_text], as far as [txt] goes; the attributes it files for
    every text node do not bear on the text and are left out. *)
Fixpoint layoutXML_text (u8_convertToU32 : list Z → list Z) (xml : xml_node)
    (txt : list Z) : list Z :=
  match xml with
  | node_element _ children =>
      (fix loop (l : list xml_node) (txt : list Z) : list Z :=
         match l with
         | [] => txt
         | i :: l' =>
             loop l'
               (match i with
                | node_pcdata value => add_text u8_convertToU32 txt value
                | node_element name _ =>
                    if text_element name
                    then layoutXML_text u8_convertToU32 i txt
                    else txt
                | node_other => txt
                end)
         end) children txt
  | _ => txt
  end.

(** The values of the text nodes [layoutXML_text] comes by, in its
    order. *)
Fixpoint text_values (xml : xml_node) : list (list Z) :=
  match xml with
  | node_element _ children =>
      (fix loop (l : list xml_node) : list (list Z) :=
         match l with
         | [] => []
         | i :: l' =>
             (match i with
              | node_pcdata value => [value]
              | node_element name _ =>
                  if text_element name then text_values i else []
              | node_other => []
              end) ++ loop l'
         end) children
  | _ => []
  end.


Module Page.

(** The paragraph "a " followed by " b" in italics. *)
Definition paragraph : xml_node :=
  node_element "p" [node_pcdata [97; 32]%Z;
                    node_element "i" [node_pcdata [32; 98]%Z]].

End Page.


(** * Part II: properties of the embedded program *)

(** *** The index map *)

Lemma view_loop_idx t : ∀ i tx ix, (view_loop t i tx ix).2 = ix ++ kept t i.
Proof.
  induction t as [|ch t IH]; intros i tx ix; simpl.
  - by rewrite app_nil_r.
  - destruct (isBidiCharacter ch); simpl; rewrite IH; [done|].
    by rewrite <- app_assoc.
Qed.

Lemma view_loop_txt t : ∀ i tx ix,
  (view_loop t i tx ix).1 = tx ++ filter (λ ch, isBidiCharacter ch = false) t.
Proof.
  induction t as [|ch t IH]; intros i tx ix; simpl.
  - by rewrite app_nil_r.
  - destruct (isBidiCharacter ch) eqn:E; simpl; rewrite IH.
    + rewrite filter_cons_False; [done|]. congruence.
    + rewrite filter_cons_True by done. by rewrite <- app_assoc.
Qed.

Lemma view_loop_length t : ∀ i tx ix,
  length tx = length ix →
  length (view_loop t i tx ix).1 = length (view_loop t i tx ix).2.
Proof.
  induction t as [|ch t IH]; intros i tx ix E; simpl; [done|].
  destruct (isBidiCharacter ch); simpl; apply IH;
    rewrite ?length_app; simpl; lia.
Qed.

Lemma kept_elem t : ∀ i p,
  p ∈ kept t i ↔ i ≤ p ∧ ∃ ch, t !! (p - i) = Some ch ∧ isBidiCharacter ch = false.
Proof.
  induction t as [|ch t IH]; intros i p; simpl.
  - split; [by intros ?%elem_of_nil|]. by intros (_ & ? & ? & _).
  - destruct (isBidiCharacter ch) eqn:E.
    + rewrite IH. split.
      * intros (Hle & c' & Hl & Hc). split; [lia|]. exists c'. split; [|done].
        replace (p - i) with (S (p - S i)) by lia. done.
      * intros (Hle & c' & Hl & Hc).
        destruct (decide (p = i)) as [->|Hne].
        { rewrite Nat.sub_diag in Hl. simpl in Hl. congruence. }
        split; [lia|]. exists c'. split; [|done].
        replace (p - i) with (S (p - S i)) in Hl by lia. done.
    + rewrite elem_of_cons, IH. split.
      * intros [->|(Hle & c' & Hl & Hc)].
        { split; [lia|]. exists ch. rewrite Nat.sub_diag. done. }
        split; [lia|]. exists c'. split; [|done].
        replace (p - i) with (S (p - S i)) by lia. done.
      * intros (Hle & c' & Hl & Hc).
        destruct (decide (p = i)) as [->|Hne]; [by left|right].
        split; [lia|]. exists c'. split; [|done].
        replace (p - i) with (S (p - S i)) in Hl by lia. done.
Qed.

Lemma kept_sorted t : ∀ i, StronglySorted lt (kept t i).
Proof.
  induction t as [|ch t IH]; intros i; simpl; [constructor|].
  destruct (isBidiCharacter ch); [apply IH|].
  constructor; [apply IH|].
  apply Forall_forall. intros p Hp%kept_elem. lia.
Qed.

Lemma sorted_lookup {A} (R : relation A) (l : list A) :
  StronglySorted R l →
  ∀ i j a b, l !! i = Some a → l !! j = Some b → i < j → R a b.
Proof.
  induction 1 as [|a0 l Hs IH Hall]; intros i j a b Hi Hj Hij; [done|].
  destruct j as [|j]; [lia|]. simpl in Hj.
  destruct i as [|i]; simpl in Hi.
  - injection Hi as <-. rewrite Forall_forall in Hall.
    apply Hall. by eapply list_elem_of_lookup_2.
  - eapply IH; eauto. lia.
Qed.

Lemma isBidiCharacter_spec ch :
  isBidiCharacter ch = true ↔ (ch = 0x202A ∨ ch = 0x202B ∨ ch = 0x202C)%Z.
Proof. unfold isBidiCharacter. destruct (Z.eqb_spec ch 0x202A), (Z.eqb_spec ch 0x202B),
  (Z.eqb_spec ch 0x202C); simpl; split; intros; try done; try tauto; lia.
Qed.

Lemma mkView_idx t a e : idx (mkView t a e) = kept t 0.
Proof.
  unfold mkView. pose proof (view_loop_idx t 0 [] []) as H.
  destruct (view_loop t 0 [] []) as [tx ix]. simpl in *. done.
Qed.

Lemma mkView_txt t a e :
  txt32 (mkView t a e) = filter (λ ch, isBidiCharacter ch = false) t.
Proof.
  unfold mkView. pose proof (view_loop_txt t 0 [] []) as H.
  destruct (view_loop t 0 [] []) as [tx ix]. simpl in *. done.
Qed.

(** C7: the map from normalized to original positions is strictly
    increasing, stays inside the original string, and an original position
    is missing from it exactly when it holds U+202A, U+202B or U+202C. *)
Theorem idx_strictly_increasing_skips_bidi (t : list Z) (a : AttributeIndex_c) (e : list Z) :
  let v := mkView t a e in
  (∀ i j p q, idx v !! i = Some p → idx v !! j = Some q → i < j → p < q) ∧
  (∀ p ch, t !! p = Some ch →
     (p ∉ idx v ↔ (ch = 0x202A ∨ ch = 0x202B ∨ ch = 0x202C)%Z)) ∧
  (∀ p, p ∈ idx v → p < length t).
Proof.
  intros v. subst v. rewrite mkView_idx. split; [|split].
  - intros i j p q Hi Hj Hij.
    eapply (sorted_lookup _ _ (kept_sorted t 0)); eauto.
  - intros p ch Hp. rewrite <- isBidiCharacter_spec, kept_elem.
    rewrite Nat.sub_0_r. split.
    + intros Hn. destruct (isBidiCharacter ch) eqn:E; [done|].
      exfalso. apply Hn. split; [lia|]. by exists ch.
    + intros Hb (_ & c' & Hl & Hc). congruence.
  - intros p (_ & ch & Hl & _)%kept_elem. rewrite Nat.sub_0_r in Hl.
    by apply lookup_lt_Some in Hl.
Qed.

(** *** Hyphenation analysis *)

(** C1: at the section that starts at position 1 of "x" (English) + "abc"
    (German) the code reads the language of position 0: the dictionary is
    asked for "en" although the section is German, the section ends after
    one codepoint although the next one is German too, and with only a
    German dictionary installed nothing is hyphenated, while the same
    text marked German throughout gets its hyphenation point. *)
Theorem getHyphens_reads_language_of_position_0 :
  a_lang (att Sample.view_en_de 1) = "de"%string ∧
  curLang Sample.view_en_de 1 = "en"%string ∧
  section_end Sample.view_en_de 1 = 2 ∧
  a_lang (att Sample.view_en_de 2) = "de"%string ∧
  getHyphens (Sample.lib "de") Sample.view_en_de = Ret Sample.view_en_de ∧
  hyphens Sample.view_en_de = [] ∧
  ∃ v, getHyphens (Sample.lib "de") Sample.view_de = Ret v ∧
       hyphens v = [false; true; false; false].
Proof.
  repeat split; try reflexivity.
  eexists. split; [vm_compute; reflexivity|reflexivity].
Qed.

(** C2: in "abcd", blank, "xy" + soft hyphen, the section that starts at
    position 5 holds one word, positions 5 to 7, and the user's soft
    hyphen sits at position 7 of it; the test for a soft hyphen and the
    word handed to the hyphenator are taken from position 0 of the text
    instead of position 5: "abc" is tested and hyphenated, and position
    6, inside the word with the soft hyphen, is marked. *)
Theorem getHyphens_marks_word_with_user_shy :
  section_end Sample.view_user_shy 5 = 8 ∧
  section_breaks (Sample.lib "en") Sample.view_user_shy 5 8
    = [WORDBREAK_NOBREAK; WORDBREAK_NOBREAK; WORDBREAK_BREAK;
       WORDBREAK_BREAK; WORDBREAK_BREAK] ∧
  txt Sample.view_user_shy 7 = U_SHY ∧
  find_first_of (txt32 Sample.view_user_shy) U_SHY 0 = Some 7 ∧
  substr (txt32 Sample.view_user_shy) 0 3 = Ret [97; 98; 99]%Z ∧
  ∃ v, getHyphens (Sample.lib "en") Sample.view_user_shy = Ret v ∧
       hyphens v = [false; true; false; false; false; false; true; false] ∧
       hyp v 6 = true.
Proof.
  repeat split; try reflexivity.
  eexists. split; [vm_compute; reflexivity|]. split; reflexivity.
Qed.

(** *** The optimizing line breaker *)

Section OptimizerFacts.
Context {F : FloatOps}.

(** C6: for a line that ends at a MUSTBREAK run or at the end of the
    run list, the demerits of the line itself are 0 when the line is
    wider than a third of the column at its height and 100000
    otherwise, whatever badness and line type say; the predecessor's
    demerits are added to that, and the break is marked forced. *)
Theorem forced_end_overrides_demerits (runs : list runInfo) (shape : Shape_c)
    (prop : LayoutProperties_c) (prev e : lineinfo) (i st : nat) :
  at_forced_end runs i = Ret true →
  eval_start runs shape prop prev i st = Ret (Cand e) →
  let top := li_ypos prev in
  let bottom := (top + li_ascend e - li_descend e)%Z in
  let column := (getRight shape top bottom - getLeft shape top bottom)%Z in
  demerits e = fadd (if (column `quot` 3 <? li_width e)%Z then of_int 0
                     else of_int 100000)
                    (demerits prev) ∧
  li_forcebreak e = true.
Proof.
  intros Hend Hev. unfold eval_start in Hev.
  destruct (skip_fwd runs (length runs) (st - 1)) as [s1| | |]; try discriminate.
  destruct (skip_bwd runs i) as [s2| | |]; try discriminate.
  simpl in Hev.
  destruct (measure_loop _ _ _ _) as [m| | |]; try discriminate.
  simpl in Hev.
  destruct (_ <? _)%Z; try discriminate.
  destruct (at_ runs (s2 - 1)) as [last| | |]; try discriminate.
  simpl in Hev. rewrite Hend in Hev. simpl in Hev.
  injection Hev as <-. simpl. done.
Qed.

End OptimizerFacts.

(** *** The greedy line breaker *)

(** Case analysis on the calls a monadic definition is made of. *)
Ltac res_step H :=
  match type of H with
  | context [match ?m with Ret _ => _ | Throw _ => _ | Fault => _ | OutOfFuel => _ end] =>
      lazymatch m with
      | context [match _ with Ret _ => _ | Throw _ => _ | Fault => _ | OutOfFuel => _ end] =>
          fail
      | _ => let E := fresh "E" in destruct m eqn:E
      end
  end; simpl in H; try discriminate H.
Ltac res_outer H :=
  unfold mbind, mret, res_bind, res_ret in H;
  match type of H with
  | match ?m with Ret _ => _ | Throw _ => _ | Fault => _ | OutOfFuel => _ end = _ =>
      let E := fresh "E" in destruct m eqn:E
  end; simpl in H; try discriminate H.
Ltac res_inv H := unfold mbind, mret, res_bind, res_ret in H; simpl in H; repeat res_step H.

Lemma scan_from_ge p n pos : pos ≤ scan_from p n pos.
Proof.
  revert pos. induction n as [|n IH]; intros pos; simpl; [lia|].
  destruct (p pos); [|lia]. specialize (IH (S pos)). lia.
Qed.

Lemma scan_from_le p n pos : scan_from p n pos ≤ pos + n.
Proof.
  revert pos. induction n as [|n IH]; intros pos; simpl; [lia|].
  destruct (p pos); [|lia]. specialize (IH (S pos)). lia.
Qed.

Lemma scan_from_stop p n pos :
  scan_from p n pos < pos + n → p (scan_from p n pos) = false.
Proof.
  revert pos. induction n as [|n IH]; intros pos; simpl; [lia|].
  destruct (p pos) eqn:E; [|done]. intros H. apply IH. lia.
Qed.

Lemma extend_spos_ge runs n : ∀ c, l_spos c ≤ l_spos (extend runs n c).
Proof.
  induction n as [|n IH]; intros c; simpl; [lia|].
  destruct (runs !! l_spos c) as [r|]; [|lia].
  destruct (break_after runs (l_spos c)); simpl; [lia|].
  etransitivity; [|apply IH]. simpl. lia.
Qed.

Lemma candidate_spos_gt runs cur : l_spos cur < l_spos (candidate runs cur).
Proof.
  unfold candidate. simpl.
  pose proof (extend_spos_ge runs (length runs - l_spos cur) cur). lia.
Qed.

Lemma at_lookup {A} (v : list A) i a : at_ v i = Ret a ↔ v !! i = Some a.
Proof. unfold at_. destruct (v !! i); split; intros; congruence. Qed.

Lemma at_in_range {A} (v : list A) i : i < length v → ∃ a, at_ v i = Ret a.
Proof.
  intros [a Ha]%lookup_lt_is_Some_2. exists a. by apply at_lookup.
Qed.

Lemma at_not_fuel {A} (v : list A) i : at_ v i ≠ OutOfFuel.
Proof. unfold at_. by destruct (v !! i). Qed.



Lemma try_extend_not_fuel runs shape ypos runstart cur :
  try_extend runs shape ypos runstart cur ≠ OutOfFuel.
Proof.
  unfold try_extend. intros H.
  destruct (bool_decide (runstart < l_spos cur) && overruns shape ypos (candidate runs cur));
    [discriminate|].
  destruct (bool_decide (runstart < l_spos cur)); res_inv H;
    eapply at_not_fuel; eauto.
Qed.

Lemma try_extend_commit_spos runs shape ypos runstart cur c fb :
  try_extend runs shape ypos runstart cur = Ret (Commit c fb) →
  l_spos cur < l_spos c.
Proof.
  unfold try_extend. intros H.
  pose proof (candidate_spos_gt runs cur) as Hgt.
  destruct (bool_decide (runstart < l_spos cur) && overruns shape ypos (candidate runs cur));
    [discriminate|].
  unfold candidate in Hgt; simpl in Hgt.
  destruct (bool_decide (runstart < l_spos cur)); res_inv H;
    injection H as <- _; simpl; lia.
Qed.

Lemma try_extend_empty_line runs shape ypos runstart cur :
  l_spos cur = runstart →
  try_extend runs shape ypos runstart cur ≠ Ret Overrun.
Proof.
  intros Heq H. unfold try_extend in H.
  rewrite bool_decide_eq_false_2 in H by lia. simpl in H. res_inv H.
Qed.

Lemma fill_line_not_fuel fuel runs shape ypos runstart : ∀ cur,
  length runs - l_spos cur ≤ fuel →
  fill_line fuel runs shape ypos runstart cur ≠ OutOfFuel.
Proof.
  induction fuel as [|fuel IH]; intros cur Hf; simpl.
  - rewrite bool_decide_eq_false_2 by lia. done.
  - case_bool_decide as Hlt; [|done].
    destruct (try_extend runs shape ypos runstart cur) as [s| | |] eqn:E; simpl; try done.
    + destruct s as [|c' [|]]; try done.
      apply IH. apply try_extend_commit_spos in E. lia.
    + by apply try_extend_not_fuel in E.
Qed.

Lemma fill_line_spos_ge fuel runs shape ypos runstart : ∀ cur c fb,
  fill_line fuel runs shape ypos runstart cur = Ret (c, fb) →
  l_spos cur ≤ l_spos c.
Proof.
  induction fuel as [|fuel IH]; intros cur c fb; simpl.
  - case_bool_decide; [done|]. intros [= <- _]. lia.
  - case_bool_decide as Hlt; [|intros [= <- _]; lia].
    destruct (try_extend runs shape ypos runstart cur) as [s| | |] eqn:E; simpl; try done.
    destruct s as [|c' [|]].
    + intros [= <- _]. lia.
    + intros [= <- _]. apply try_extend_commit_spos in E. lia.
    + intros H%IH. apply try_extend_commit_spos in E. lia.
Qed.

Lemma fill_line_progress fuel runs shape ypos cur c fb :
  l_spos cur < length runs →
  fill_line fuel runs shape ypos (l_spos cur) cur = Ret (c, fb) →
  l_spos cur < l_spos c.
Proof.
  intros Hlt. destruct fuel as [|fuel]; simpl.
  - by rewrite bool_decide_eq_true_2.
  - rewrite bool_decide_eq_true_2 by done.
    destruct (try_extend runs shape ypos (l_spos cur) cur) as [s| | |] eqn:E; simpl; try done.
    destruct s as [|c' [|]].
    + by apply try_extend_empty_line in E.
    + intros [= <- _]. by apply try_extend_commit_spos in E.
    + intros H%fill_line_spos_ge. apply try_extend_commit_spos in E. lia.
Qed.

Section GreedyFacts.
Context {F : FloatOps}.

Lemma place_loop_length spos ypos lineflags sa order :
  ∀ runs txl xpos2 ns runs' txl',
  place_loop spos ypos lineflags sa order runs txl xpos2 ns = Ret (runs', txl') →
  length runs' = length runs.
Proof.
  induction order as [|ri order IH]; intros runs txl xpos2 ns runs' txl' H; simpl in H.
  - by injection H as <- _.
  - res_inv H.
    match type of H with (if ?b then _ else _) = _ => destruct b end.
    + apply IH in H. by rewrite length_insert in H.
    + by apply IH in H.
Qed.

Lemma place_loop_not_fuel spos ypos lineflags sa order :
  ∀ runs txl xpos2 ns,
  place_loop spos ypos lineflags sa order runs txl xpos2 ns ≠ OutOfFuel.
Proof.
  induction order as [|ri order IH]; intros runs txl xpos2 ns H; simpl in H; [done|].
  res_inv H.
  - match type of H with (if ?b then _ else _) = _ => destruct b end;
      by apply IH in H.
  - by apply at_not_fuel in E.
Qed.

Lemma run_levels_not_fuel runs order : run_levels runs order ≠ OutOfFuel.
Proof.
  induction order as [|ri order IH]; intros H; simpl in H; [done|].
  res_inv H; [done|]. by apply at_not_fuel in E.
Qed.

Lemma addLine_length runstart spos runs l ypos cw left right lf ns prop runs' l' :
  addLine runstart spos runs l ypos cw left right lf ns prop = Ret (runs', l') →
  length runs' = length runs.
Proof.
  unfold addLine. intros H. case_bool_decide; [done|].
  destruct (line_start prop left (right - left - cw) lf ns) as [xpos sa].
  res_inv H. destruct a0 as [r t]. injection H as <- _.
  by eapply place_loop_length.
Qed.

Lemma addLine_not_fuel runstart spos runs l ypos cw left right lf ns prop :
  addLine runstart spos runs l ypos cw left right lf ns prop ≠ OutOfFuel.
Proof.
  unfold addLine. intros H. case_bool_decide; [done|].
  destruct (line_start prop left (right - left - cw) lf ns) as [xpos sa].
  res_inv H.
  - by destruct a0.
  - by apply place_loop_not_fuel in E0.
  - by apply run_levels_not_fuel in E.
Qed.

Lemma breakLines_iter_progress shape prop st st' :
  b_runstart st < length (b_runs st) →
  breakLines_iter shape prop st = Ret st' →
  b_runstart st < b_runstart st' ∧ length (b_runs st') = length (b_runs st).
Proof.
  intros Hlt H. unfold breakLines_iter in H.
  set (runs := b_runs st) in *.
  set (runstart := scan_while _ _ _) in *.
  assert (b_runstart st ≤ runstart) as Hge by apply scan_from_ge.
  res_inv H. destruct a as [cur force]. res_inv H. destruct a as [runs' l'].
  injection H as <-. simpl. split.
  - destruct (decide (runstart < length runs)) as [Hin|Hout].
    + apply (fill_line_progress _ _ _ _
               {| curAscend := 0; curDescend := 0; curWidth := _;
                  l_spos := runstart; numSpace := 0 |}) in E; simpl in *; lia.
    + apply fill_line_spos_ge in E. simpl in E. lia.
  - by eapply addLine_length.
Qed.

Lemma breakLines_iter_not_fuel shape prop st :
  breakLines_iter shape prop st ≠ OutOfFuel.
Proof.
  intros H. unfold breakLines_iter in H. res_inv H.
  - destruct a as [cur force]. res_inv H.
    + by destruct a.
    + by apply addLine_not_fuel in E0.
  - apply fill_line_not_fuel in E; [done|]. simpl. lia.
Qed.

Lemma breakLines_loop_not_fuel shape prop fuel : ∀ st,
  length (b_runs st) - b_runstart st ≤ fuel →
  breakLines_loop fuel shape prop st ≠ OutOfFuel.
Proof.
  induction fuel as [|fuel IH]; intros st Hf; simpl.
  - rewrite bool_decide_eq_false_2 by lia. done.
  - case_bool_decide as Hlt; [|done].
    destruct (breakLines_iter shape prop st) as [st'| | |] eqn:E; simpl; try done.
    + apply IH. apply breakLines_iter_progress in E; [|done]. lia.
    + by apply breakLines_iter_not_fuel in E.
Qed.

End GreedyFacts.

(** *** The greedy breaker on run lists that end in a forced break *)

Lemma extend_finds_break runs :
  ends_with_mustbreak runs →
  ∀ n c, l_spos c + n = length runs → 0 < n →
         (∀ rl, last runs = Some rl → space rl = true → l_spos c + 2 ≤ length runs) →
         l_spos (extend runs n c) < length runs.
Proof.
  intros Hwf. induction n as [|n IH]; intros c Hn Hpos Hsp; [lia|]. simpl.
  destruct (runs !! l_spos c) as [r|] eqn:Hr; [|apply lookup_ge_None in Hr; lia].
  destruct (break_after runs (l_spos c)) eqn:Hb; [simpl; lia|].
  assert (∃ rl, last runs = Some rl) as [rl Hl].
  { rewrite last_lookup. apply lookup_lt_is_Some. lia. }
  pose proof (Hwf rl Hl) as Hmust. specialize (Hsp rl Hl).
  rewrite last_lookup in Hl.
  destruct (decide (n = 0)) as [->|Hn0].
  - replace (pred (length runs)) with (l_spos c) in Hl by lia.
    assert (r = rl) as -> by congruence.
    destruct (space rl) eqn:Hs; [specialize (Hsp eq_refl); lia|].
    unfold break_after in Hb. rewrite Hr, Hs, Hmust in Hb.
    by rewrite orb_true_r in Hb.
  - apply IH; simpl; [lia|lia|]. intros rl' Hl' Hs'.
    rewrite last_lookup in Hl'. assert (rl' = rl) as -> by congruence.
    specialize (Hsp Hs').
    destruct (decide (l_spos c + 3 ≤ length runs)); [lia|]. exfalso.
    replace (pred (length runs)) with (l_spos c + 1) in Hl by lia.
    unfold break_after in Hb. rewrite Hl, Hs', Hmust in Hb. done.
Qed.

Lemma try_extend_returns runs shape ypos runstart cur :
  ends_with_mustbreak runs →
  candidate_start runs (l_spos cur) →
  l_spos cur < length runs →
  try_extend runs shape ypos runstart cur = Ret Overrun ∨
  ∃ c' fb, try_extend runs shape ypos runstart cur = Ret (Commit c' fb) ∧
           l_spos cur < l_spos c' ≤ length runs ∧
           (fb = false → candidate_start runs (l_spos c')).
Proof.
  intros Hwf [_ Hcs] Hlt.
  assert (l_spos (extend runs (length runs - l_spos cur) cur) < length runs) as Hfound.
  { apply extend_finds_break; [done|lia|lia|]. intros rl Hl Hs.
    specialize (Hcs rl Hl Hs). lia. }
  pose proof (extend_spos_ge runs (length runs - l_spos cur) cur) as Hge.
  unfold try_extend.
  destruct (bool_decide (runstart < l_spos cur) && overruns shape ypos (candidate runs cur));
    [by left|right].
  set (wd := (if bool_decide (runstart < l_spos cur) then _ else _)).
  assert (∃ v, wd = Ret v) as [v ->].
  { subst wd. case_bool_decide; [|by eexists].
    destruct (at_in_range runs (l_spos cur - 1)) as [r ->]; [lia|]. by eexists. }
  simpl. rewrite Nat.sub_0_r.
  destruct (at_in_range runs (l_spos (extend runs (length runs - l_spos cur) cur)))
    as [rlast ->]; [done|]. simpl.
  do 2 eexists. split; [done|]. simpl. split; [lia|].
  intros Hfb. apply orb_false_iff in Hfb as [_ Hfb]. split; [lia|].
  intros rl Hl Hs Heq. rewrite last_lookup in Hl.
  replace (pred (length runs))
    with (S (l_spos (extend runs (length runs - l_spos cur) cur))) in Hl by lia.
  rewrite Hl, Hs in Hfb. rewrite (Hwf rl) in Hfb; [done|].
  rewrite last_lookup.
  by replace (pred (length runs))
    with (S (l_spos (extend runs (length runs - l_spos cur) cur))) by lia.
Qed.

Lemma fill_line_returns runs shape ypos runstart :
  ends_with_mustbreak runs →
  ∀ fuel cur,
    candidate_start runs (l_spos cur) →
    length runs - l_spos cur ≤ fuel →
    ∃ c fb, fill_line fuel runs shape ypos runstart cur = Ret (c, fb) ∧
            l_spos cur ≤ l_spos c ≤ length runs.
Proof.
  intros Hwf. induction fuel as [|fuel IH]; intros cur Hcs Hf; simpl.
  - rewrite bool_decide_eq_false_2 by lia. do 2 eexists. split; [done|].
    destruct Hcs. lia.
  - case_bool_decide as Hlt; [|do 2 eexists; split; [done|destruct Hcs; simpl; lia]].
    destruct (try_extend_returns runs shape ypos runstart cur Hwf Hcs Hlt)
      as [->|(c' & fb & -> & Hgt & Hnext)]; simpl.
    + do 2 eexists. split; [done|lia].
    + destruct fb.
      * do 2 eexists. split; [done|lia].
      * destruct (IH c' (Hnext eq_refl)) as (c & fb & -> & Hle); [lia|].
        do 2 eexists. split; [done|lia].
Qed.

Lemma reverse_regions_Forall (P : nat → Prop) lvl i : ∀ order acc,
  Forall P acc → Forall P order → Forall P (reverse_regions lvl i acc order).
Proof.
  induction order as [|r rest IH]; intros acc Hacc Hord; simpl; [done|].
  apply Forall_cons in Hord as [Hr Hrest].
  destruct (i <? lvl r)%Z.
  - apply IH; [by constructor|done].
  - apply Forall_app. split; [done|]. constructor; [done|]. by apply IH.
Qed.

Lemma reorder_Forall (P : nat → Prop) lvl max_level order :
  Forall P order → Forall P (reorder lvl max_level order).
Proof.
  unfold reorder. generalize (reverse (seq 0 (Z.to_nat max_level))).
  intros lvls. revert order.
  induction lvls as [|i lvls IH]; intros order Hord; simpl; [done|].
  apply IH. by apply reverse_regions_Forall.
Qed.

Section GreedyReturns.
Context {F : FloatOps}.

Lemma run_levels_returns runs order :
  Forall (λ ri, ri < length runs) order → ∃ ls, run_levels runs order = Ret ls.
Proof.
  induction order as [|ri order IH]; intros Hord; simpl; [by eexists|].
  apply Forall_cons in Hord as [Hri Hord].
  destruct (at_in_range runs ri Hri) as [r ->]. simpl.
  destruct (IH Hord) as [ls ->]. simpl. by eexists.
Qed.

Lemma place_loop_returns spos ypos lineflags sa order :
  ∀ runs txl xpos2 ns,
  Forall (λ ri, ri < length runs) order →
  ∃ runs' txl', place_loop spos ypos lineflags sa order runs txl xpos2 ns
                = Ret (runs', txl') ∧
                run_kind <$> runs' = run_kind <$> runs.
Proof.
  induction order as [|ri order IH]; intros runs txl xpos2 ns Hord; simpl;
    [by do 2 eexists|].
  apply Forall_cons in Hord as [Hri Hord].
  destruct (at_in_range runs ri Hri) as [r Hr]. rewrite Hr. simpl.
  destruct (negb (shy r) || _); [|by apply IH].
  match goal with |- context [place_loop _ _ _ _ _ ?rs ?tl ?xp ?nsp] =>
    destruct (IH rs tl xp nsp) as (runs' & txl' & -> & Hk) end.
  { by rewrite length_insert. }
  do 2 eexists. split; [done|]. rewrite Hk, list_fmap_insert.
  apply list_insert_id. rewrite list_lookup_fmap.
  apply at_lookup in Hr. by rewrite Hr.
Qed.

Lemma addLine_returns runstart spos runs l ypos cw left right lf ns prop :
  runstart ≤ spos ≤ length runs →
  ∃ runs' l', addLine runstart spos runs l ypos cw left right lf ns prop
              = Ret (runs', l') ∧
              run_kind <$> runs' = run_kind <$> runs.
Proof.
  intros Hr. unfold addLine. rewrite bool_decide_eq_false_2 by lia.
  assert (Forall (λ ri, ri < length runs) (seq runstart (spos - runstart))) as Hord.
  { apply Forall_seq. intros; lia. }
  destruct (run_levels_returns runs _ Hord) as [ls ->]. simpl.
  destruct (line_start prop left (right - left - cw) lf ns) as [xpos sa].
  match goal with |- context [place_loop _ _ _ _ ?o ?rs ?tl ?xp ?nsp] =>
    destruct (place_loop_returns spos ypos lf sa o rs tl xp nsp)
      as (runs' & txl' & -> & Hk) end.
  { by apply reorder_Forall. }
  simpl. by do 2 eexists.
Qed.

Lemma ends_with_mustbreak_kind runs runs' :
  run_kind <$> runs' = run_kind <$> runs →
  ends_with_mustbreak runs → ends_with_mustbreak runs'.
Proof.
  intros Hk Hwf rl Hl.
  assert (last (run_kind <$> runs) = Some (run_kind rl)) as H.
  { by rewrite <- Hk, fmap_last, Hl. }
  rewrite fmap_last in H. destruct (last runs) as [r0|] eqn:H0; [|done].
  simpl in H. unfold run_kind in H. injection H as _ Hlb. rewrite <- Hlb.
  by apply Hwf.
Qed.

Lemma breakLines_iter_returns shape prop st :
  ends_with_mustbreak (b_runs st) →
  b_runstart st < length (b_runs st) →
  ∃ st', breakLines_iter shape prop st = Ret st' ∧
         b_runstart st' ≤ length (b_runs st') ∧
         ends_with_mustbreak (b_runs st').
Proof.
  intros Hwf Hlt. unfold breakLines_iter.
  set (runs := b_runs st) in *.
  set (runstart := scan_while _ _ _).
  assert (b_runstart st ≤ runstart) as Hge by apply scan_from_ge.
  assert (runstart ≤ length runs) as Hle.
  { subst runstart. unfold scan_while.
    etransitivity; [apply scan_from_le|]. lia. }
  set (cur0 := {| curAscend := 0; curDescend := 0; curWidth := _;
                  l_spos := runstart; numSpace := 0 |}).
  destruct (fill_line_returns runs shape (b_ypos st) runstart Hwf (length runs) cur0)
    as (cur & fb & -> & Hc1 & Hc2).
  { split; [done|]. simpl. intros rl Hl Hs Heq.
    assert (runstart < b_runstart st + (length runs - b_runstart st)) as Hin by lia.
    apply scan_from_stop in Hin. fold (scan_while (length runs)
      (λ i, match runs !! i with Some r => space r | None => false end)
      (b_runstart st)) in Hin. fold runstart in Hin.
    rewrite last_lookup in Hl.
    replace (pred (length runs)) with runstart in Hl by lia.
    by rewrite Hl, Hs in Hin. }
  { simpl. lia. }
  simpl in Hc1. simpl.
  match goal with |- context [addLine ?a ?b ?c ?d ?e ?f ?g ?h ?i ?j ?k] =>
    destruct (addLine_returns a b c d e f g h i j k) as (runs' & l' & -> & Hk) end.
  { lia. }
  simpl. eexists. split; [done|]. simpl. split.
  - apply (f_equal length) in Hk. rewrite !length_fmap in Hk. lia.
  - by eapply ends_with_mustbreak_kind.
Qed.

Lemma breakLines_loop_returns shape prop fuel : ∀ st,
  ends_with_mustbreak (b_runs st) →
  b_runstart st ≤ length (b_runs st) →
  length (b_runs st) - b_runstart st ≤ fuel →
  ∃ st', breakLines_loop fuel shape prop st = Ret st'.
Proof.
  induction fuel as [|fuel IH]; intros st Hwf Hle Hf; simpl.
  - rewrite bool_decide_eq_false_2 by lia. by eexists.
  - case_bool_decide as Hlt; [|by eexists].
    destruct (breakLines_iter_returns shape prop st Hwf Hlt) as (st' & Hst & Hle' & Hwf').
    rewrite Hst. simpl.
    apply breakLines_iter_progress in Hst as [Hgt Hlen]; [|done].
    apply IH; [done|done|lia].
Qed.

End GreedyReturns.

Section GreedyTermination.
Context {F : FloatOps}.

(** C9: every turn of the outer loop of the greedy breaker that comes
    back moves [runstart] strictly forward and leaves the number of runs
    alone; the loop, given one unit of fuel per run, never runs out of
    it, so [breakLines] ends after at most [length runs] turns for every
    run list; and on a run list that ends in a forced break, as
    liblinebreak ends every text, it returns a layout. *)
Theorem breakLines_terminates :
  (∀ shape prop st st',
     b_runstart st < length (b_runs st) →
     breakLines_iter shape prop st = Ret st' →
     b_runstart st < b_runstart st' ∧ length (b_runs st') = length (b_runs st)) ∧
  (∀ runs shape prop ystart, breakLines runs shape prop ystart ≠ OutOfFuel) ∧
  (∀ runs shape prop ystart,
     ends_with_mustbreak runs → ∃ l, breakLines runs shape prop ystart = Ret l).
Proof.
  split; [apply breakLines_iter_progress|split].
  - intros runs shape prop ystart H. unfold breakLines in H. res_inv H.
    apply breakLines_loop_not_fuel in E; [done|]. simpl. lia.
  - intros runs shape prop ystart Hwf. unfold breakLines.
    destruct (breakLines_loop_returns shape prop (length runs)
                {| b_runs := runs; b_runstart := 0; b_ypos := ystart;
                   b_layout := emptyLayout; firstline := true |})
      as [st' ->]; simpl; [done|lia|lia|].
    by eexists.
Qed.

End GreedyTermination.

(** *** The whole call on a text without visible codepoints *)

Lemma view_loop_all_bidi t : ∀ i tx ix,
  Forall (λ ch, isBidiCharacter ch = true) t → view_loop t i tx ix = (tx, ix).
Proof.
  induction t as [|ch t IH]; intros i tx ix Hall; simpl; [done|].
  apply Forall_cons in Hall as [Hch Hall]. rewrite Hch. simpl. by apply IH.
Qed.

Lemma mkView_all_bidi t a e :
  Forall (λ ch, isBidiCharacter ch = true) t →
  mkView t a e = {| txt32 := []; idx := []; attr := a; embeddingLevels := e;
                    linebreaks := []; hyphens := [] |}.
Proof. intros Hall. unfold mkView. by rewrite view_loop_all_bidi. Qed.

Section ParagraphFacts.
Context (E : Externals) {F : FloatOps}.

(** C10: when the text is empty or holds nothing but U+202A, U+202B and
    U+202C, and FriBidi delivers its levels, [layoutParagraph] returns a
    layout without commands and without links whose height is
    [ystart]; [prop] is arbitrary, so this holds with the greedy and
    with the optimizing breaker. *)
Theorem layoutParagraph_nothing_visible (t : list Z) (a : AttributeIndex_c)
    (shape : Shape_c) (prop : LayoutProperties_c) (ystart : Z) :
  Forall (λ ch, isBidiCharacter ch = true) t →
  is_Some (fribidi_get_par_embedding_levels E t (ltr prop)) →
  ∃ l, layoutParagraph E t a shape prop ystart = Ret l ∧
       data l = [] ∧ links l = [] ∧ height l = ystart.
Proof.
  intros Hall [lv Hlv].
  unfold layoutParagraph, analyse, getBidiEmbeddingLevels. rewrite Hlv. simpl.
  rewrite (mkView_all_bidi _ _ _ Hall).
  destruct (hyphenate prop), (optimizeLinebreaks prop); simpl;
    eexists; (split; [reflexivity|]); done.
Qed.

End ParagraphFacts.

(** *** Run creation and vertical advances *)

Lemma glyph_shadows_outcome n js a f gi gx gy :
  (∃ sh, glyph_shadows n js a f gi gx gy = Ret sh) ∨
  glyph_shadows n js a f gi gx gy = Fault.
Proof.
  induction js as [|j js IH]; simpl; [by left; eexists|].
  unfold at_. destruct (a_shadows a !! j); simpl; [|by right].
  destruct IH as [[sh ->]| ->]; simpl; [left; by eexists|by right].
Qed.

Lemma att_checked_outcome view i :
  (∃ a, att_checked view i = Ret a) ∨ att_checked view i = Fault.
Proof.
  unfold att_checked, at_. destruct (idx view !! i); simpl; [left; by eexists|by right].
Qed.

Lemma output_loop_offending view prop f runstart asc gs : ∀ cmds rdx,
  Exists (offending view) gs →
  output_loop view prop f runstart asc gs cmds rdx = Throw NonLinearScript ∨
  output_loop view prop f runstart asc gs cmds rdx = Fault.
Proof.
  induction gs as [|g gs IH]; intros cmds rdx Hex; [by apply Exists_nil in Hex|].
  simpl. destruct (att_checked_outcome view (g_cluster g)) as [[a Ha]|Ha];
    rewrite Ha; simpl; [|by right].
  destruct (a_inlay a) as [obj|] eqn:Hinl.
  - apply IH. apply Exists_cons in Hex as [(_ & a' & Ha' & Hnone)|Hex]; [|done].
    congruence.
  - destruct (glyph_shadows_outcome (length (a_shadows (att view runstart)))
                (seq 0 (length (a_shadows (att view runstart)))) a f (g_codepoint g)
                (x_offset g) (0 - y_offset g - a_baseline_shift (att view runstart))%Z)
      as [[sh Hsh]|Hsh]; rewrite Hsh; simpl; [|by right].
    destruct (Z.eqb_spec (y_advance g) 0) as [Hz|Hnz]; simpl; [|by left].
    apply IH. apply Exists_cons in Hex as [(Hy & _)|Hex]; [done|done].
Qed.

Lemma output_loop_throws view prop f runstart asc gs : ∀ cmds rdx s,
  output_loop view prop f runstart asc gs cmds rdx = Throw s →
  s = NonLinearScript ∧ Exists (offending view) gs.
Proof.
  induction gs as [|g gs IH]; intros cmds rdx s H; simpl in H; [done|].
  destruct (att_checked_outcome view (g_cluster g)) as [[a Ha]|Ha];
    rewrite Ha in H; simpl in H; [|done].
  destruct (a_inlay a) as [obj|] eqn:Hinl.
  - apply IH in H as [-> Hex]. split; [done|]. by apply Exists_cons_tl.
  - destruct (glyph_shadows_outcome (length (a_shadows (att view runstart)))
                (seq 0 (length (a_shadows (att view runstart)))) a f (g_codepoint g)
                (x_offset g) (0 - y_offset g - a_baseline_shift (att view runstart))%Z)
      as [[sh Hsh]|Hsh]; rewrite Hsh in H; simpl in H; [|done].
    destruct (Z.eqb_spec (y_advance g) 0) as [Hz|Hnz]; simpl in H.
    + apply IH in H as [-> Hex]. split; [done|]. by apply Exists_cons_tl.
    + injection H as <-. split; [done|]. apply Exists_cons_hd. split; [done|]. eauto.
Qed.

Lemma position_loop_cells view prop asc desc gs : ∀ st gs' st',
  position_loop view prop asc desc gs st = Ret (gs', st') →
  Forall2 same_cell gs gs'.
Proof.
  induction gs as [|g gs IH]; intros st gs' st' H; simpl in H.
  - injection H as <- _. constructor.
  - destruct (att_checked view (g_cluster g)) as [a| | |]; simpl in H; try done.
    destruct (a_inlay a).
    + destruct (position_loop view prop asc desc gs st) as [[gs1 st1]| | |] eqn:E;
        simpl in H; try done.
      injection H as <- _. constructor; [done|]. by eapply IH.
    + res_outer H. res_outer H. destruct a1 as [gs1 st2]. simpl in H.
      injection H as <- _. constructor; [done|]. by eapply IH.
Qed.

Lemma clean_bind {A B} (m : res A) (k : A → res B) :
  clean m → (∀ a, clean (k a)) → clean (m ≫= k).
Proof. destruct m; simpl; auto. Qed.

Lemma clean_at {A} (v : list A) i : clean (at_ v i).
Proof. unfold at_. by destruct (v !! i). Qed.

Lemma position_loop_clean view prop asc desc gs : ∀ st,
  clean (position_loop view prop asc desc gs st).
Proof.
  induction gs as [|g gs IH]; intros st; simpl; [done|].
  apply clean_bind; [apply clean_bind; [apply clean_at|done]|]. intros a.
  destruct (a_inlay a).
  - apply clean_bind; [apply IH|]. by intros [??].
  - apply clean_bind.
    + destruct (negb (a_link a =? 0)); [|done].
      apply clean_bind.
      * destruct (_ && _); [|done].
        apply clean_bind; [apply clean_at|done].
      * intros [ls1 cur1]. by destruct (cur1 =? 0).
    + intros st1. apply clean_bind; [apply IH|]. by intros [??].
Qed.

Lemma Exists_offending_cells view gs gs' :
  Forall2 same_cell gs gs' →
  Exists (offending view) gs ↔ Exists (offending view) gs'.
Proof.
  induction 1 as [|g g' gs gs' [Hc Hy] _ IH]; [done|].
  rewrite !Exists_cons, IH. unfold offending. by rewrite Hc, Hy.
Qed.

Lemma Exists_offending_order view (rtl : bool) gs :
  Exists (offending view) (if rtl then reverse gs else gs) ↔
  Exists (offending view) gs.
Proof.
  destruct rtl; [|done]. rewrite !Exists_exists.
  by setoid_rewrite elem_of_reverse.
Qed.

Section RunFacts.
Context (E : Externals).

Lemma createRun_cases view spos runstart prop f glyphs :
  run_glyphs E view spos runstart f = Ret glyphs →
  createRun E view spos runstart prop f = Fault ∨
  ∃ asc desc gs st,
    position_loop view prop asc desc glyphs
      {| ls_dx := 0; curLink := 0;
         linkRect := {| rx := 0; ry := 0; rw := 0; rh := 0 |};
         linkStart := 0; ls_links := [] |} = Ret (gs, st) ∧
    ((∃ s, output_loop view prop f runstart asc
             (if negb (Z.rem (emb view runstart) 2 =? 0)%Z then reverse gs else gs)
             [] (ls_dx st) = Throw s ∧
           createRun E view spos runstart prop f = Throw s) ∨
     (∃ out, output_loop view prop f runstart asc
               (if negb (Z.rem (emb view runstart) 2 =? 0)%Z then reverse gs else gs)
               [] (ls_dx st) = Ret out ∧
             clean (createRun E view spos runstart prop f))).
Proof.
  intros Hg. unfold createRun. rewrite Hg.
  destruct (_ && negb _); [by left|].
  destruct (negb (script_tag_in_range _)); [by left|]. simpl.
  match goal with
  | |- (?m ≫= _) = Fault ∨ _ =>
      assert (clean m) as Hm
        by (destruct (a_inlay (att view runstart)); [done|]; by destruct f);
      destruct m as [[asc desc]| | |]; simpl in Hm |- *; try done; [|by left]
  end.
  pose proof (position_loop_clean view prop asc desc glyphs
                {| ls_dx := 0; curLink := 0;
                   linkRect := {| rx := 0; ry := 0; rw := 0; rh := 0 |};
                   linkStart := 0; ls_links := [] |}) as Hc.
  destruct (position_loop _ _ _ _ _ _) as [[gs st]| | |] eqn:Hp; simpl in *;
    try done; [|by left].
  destruct (output_loop _ _ _ _ _ _ _ _) as [[cmds rdx]|s| |] eqn:Ho; simpl.
  - right. exists asc, desc, gs, st. split; [done|]. right. eexists. split; [done|].
    destruct (negb (curLink st =? 0)); simpl; [|done].
    unfold at_. by destruct (p_links prop !! _).
  - right. exists asc, desc, gs, st. split; [done|]. left. by exists s.
  - by left.
  - exfalso. clear -Ho.
    revert Ho. generalize (@nil (nat * CommandData_c)) (ls_dx st).
    generalize (if negb (Z.rem (emb view runstart) 2 =? 0)%Z then reverse gs else gs).
    intros l. induction l as [|g l IH]; intros cmds rdx H; simpl in H; [done|].
    destruct (att_checked_outcome view (g_cluster g)) as [[a Ha]|Ha];
      rewrite Ha in H; simpl in H; [|done].
    destruct (a_inlay a); [by eapply IH|].
    match type of H with context [glyph_shadows ?n ?js ?a ?f ?gi ?gx ?gy] =>
      destruct (glyph_shadows_outcome n js a f gi gx gy) as [[sh Hsh]|Hsh];
        rewrite Hsh in H; simpl in H; [|done] end.
    destruct (negb (y_advance g =? 0)%Z); [done|]. by eapply IH.
Qed.

(** C4, as the code has it: with [glyphs] the shaper's answer for the
    run, a glyph with a vertical advance whose cluster is not an inline
    object keeps [createRun] from returning a run, it throws
    [NonLinearScript] unless the call has left defined behaviour
    before; [createRun] throws nothing else, and throws only when there
    is such a glyph, so glyphs of inline objects are never looked at and
    runs without vertical advances never raise the error; the exception
    leaves [createTextRuns] and [layoutParagraph] as it is. *)
Theorem createRun_vertical_advance (view : LayoutDataView) (spos runstart : nat)
    (prop : LayoutProperties_c) (f : option FontFace_c) (glyphs : list glyph) :
  run_glyphs E view spos runstart f = Ret glyphs →
  (Exists (offending view) glyphs →
     createRun E view spos runstart prop f = Throw NonLinearScript ∨
     createRun E view spos runstart prop f = Fault) ∧
  (∀ s, createRun E view spos runstart prop f = Throw s →
        s = NonLinearScript ∧ Exists (offending view) glyphs) ∧
  (∀ fuel runs,
     runstart < size view →
     f = get (a_font (att view runstart)) (txt view runstart) →
     spos = scan_while (size view) (run_continues view f runstart) (runstart + 1) →
     createRun E view spos runstart prop f = Throw NonLinearScript →
     createTextRuns_loop E (S fuel) view prop runstart runs = Throw NonLinearScript) ∧
  (∀ (F : FloatOps) t a shape ystart,
     analyse E t a prop = Ret view →
     createTextRuns E view prop = Throw NonLinearScript →
     layoutParagraph E t a shape prop ystart = Throw NonLinearScript).
Proof.
  intros Hg. split; [|split; [|split]].
  - intros Hex.
    destruct (createRun_cases view spos runstart prop f glyphs Hg)
      as [?|(asc & desc & gs & st & Hp & Hout)]; [by right|].
    apply position_loop_cells in Hp.
    apply (Exists_offending_cells view) in Hp. apply Hp in Hex.
    apply (Exists_offending_order view (negb (Z.rem (emb view runstart) 2 =? 0)%Z)) in Hex.
    apply (output_loop_offending view prop f runstart asc _ [] (ls_dx st)) in Hex.
    destruct Hout as [(s & Ho & Hc)|(out & Ho & _)]; [|destruct Hex; congruence].
    left. destruct Hex; congruence.
  - intros s Hs.
    destruct (createRun_cases view spos runstart prop f glyphs Hg)
      as [?|(asc & desc & gs & st & Hp & Hout)]; [congruence|].
    destruct Hout as [(s' & Ho & Hc)|(out & Ho & Hc)].
    + assert (s' = s) as -> by congruence.
      apply output_loop_throws in Ho as [-> Hex]. split; [done|].
      apply Exists_offending_order in Hex.
      apply position_loop_cells in Hp.
      by apply (Exists_offending_cells view) in Hp; apply Hp.
    + by rewrite Hs in Hc.
  - intros fuel runs Hlt -> -> Hthrow. simpl.
    rewrite bool_decide_eq_true_2 by done. by rewrite Hthrow.
  - intros F t a shape ystart Ha Ht. unfold layoutParagraph.
    rewrite Ha. simpl. by rewrite Ht.
Qed.

End RunFacts.

(** *** The bounds handed to the loops of the analysis suffice *)

Lemma bounded_bind {A B} (m : res A) (k : A → res B) :
  m ≠ OutOfFuel → (∀ a, k a ≠ OutOfFuel) → m ≫= k ≠ OutOfFuel.
Proof. destruct m; simpl; auto. Qed.

Lemma clean_bounded {A} (r : res A) : clean r → r ≠ OutOfFuel.
Proof. by destruct r. Qed.

Lemma scan_while_gt n p pos : pos < scan_while n p (pos + 1).
Proof. unfold scan_while. pose proof (scan_from_ge p (n - (pos + 1)) (pos + 1)). lia. Qed.

Lemma sethyp_txt view i view' : sethyp view i = Ret view' → txt32 view' = txt32 view.
Proof. unfold sethyp. case_bool_decide; [|done]. by intros [= <-]. Qed.

Lemma mark_loop_txt hy base ls : ∀ view view',
  mark_loop hy base ls view = Ret view' → txt32 view' = txt32 view.
Proof.
  induction ls as [|l ls IH]; intros view view' H; simpl in H; [by injection H as <-|].
  res_outer H. res_outer H. apply IH in H. rewrite H.
  destruct (_ && _); [by eapply sethyp_txt|by injection E0 as <-].
Qed.

Lemma mark_loop_bounded hy base ls : ∀ view, mark_loop hy base ls view ≠ OutOfFuel.
Proof.
  induction ls as [|l ls IH]; intros view; simpl; [done|].
  apply bounded_bind; [apply at_not_fuel|]. intros e.
  apply bounded_bind; [|done].
  destruct (_ && _); [|done]. unfold sethyp. by case_bool_decide.
Qed.

Lemma word_loop_txt dict breaks sectionstart js : ∀ wordstart view view',
  word_loop dict breaks sectionstart js wordstart view = Ret view' →
  txt32 view' = txt32 view.
Proof.
  induction js as [|j js IH]; intros wordstart view view' H; simpl in H;
    [by injection H as <-|].
  res_outer H. destruct (a =? WORDBREAK_BREAK)%Z; [|by eapply IH].
  res_outer H. apply IH in H. rewrite H.
  destruct (found_at_or_after _ _); [|by injection E0 as <-].
  res_outer E0. by eapply mark_loop_txt.
Qed.

Lemma word_loop_bounded dict breaks sectionstart js : ∀ wordstart view,
  word_loop dict breaks sectionstart js wordstart view ≠ OutOfFuel.
Proof.
  induction js as [|j js IH]; intros wordstart view; simpl; [done|].
  apply bounded_bind; [apply at_not_fuel|]. intros b.
  destruct (b =? WORDBREAK_BREAK)%Z; [|done].
  apply bounded_bind; [|done].
  destruct (found_at_or_after _ _); [|done].
  apply bounded_bind; [unfold substr; by case_bool_decide|].
  intros word. apply mark_loop_bounded.
Qed.

Lemma output_loop_bounded view prop f runstart asc gs : ∀ cmds rdx,
  output_loop view prop f runstart asc gs cmds rdx ≠ OutOfFuel.
Proof.
  induction gs as [|g gs IH]; intros cmds rdx; simpl; [done|].
  apply bounded_bind.
  { destruct (att_checked_outcome view (g_cluster g)) as [[a ->]| ->]; done. }
  intros a. destruct (a_inlay a); [done|].
  apply bounded_bind.
  { match goal with |- glyph_shadows ?n ?js ?a ?f ?gi ?gx ?gy ≠ _ =>
      destruct (glyph_shadows_outcome n js a f gi gx gy) as [[sh ->]| ->]; done end. }
  intros sh. by destruct (negb _).
Qed.

Section AnalysisFacts.
Context (E : Externals).

Lemma getLinebreaks_loop_returns fuel : ∀ view runstart,
  size view - runstart ≤ fuel → ∃ view', getLinebreaks_loop E fuel view runstart = Ret view'.
Proof.
  induction fuel as [|fuel IH]; intros view runstart Hf; simpl.
  - rewrite bool_decide_eq_false_2 by lia. by eexists.
  - case_bool_decide as Hlt; [|by eexists]. apply IH.
    pose proof (scan_while_gt (size view)
                  (λ p, String.eqb (a_lang (att view runstart)) (a_lang (att view p)))
                  runstart) as Hgt.
    unfold size in *. simpl. lia.
Qed.

Lemma getHyphens_loop_bounded fuel : ∀ view sectionstart,
  size view - sectionstart ≤ fuel → getHyphens_loop E fuel view sectionstart ≠ OutOfFuel.
Proof.
  induction fuel as [|fuel IH]; intros view sectionstart Hf; simpl.
  - rewrite bool_decide_eq_false_2 by lia. done.
  - case_bool_decide as Hlt; [|done].
    destruct (hasatt view sectionstart && _); [|apply IH; lia].
    pose proof (scan_while_gt (size view)
      (λ i, hasatt view i && String.eqb (a_lang (att view i)) (curLang view sectionstart))
      sectionstart) as Hgt. fold (section_end view sectionstart) in Hgt.
    destruct (getHyphenDict E (curLang view sectionstart)) as [dict|]; simpl;
      [|apply IH; lia].
    destruct (word_loop _ _ _ _ _ _) as [view'| | |] eqn:Hw; simpl; try done.
    + apply IH. apply word_loop_txt in Hw. unfold size. rewrite Hw. fold (size view). lia.
    + by apply word_loop_bounded in Hw.
Qed.

Lemma createRun_bounded view spos runstart prop f :
  createRun E view spos runstart prop f ≠ OutOfFuel.
Proof.
  unfold createRun.
  destruct (_ && negb _); [done|].
  destruct (negb (script_tag_in_range _)); [done|].
  apply bounded_bind.
  { unfold run_glyphs. apply bounded_bind; [|done].
    destruct (negb _); [done|]. by destruct f. }
  intros glyphs. apply bounded_bind.
  { destruct (a_inlay (att view runstart)); [done|]. by destruct f. }
  intros [asc desc]. apply bounded_bind.
  { apply clean_bounded, position_loop_clean. }
  intros [gs st]. apply bounded_bind; [apply output_loop_bounded|].
  intros [cmds rdx]. apply bounded_bind; [|done].
  destruct (negb _); [|done]. apply bounded_bind; [apply at_not_fuel|done].
Qed.

Lemma createTextRuns_loop_bounded fuel view prop : ∀ runstart runs,
  size view - runstart ≤ fuel →
  createTextRuns_loop E fuel view prop runstart runs ≠ OutOfFuel.
Proof.
  induction fuel as [|fuel IH]; intros runstart runs Hf; simpl.
  - rewrite bool_decide_eq_false_2 by lia. done.
  - case_bool_decide as Hlt; [|done].
    apply bounded_bind; [apply createRun_bounded|]. intros r.
    apply bounded_bind.
    { destruct (hyp view _); [|done].
      apply bounded_bind; [apply createRun_bounded|done]. }
    intros runs'. apply IH.
    match goal with |- _ - scan_while ?n ?p _ ≤ _ =>
      pose proof (scan_while_gt n p runstart) end. lia.
Qed.

(** The analysis and the run builder never stop for want of fuel. *)
Lemma analysis_bounded (t : list Z) (a : AttributeIndex_c) (prop : LayoutProperties_c) :
  analyse E t a prop ≠ OutOfFuel ∧
  ∀ view, createTextRuns E view prop ≠ OutOfFuel.
Proof.
  split.
  - unfold analyse. apply bounded_bind.
    { unfold getBidiEmbeddingLevels. by destruct (fribidi_get_par_embedding_levels _ _ _). }
    intros lv. apply bounded_bind.
    { destruct (getLinebreaks_loop_returns (size (mkView t a lv)) (mkView t a lv) 0)
        as [v' Hv']; [lia|]. unfold getLinebreaks. by rewrite Hv'. }
    intros view. destruct (hyphenate prop); [|done].
    apply getHyphens_loop_bounded. lia.
  - intros view. apply createTextRuns_loop_bounded. lia.
Qed.

End AnalysisFacts.

(** *** Layers *)

Lemma glyph_shadows_layers n a f gi gx gy : ∀ js sh,
  Forall (λ j, j < n) js →
  glyph_shadows n js a f gi gx gy = Ret sh →
  Forall (λ cc, 0 < cc.1) sh.
Proof.
  induction js as [|j js IH]; intros sh Hjs H; simpl in H.
  - injection H as <-. constructor.
  - apply Forall_cons in Hjs as [Hj Hjs]. res_inv H. injection H as <-.
    constructor; [simpl; lia|]. by apply IH.
Qed.

Lemma underline_shadows_layers gx gy gw gh a :
  Forall (λ cc, 0 < cc.1) (underline_shadows gx gy gw gh a).
Proof.
  apply Forall_forall. intros cc Hcc. unfold underline_shadows in Hcc.
  apply elem_of_lookup_imap_1 in Hcc as (j & s & -> & Hj). simpl.
  apply lookup_lt_Some in Hj. lia.
Qed.

Lemma emit_run_layer is_last r lay cc : cc ∈ emit_run is_last r lay → cc.1 = lay.
Proof.
  unfold emit_run. destruct (negb (shy r) || is_last); [|by intros ?%elem_of_nil].
  destruct (negb (space r)); rewrite list_elem_of_filter; [by intros [? _]|].
  by intros [[? _] _].
Qed.

Lemma emit_layer_layer runs runstart spos lay cc :
  cc ∈ emit_layer runs runstart spos lay → cc.1 = lay.
Proof.
  unfold emit_layer. rewrite list_elem_of_In, in_flat_map.
  intros (i & _ & Hin). apply list_elem_of_In in Hin.
  destruct (runs !! i); [by eapply emit_run_layer|by apply elem_of_nil in Hin].
Qed.

Lemma layers_descend runs runstart spos m : ∀ n s,
  let cmds := flat_map (λ layer, emit_layer runs runstart spos (m - layer - 1)) (seq s n) in
  StronglySorted (λ a b, b.1 ≤ a.1) cmds ∧ Forall (λ cc, cc.1 ≤ m - s - 1) cmds.
Proof.
  induction n as [|n IH]; intros s; simpl; [split; constructor|].
  destruct (IH (S s)) as [Hs Hb]. rewrite Forall_forall in Hb. split.
  - apply StronglySorted_app. split; [|split; [|done]].
    + intros x1 x2 H1%emit_layer_layer H2%Hb. lia.
    + assert (Forall (λ cc, cc.1 = m - s - 1) (emit_layer runs runstart spos (m - s - 1)))
        as Hall by (apply Forall_forall; intros ?; apply emit_layer_layer).
      induction Hall as [|cc l Hcc Hl IHl]; constructor; [done|].
      eapply Forall_impl; [exact Hl|]. simpl. intros; lia.
  - apply Forall_app. split.
    + apply Forall_forall. intros cc ->%emit_layer_layer. lia.
    + apply Forall_forall. intros cc ?%Hb. lia.
Qed.

Lemma line_commands_descend runs order runstart spos :
  StronglySorted (λ a b, b.1 ≤ a.1) (line_commands runs order runstart spos).
Proof. apply layers_descend. Qed.

Lemma foldl_addCommand cs : ∀ l,
  data (foldl addCommand l cs) = data l ++ cs ∧
  links (foldl addCommand l cs) = links l ∧
  height (foldl addCommand l cs) = height l.
Proof.
  induction cs as [|cmd cs IH]; intros l; simpl; [by rewrite app_nil_r|].
  destruct (IH (addCommand l cmd)) as (-> & -> & ->). simpl.
  by rewrite <- app_assoc.
Qed.

(** *** The statements at concrete inputs *)

(** In "a", LRE, "b" the embedding mark at position 1 is not mapped. *)
Lemma idx_skips_bidi_example :
  1 ∉ idx (mkView [97; 0x202A; 98]%Z (AttributeIndex_all (Sample.attr_of "en")) [])
  ↔ (0x202A = 0x202A ∨ 0x202A = 0x202B ∨ 0x202A = 0x202C)%Z.
Proof.
  apply (proj1 (proj2 (idx_strictly_increasing_skips_bidi
                         [97; 0x202A; 98]%Z (AttributeIndex_all (Sample.attr_of "en")) []))
           1 0x202A%Z).
  reflexivity.
Defined.


(** With a shaper for a vertical script the letter "a" is refused. *)
Lemma vertical_letter_is_refused :
  createRun Sample.lib_vertical Sample.view_a 1 0 (Sample.props ALG_LEFT false)
    (Some Sample.face1) = Throw NonLinearScript ∨
  createRun Sample.lib_vertical Sample.view_a 1 0 (Sample.props ALG_LEFT false)
    (Some Sample.face1) = Fault.
Proof.
  apply (proj1 (createRun_vertical_advance Sample.lib_vertical Sample.view_a 1 0
                  (Sample.props ALG_LEFT false) (Some Sample.face1)
                  [{| g_codepoint := 97; g_cluster := 0; x_offset := 0; y_offset := 0;
                      x_advance := 0; y_advance := 640 |}]
                  ltac:(reflexivity))).
  apply Exists_cons_hd. split; [simpl; lia|].
  eexists. split; reflexivity.
Defined.

(** The same shaper and an inline object: the shaper's glyph has a
    vertical advance, and [layoutParagraph] returns a layout, with the
    greedy breaker and with the optimizing one. *)
Lemma inline_object_is_not_checked :
  ∃ view glyphs l1 l2,
    analyse Sample.lib_vertical [65532%Z] (AttributeIndex_all Sample.attr_picture)
      (Sample.props ALG_LEFT false) = Ret view ∧
    run_glyphs Sample.lib_vertical view 1 0 (Some Sample.face1) = Ret glyphs ∧
    Exists (λ g, y_advance g ≠ 0%Z) glyphs ∧
    layoutParagraph Sample.lib_vertical (F := Sample.zfloat) [65532%Z]
      (AttributeIndex_all Sample.attr_picture) (Sample.column 6400)
      (Sample.props ALG_LEFT false) 0 = Ret l1 ∧
    layoutParagraph Sample.lib_vertical (F := Sample.zfloat) [65532%Z]
      (AttributeIndex_all Sample.attr_picture) (Sample.column 6400)
      (Sample.props ALG_LEFT true) 0 = Ret l2.
Proof.
  do 4 eexists. split; [vm_compute; reflexivity|].
  split; [vm_compute; reflexivity|].
  split; [apply Exists_cons_hd; simpl; lia|].
  split; vm_compute; reflexivity.
Qed.

(** The line over "word blank word" that ends the paragraph is narrower
    than a third of a column of 64000 units. *)
Lemma closing_line_example :
  demerits Sample.closing_line
    = fadd (FloatOps := Sample.zfloat) (of_int 100000) (demerits Sample.entry0) ∧
  li_forcebreak Sample.closing_line = true.
Proof.
  exact (forced_end_overrides_demerits (F := Sample.zfloat) Sample.two_words
           (Sample.column 64000) (Sample.props ALG_LEFT true) Sample.entry0
           Sample.closing_line 3 1 ltac:(reflexivity) ltac:(reflexivity)).
Defined.

(** The first turn of the greedy breaker on "word blank word" in a
    column that holds one word. *)
Lemma first_turn_example :
  b_runstart (Sample.start_state Sample.two_words) < b_runstart Sample.after_first_turn ∧
  length (b_runs Sample.after_first_turn)
    = length (b_runs (Sample.start_state Sample.two_words)).
Proof.
  exact (proj1 (breakLines_terminates (F := Sample.zfloat))
           (Sample.column 6400) (Sample.props ALG_LEFT false)
           (Sample.start_state Sample.two_words) Sample.after_first_turn
           ltac:(simpl; lia) ltac:(vm_compute; reflexivity)).
Defined.

(** An embedding mark and its closing mark alone. *)
Lemma only_marks_example :
  ∃ l, layoutParagraph (Sample.lib "en") (F := Sample.zfloat) [0x202A; 0x202C]%Z
         (AttributeIndex_all (Sample.attr_of "en")) (Sample.column 6400)
         (Sample.props ALG_LEFT true) 7 = Ret l ∧
       data l = [] ∧ links l = [] ∧ height l = 7%Z.
Proof.
  apply (layoutParagraph_nothing_visible (Sample.lib "en") (F := Sample.zfloat)).
  - repeat constructor.
  - eexists. reflexivity.
Defined.

(** * Part III: further properties *)

(** *** The view: index map, text and hyphenation mask *)

Lemma kept_filter_lookup t : ∀ k i p,
  kept t k !! i = Some p →
  k ≤ p ∧ t !! (p - k) = filter (λ ch, isBidiCharacter ch = false) t !! i.
Proof.
  induction t as [|ch t IH]; intros k i p H; simpl in H; [done|].
  destruct (isBidiCharacter ch) eqn:Hb.
  - rewrite filter_cons_False by congruence.
    apply IH in H as [Hle H]. split; [lia|].
    replace (p - k) with (S (p - S k)) by lia. done.
  - rewrite filter_cons_True by done. destruct i as [|i]; simpl in H.
    + injection H as <-. split; [lia|]. by rewrite Nat.sub_diag.
    + apply IH in H as [Hle H]. split; [lia|].
      replace (p - k) with (S (p - S k)) by lia. done.
Qed.

Lemma mkView_lengths t a e :
  length (idx (mkView t a e)) = length (txt32 (mkView t a e)) ∧
  length (linebreaks (mkView t a e)) = length (txt32 (mkView t a e)).
Proof.
  unfold mkView. pose proof (view_loop_length t 0 [] [] eq_refl) as H.
  destruct (view_loop t 0 [] []) as [tx ix]. simpl in *.
  rewrite length_replicate. by rewrite H.
Qed.

Lemma mkView_attr t a e : attr (mkView t a e) = a.
Proof. unfold mkView. by destruct (view_loop t 0 [] []). Qed.

(** X1: the index map leads back to the codepoint: position [i] of the
    normalized text holds the codepoint of the original position
    [idx[i]], so [att] and [emb] read the attribute and the level of the
    very codepoint [txt] returns; the normalized text is free of U+202A,
    U+202B and U+202C, and [idx] and [linebreaks] are as long as it. *)
Theorem view_index_leads_back (t : list Z) (a : AttributeIndex_c) (e : list Z) :
  let v := mkView t a e in
  (∀ i p, idx v !! i = Some p → t !! p = txt32 v !! i) ∧
  (∀ i, i < size v → att v i = attr_at a (nth i (idx v) 0) ∧
                     ∃ ch, t !! nth i (idx v) 0 = Some ch ∧ txt v i = ch) ∧
  Forall (λ ch, isBidiCharacter ch = false) (txt32 v) ∧
  length (idx v) = size v ∧ length (linebreaks v) = size v.
Proof.
  intros v. subst v.
  assert (∀ i p, idx (mkView t a e) !! i = Some p → t !! p = txt32 (mkView t a e) !! i)
    as Hback.
  { intros i p. rewrite mkView_idx, mkView_txt.
    intros [_ H]%kept_filter_lookup. by rewrite Nat.sub_0_r in H. }
  destruct (mkView_lengths t a e) as [Hl1 Hl2].
  split; [done|]. split; [|split; [|done]].
  - intros i Hi. split; [unfold att; by rewrite mkView_attr|]. unfold size in Hi.
    destruct (lookup_lt_is_Some_2 (idx (mkView t a e)) i) as [p Hp]; [lia|].
    destruct (lookup_lt_is_Some_2 (txt32 (mkView t a e)) i) as [ch Hch]; [lia|].
    exists ch. rewrite (nth_lookup_Some _ _ _ _ Hp). rewrite (Hback i p Hp).
    split; [done|]. unfold txt. by apply nth_lookup_Some.
  - rewrite mkView_txt. apply Forall_forall. by intros ch [? _]%list_elem_of_filter.
Qed.

(** X2: [sethyp] followed by [hyp]: inside the view the call sets the
    mark at [i] and at no other position of the view and leaves text,
    index map and break classes alone; at or beyond the size of the view
    it writes past the mask. *)
Theorem sethyp_then_hyp (v : LayoutDataView) (i : nat) :
  (i < length (idx v) →
   ∃ v', sethyp v i = Ret v' ∧ hyp v' i = true ∧
         (∀ j, j < length (idx v) → j ≠ i → hyp v' j = hyp v j) ∧
         length (hyphens v') = length (idx v) ∧
         txt32 v' = txt32 v ∧ idx v' = idx v ∧ linebreaks v' = linebreaks v) ∧
  (length (idx v) ≤ i → sethyp v i = Fault).
Proof.
  unfold sethyp. rewrite length_resize. split.
  - intros Hi. rewrite bool_decide_eq_true_2 by done.
    eexists. split; [done|]. unfold hyp. simpl.
    rewrite length_insert, length_resize.
    split; [|split; [|done]].
    + rewrite bool_decide_eq_true_2 by done. simpl.
      apply nth_lookup_Some with (d := false).
      apply list_lookup_insert_eq. by rewrite length_resize.
    + intros j Hj Hne. rewrite bool_decide_eq_true_2 by done. simpl.
      rewrite !nth_lookup, list_lookup_insert_ne by done.
      case_bool_decide as Hlt; simpl.
      * by rewrite lookup_resize by lia.
      * rewrite lookup_resize_new by lia. done.
  - intros Hi. by rewrite bool_decide_eq_false_2 by lia.
Qed.

(** *** Break analysis *)

Lemma scan_from_all (p : nat → bool) n pos :
  (∀ k, pos ≤ k < pos + n → p k = true) → scan_from p n pos = pos + n.
Proof.
  revert pos. induction n as [|n IH]; intros pos H; simpl; [lia|].
  rewrite H by lia. rewrite IH; [lia|]. intros k Hk. apply H. lia.
Qed.

Lemma scan_while_le n p pos : pos ≤ n → scan_while n p pos ≤ n.
Proof. intros H. unfold scan_while. pose proof (scan_from_le p (n - pos) pos). lia. Qed.

Lemma c_window_length s start len :
  start + len ≤ length s + 1 → length (c_window s start len) = len.
Proof.
  intros H. unfold c_window. rewrite length_take, length_drop, length_app. simpl. lia.
Qed.

Lemma write_breaks_length lb start len f :
  start + len ≤ length lb → length (write_breaks lb start len f) = length lb.
Proof.
  intros H. unfold write_breaks.
  rewrite !length_app, length_take, length_fmap, length_seq, length_drop. lia.
Qed.

Lemma write_breaks_lookup lb start len f k :
  start ≤ length lb → k < len →
  write_breaks lb start len f !! (start + k) = Some (f k).
Proof.
  intros Hs Hk. unfold write_breaks.
  rewrite lookup_app_r; rewrite length_take; [|lia].
  replace (start + k - start `min` length lb) with k by lia.
  rewrite lookup_app_l by (rewrite length_fmap, length_seq; lia).
  rewrite list_lookup_fmap, lookup_seq_lt by done. done.
Qed.

Section BreakFacts.
Context (E : Externals).

Lemma getLinebreaks_loop_last fuel :
  (∀ w lang, w ≠ [] → set_linebreaks_utf32 E w lang (length w - 1) = LINEBREAK_MUSTBREAK) →
  ∀ view runstart,
    length (linebreaks view) = size view →
    size view - runstart ≤ fuel →
    runstart < size view →
    ∃ v', getLinebreaks_loop E fuel view runstart = Ret v' ∧
          txt32 v' = txt32 view ∧ idx v' = idx view ∧ hyphens v' = hyphens view ∧
          length (linebreaks v') = size view ∧
          lnb v' (size view - 1) = LINEBREAK_MUSTBREAK.
Proof.
  intros Hext. induction fuel as [|fuel IH]; intros view runstart Hlen Hf Hlt; [lia|].
  simpl. rewrite bool_decide_eq_true_2 by done.
  set (lang := a_lang (att view runstart)).
  set (runpos := scan_while (size view) _ (runstart + 1)).
  assert (runstart < runpos) as Hgt by apply scan_while_gt.
  assert (runpos ≤ size view) as Hle by (apply scan_while_le; lia).
  set (len := runpos - runstart + _).
  assert (runstart + len ≤ size view) as Hin by (subst len; case_bool_decide; lia).
  set (view1 := set_linebreaks view _).
  assert (length (linebreaks view1) = size view1) as Hlen1.
  { subst view1. unfold size. simpl. rewrite write_breaks_length; [done|]. lia. }
  destruct (decide (runpos < size view)) as [Hmore|Hdone].
  - destruct (IH view1 runpos Hlen1) as (v' & -> & H1 & H2 & H3 & H4 & H5);
      [unfold size in *; simpl; lia|done|].
    by exists v'.
  - assert (runpos = size view) as Hend by lia.
    exists view1. split.
    { destruct fuel; simpl; rewrite bool_decide_eq_false_2; try done;
        unfold size in *; simpl; lia. }
    split; [done|]. split; [done|]. split; [done|]. split; [done|].
    assert (len = size view - runstart) as Hl.
    { subst len. rewrite bool_decide_eq_false_2 by done. lia. }
    unfold lnb. subst view1. simpl. apply nth_lookup_Some with (d := 0%Z).
    replace (size view - 1) with (runstart + (len - 1)) by lia.
    rewrite write_breaks_lookup by lia. f_equal.
    rewrite <- (c_window_length (txt32 view) runstart len) at 2
      by (unfold size in *; lia).
    apply Hext. intros Hnil. apply (f_equal length) in Hnil.
    rewrite c_window_length in Hnil by (unfold size in *; lia). simpl in Hnil. lia.
Qed.

(** X3: when the line-break analyzer forces a break at the end of every
    window, as liblinebreak does, the last position of a non-empty view
    has the class MUSTBREAK after [getLinebreaks]; the call returns, keeps
    text, index map and hyphenation mask, and leaves one class per
    position. *)
Theorem getLinebreaks_ends_in_mustbreak (view : LayoutDataView) :
  (∀ w lang, w ≠ [] → set_linebreaks_utf32 E w lang (length w - 1) = LINEBREAK_MUSTBREAK) →
  length (linebreaks view) = size view →
  0 < size view →
  ∃ v', getLinebreaks E view = Ret v' ∧
        txt32 v' = txt32 view ∧ idx v' = idx view ∧ hyphens v' = hyphens view ∧
        length (linebreaks v') = size view ∧
        lnb v' (size view - 1) = LINEBREAK_MUSTBREAK.
Proof.
  intros Hext Hlen Hpos. apply getLinebreaks_loop_last; [done|done|lia|done].
Qed.

(** X4: a text in one language is analysed in a single call over the
    whole text: the break classes are the analyzer's answer for it. *)
Theorem getLinebreaks_one_language (view : LayoutDataView) (lang : string) :
  (∀ i, i < size view → a_lang (att view i) = lang) →
  length (linebreaks view) = size view →
  0 < size view →
  getLinebreaks E view
  = Ret (set_linebreaks view
           (set_linebreaks_utf32 E (txt32 view) lang <$> seq 0 (size view))).
Proof.
  intros Hlang Hlen Hpos. unfold getLinebreaks.
  destruct (size view) as [|n] eqn:Hn; [lia|]. simpl.
  rewrite Hn. rewrite bool_decide_eq_true_2 by lia.
  assert (scan_while (S n) (λ p, String.eqb (a_lang (att view 0)) (a_lang (att view p))) 1
          = S n) as Hscan.
  { unfold scan_while. rewrite scan_from_all; [lia|].
    intros k Hk. rewrite !Hlang by lia. apply String.eqb_refl. }
  simpl in Hscan. rewrite Hscan.
  rewrite bool_decide_eq_false_2 by lia.
  replace (S n - 0 + 0) with (S n) by lia.
  rewrite Hlang by lia.
  assert (c_window (txt32 view) 0 (S n) = txt32 view) as ->.
  { unfold c_window, size in *. rewrite drop_0. by apply take_app_length'. }
  assert (write_breaks (linebreaks view) 0 (S n)
            (set_linebreaks_utf32 E (txt32 view) lang)
          = set_linebreaks_utf32 E (txt32 view) lang <$> seq 0 (S n)) as ->.
  { unfold write_breaks. rewrite take_0, drop_ge by lia. by rewrite app_nil_r. }
  destruct n; simpl; rewrite bool_decide_eq_false_2; try done;
    unfold size in *; simpl; lia.
Qed.

End BreakFacts.

(** *** Hyphenation analysis: what it leaves alone *)

Lemma marks_added_refl v : marks_added v v.
Proof. unfold marks_added. naive_solver. Qed.

Lemma marks_added_trans v1 v2 v3 :
  marks_added v1 v2 → marks_added v2 v3 → marks_added v1 v3.
Proof.
  intros (T1 & I1 & L1 & A1 & E1 & H1 & M1) (T2 & I2 & L2 & A2 & E2 & H2 & M2).
  unfold marks_added. rewrite T2, I2, L2, A2, E2. repeat split; try done.
  - rewrite I1 in H2. destruct H2 as [->|H2]; [done|by right].
  - intros i Hi Hh. apply M2; [by rewrite I1|]. by apply M1.
Qed.

Lemma sethyp_marks_added v i v' : sethyp v i = Ret v' → marks_added v v'.
Proof.
  unfold sethyp. rewrite length_resize. case_bool_decide as Hi; [|done].
  intros [= <-]. unfold marks_added. simpl. repeat split; try done.
  - right. by rewrite length_insert, length_resize.
  - intros j Hj. unfold hyp. simpl. rewrite length_insert, length_resize.
    rewrite (bool_decide_eq_true_2 (j < length (idx v))) by done. simpl.
    intros [Hlt Hn]%andb_true_iff. apply bool_decide_eq_true in Hlt.
    rewrite nth_lookup in Hn |- *.
    destruct (decide (i = j)) as [->|Hne].
    + rewrite list_lookup_insert_eq; [done|by rewrite length_resize].
    + rewrite list_lookup_insert_ne by done. by rewrite lookup_resize by lia.
Qed.

Lemma mark_loop_marks_added hy base ls : ∀ v v',
  mark_loop hy base ls v = Ret v' → marks_added v v'.
Proof.
  induction ls as [|l ls IH]; intros v v' H; simpl in H.
  - injection H as <-. apply marks_added_refl.
  - res_outer H. res_outer H. apply IH in H.
    eapply marks_added_trans; [|exact H].
    destruct (_ && _); [by eapply sethyp_marks_added|].
    injection E0 as <-. apply marks_added_refl.
Qed.

Lemma word_loop_marks_added dict breaks sectionstart js : ∀ wordstart v v',
  word_loop dict breaks sectionstart js wordstart v = Ret v' → marks_added v v'.
Proof.
  induction js as [|j js IH]; intros wordstart v v' H; simpl in H.
  - injection H as <-. apply marks_added_refl.
  - res_outer H. destruct (a =? WORDBREAK_BREAK)%Z; [|by eapply IH].
    res_outer H. apply IH in H. eapply marks_added_trans; [|exact H].
    destruct (found_at_or_after _ _).
    + res_outer E0. by eapply mark_loop_marks_added.
    + injection E0 as <-. apply marks_added_refl.
Qed.

Section HyphenFacts.
Context (E : Externals).

Lemma getHyphens_loop_marks_added fuel : ∀ v sectionstart v',
  getHyphens_loop E fuel v sectionstart = Ret v' → marks_added v v'.
Proof.
  induction fuel as [|fuel IH]; intros v sectionstart v' H; simpl in H.
  - case_bool_decide; [done|]. injection H as <-. apply marks_added_refl.
  - case_bool_decide; [|injection H as <-; apply marks_added_refl].
    destruct (hasatt v sectionstart && _); [|by eapply IH].
    res_outer H. apply IH in H. eapply marks_added_trans; [|exact H].
    destruct (getHyphenDict E _).
    + by eapply word_loop_marks_added.
    + injection E0 as <-. apply marks_added_refl.
Qed.

(** X5: [getHyphens] only ever adds hyphenation marks: text, index map,
    break classes, attributes and levels are those of the view it was
    given, every mark that was set inside the view is still set, and a
    mark that is set afterwards was set before or lies inside the view. *)
Theorem getHyphens_only_adds_marks (view v' : LayoutDataView) :
  getHyphens E view = Ret v' →
  marks_added view v' ∧
  ∀ i, hyp v' i = true → hyp view i = true ∨ i < length (idx view).
Proof.
  intros H. apply getHyphens_loop_marks_added in H. split; [done|].
  destruct H as (_ & _ & _ & _ & _ & [Hh|Hh] & _); intros i Hi.
  - left. unfold hyp in *. by rewrite <- Hh.
  - right. unfold hyp in Hi. apply andb_true_iff in Hi as [Hi _].
    apply bool_decide_eq_true in Hi. lia.
Qed.

Lemma getHyphens_loop_skips fuel : ∀ view sectionstart,
  (∀ i, sectionstart ≤ i < size view →
        (hasatt view i = true ∧ a_lang (att view i) ≠ ""%string) →
        getHyphenDict E (curLang view i) = None) →
  size view - sectionstart ≤ fuel →
  getHyphens_loop E fuel view sectionstart = Ret view.
Proof.
  induction fuel as [|fuel IH]; intros view sectionstart Hnone Hf; simpl.
  - by rewrite bool_decide_eq_false_2 by lia.
  - case_bool_decide as Hlt; [|done].
    pose proof (scan_while_gt (size view)
      (λ i, hasatt view i && String.eqb (a_lang (att view i)) (curLang view sectionstart))
      sectionstart) as Hgt. fold (section_end view sectionstart) in Hgt.
    destruct (hasatt view sectionstart && _) eqn:Hcond.
    + rewrite Hnone; [simpl; apply IH; [|lia]|lia|].
      * intros i Hi. apply Hnone. lia.
      * apply andb_true_iff in Hcond as [Ha Hl]. split; [done|].
        intros Hempty. rewrite Hempty in Hl. done.
    + apply IH; [|lia]. intros i Hi. apply Hnone. lia.
Qed.

(** X6: a missing dictionary is no error: when no hyphenation dictionary
    is installed, [getHyphens] returns the view as it was; the same holds
    when no position carries a language. *)
Theorem getHyphens_without_dictionary (view : LayoutDataView) :
  ((∀ lang, getHyphenDict E lang = None) → getHyphens E view = Ret view) ∧
  ((∀ i, i < size view → hasatt view i = false ∨ a_lang (att view i) = ""%string) →
   getHyphens E view = Ret view).
Proof.
  split; intros H; apply getHyphens_loop_skips; try lia.
  - intros i _ _. apply H.
  - intros i Hi [Ha Hl]. destruct (H i) as [Hf|He]; [lia|congruence|done].
Qed.

End HyphenFacts.

(** *** Merging links *)

Lemma add_areas_urls_in ls u rs :
  u ∈ url <$> ls → url <$> add_areas ls u rs = url <$> ls.
Proof.
  induction ls as [|l2 ls IH]; intros Hin; [by apply elem_of_nil in Hin|].
  rewrite fmap_cons in Hin. cbn [add_areas].
  destruct (String.eqb_spec u (url l2)) as [->|Hne]; [done|].
  apply elem_of_cons in Hin as [?|Hin]; [done|].
  rewrite !fmap_cons. by rewrite IH.
Qed.

Lemma add_areas_urls_new ls u rs :
  u ∉ url <$> ls → url <$> add_areas ls u rs = (url <$> ls) ++ [u].
Proof.
  induction ls as [|l2 ls IH]; intros Hin; [done|].
  rewrite fmap_cons, not_elem_of_cons in Hin. destruct Hin as [Hne Hin].
  cbn [add_areas].
  destruct (String.eqb_spec u (url l2)) as [->|_]; [done|].
  rewrite !fmap_cons. by rewrite IH.
Qed.

Lemma areas_of_not_in u ls : u ∉ url <$> ls → areas_of u ls = [].
Proof.
  induction ls as [|l ls IH]; intros Hn; [done|]. unfold areas_of in *.
  rewrite fmap_cons, not_elem_of_cons in Hn. destruct Hn as [Hne Hn].
  rewrite filter_cons_False by congruence. by apply IH.
Qed.

Lemma add_areas_areas ls u rs v :
  NoDup (url <$> ls) →
  areas_of v (add_areas ls u rs)
  = areas_of v ls ++ (if bool_decide (v = u) then rs else []).
Proof.
  induction ls as [|l2 ls IH]; intros Hnd; simpl.
  - unfold areas_of. case_bool_decide as Hv.
    + rewrite filter_cons_True by done. simpl. by rewrite app_nil_r.
    + rewrite filter_cons_False by (simpl; congruence). done.
  - rewrite fmap_cons in Hnd. apply NoDup_cons in Hnd as [Hnin Hnd].
    destruct (String.eqb_spec u (url l2)) as [->|Hne].
    + unfold areas_of. case_bool_decide as Hv.
      * subst v. rewrite !filter_cons_True by done. simpl.
        pose proof (areas_of_not_in _ _ Hnin) as Hnil. unfold areas_of in Hnil.
        rewrite Hnil. by rewrite !app_nil_r.
      * rewrite !filter_cons_False by (simpl; congruence). by rewrite app_nil_r.
    + specialize (IH Hnd). unfold areas_of in *.
      destruct (decide (url l2 = v)) as [Hv|Hv].
      * rewrite !filter_cons_True by done. simpl. rewrite IH. by rewrite app_assoc.
      * rewrite !filter_cons_False by done. done.
Qed.

Lemma add_areas_NoDup ls u rs :
  NoDup (url <$> ls) → NoDup (url <$> add_areas ls u rs).
Proof.
  intros Hnd. destruct (decide (u ∈ url <$> ls)) as [Hin|Hin];
    [by rewrite add_areas_urls_in|rewrite add_areas_urls_new by done].
  apply NoDup_app. split; [done|]. split; [|apply NoDup_singleton].
  intros x Hx ->%list_elem_of_singleton. done.
Qed.

Lemma areas_of_cons u l ls :
  areas_of u (l :: ls) = (if bool_decide (url l = u) then areas l else []) ++ areas_of u ls.
Proof.
  unfold areas_of. case_bool_decide.
  - by rewrite filter_cons_True.
  - by rewrite filter_cons_False.
Qed.

(** X7: [mergeLinks] keys the links of a layout by url: when the urls
    of the layout are pairwise different they stay so, the links it had
    keep their place, and a url is in the layout afterwards exactly when
    it was there or comes with one of the merged links. *)
Theorem mergeLinks_keeps_urls_unique (txl ls : list LinkInformation_c) (ddx ddy : Z) :
  NoDup (url <$> txl) →
  NoDup (url <$> mergeLinks txl ls ddx ddy) ∧
  (url <$> txl) `prefix_of` (url <$> mergeLinks txl ls ddx ddy) ∧
  ∀ u, u ∈ url <$> mergeLinks txl ls ddx ddy ↔ u ∈ url <$> txl ∨ u ∈ url <$> ls.
Proof.
  unfold mergeLinks. revert txl.
  induction ls as [|l ls IH]; intros txl Hnd; simpl.
  - split; [done|]. split; [done|]. intros u. rewrite elem_of_nil. tauto.
  - destruct (IH (add_areas txl (url l) (shift_rect ddx ddy <$> areas l)))
      as (H1 & H2 & H3); [by apply add_areas_NoDup|].
    split; [done|]. split.
    + etransitivity; [|exact H2].
      destruct (decide (url l ∈ url <$> txl)) as [Hin|Hin];
        [by rewrite add_areas_urls_in|rewrite add_areas_urls_new by done].
      by apply prefix_app_r.
    + intros u. rewrite H3, elem_of_cons.
      destruct (decide (url l ∈ url <$> txl)) as [Hin|Hin].
      * rewrite add_areas_urls_in by done.
        split; [tauto|]. intros [?|[->|?]]; tauto.
      * rewrite add_areas_urls_new by done.
        rewrite elem_of_app, list_elem_of_singleton. tauto.
Qed.

(** X8: [mergeLinks] loses and invents no rectangle: for every url, the
    rectangles filed under it afterwards are those the layout had,
    followed by the rectangles the merged links bring for that url, in
    their order and moved by [(dx, dy)], their sizes unchanged. *)
Theorem mergeLinks_conserves_rectangles (txl ls : list LinkInformation_c)
    (ddx ddy : Z) (u : string) :
  NoDup (url <$> txl) →
  areas_of u (mergeLinks txl ls ddx ddy)
  = areas_of u txl ++ (shift_rect ddx ddy <$> areas_of u ls).
Proof.
  unfold mergeLinks. revert txl.
  induction ls as [|l ls IH]; intros txl Hnd; simpl.
  - unfold areas_of. simpl. by rewrite app_nil_r.
  - rewrite IH by (by apply add_areas_NoDup).
    rewrite add_areas_areas by done. rewrite areas_of_cons, fmap_app, <- app_assoc.
    f_equal. f_equal.
    destruct (decide (u = url l)) as [->|Hne].
    + by rewrite !bool_decide_eq_true_2.
    + rewrite !bool_decide_eq_false_2 by congruence. done.
Qed.

(** *** The visual order of the runs of a line *)

Lemma reverse_regions_perm lvl i : ∀ order acc,
  reverse_regions lvl i acc order ≡ₚ acc ++ order.
Proof.
  induction order as [|r rest IH]; intros acc; simpl; [by rewrite app_nil_r|].
  destruct (i <? lvl r)%Z.
  - rewrite IH. simpl. by rewrite Permutation_middle.
  - by rewrite IH.
Qed.

Lemma reorder_perm (lvl : nat → Z) (max_level : Z) (order : list nat) :
  reorder lvl max_level order ≡ₚ order.
Proof.
  unfold reorder. induction (reverse (seq 0 (Z.to_nat max_level))) as [|i lvls IH]
    in order |- *; simpl; [done|].
  rewrite IH. by rewrite reverse_regions_perm.
Qed.

(** X9: the visual order is a rearrangement of the logical order: the
    reordering of [addLine] keeps every run of the line, each once. *)
Theorem reorder_is_permutation (lvl : nat → Z) (max_level : Z) (order : list nat) :
  reorder lvl max_level order ≡ₚ order.
Proof.
  unfold reorder. generalize (reverse (seq 0 (Z.to_nat max_level))).
  intros lvls. revert order.
  induction lvls as [|i lvls IH]; intros order; simpl; [done|].
  rewrite IH. by rewrite reverse_regions_perm.
Qed.

Lemma reverse_regions_all_above lvl i : ∀ order acc,
  Forall (λ r, (i < lvl r)%Z) order →
  reverse_regions lvl i acc order = reverse order ++ acc.
Proof.
  induction order as [|r rest IH]; intros acc Hall; simpl; [done|].
  apply Forall_cons in Hall as [Hr Hall].
  destruct (Z.ltb_spec i (lvl r)); [|lia].
  rewrite IH by done. rewrite reverse_cons, <- app_assoc. done.
Qed.

Lemma reverse_regions_none_above lvl i : ∀ order,
  Forall (λ r, (lvl r ≤ i)%Z) order → reverse_regions lvl i [] order = order.
Proof.
  induction order as [|r rest IH]; intros Hall; simpl; [done|].
  apply Forall_cons in Hall as [Hr Hall].
  destruct (Z.ltb_spec i (lvl r)); [lia|]. simpl. by rewrite IH.
Qed.

Lemma reverse_regions_skip lvl i : ∀ a rest acc,
  Forall (λ r, (lvl r ≤ i)%Z) a → a ≠ [] →
  reverse_regions lvl i acc (a ++ rest) = acc ++ a ++ reverse_regions lvl i [] rest.
Proof.
  induction a as [|r a IH]; intros rest acc Hall Hne; [done|]. simpl.
  apply Forall_cons in Hall as [Hr Hall].
  destruct (Z.ltb_spec i (lvl r)); [lia|]. f_equal. f_equal.
  destruct a as [|r' a]; [done|]. by rewrite IH.
Qed.

Lemma reverse_regions_block lvl i : ∀ b rest acc,
  Forall (λ r, (i < lvl r)%Z) b →
  reverse_regions lvl i acc (b ++ rest) = reverse_regions lvl i (reverse b ++ acc) rest.
Proof.
  induction b as [|r b IH]; intros rest acc Hall; [done|]. simpl.
  apply Forall_cons in Hall as [Hr Hall].
  destruct (Z.ltb_spec i (lvl r)); [|lia].
  rewrite IH by done. by rewrite reverse_cons, <- app_assoc.
Qed.

Lemma max_level_uniform (lvl : nat → Z) (L : Z) (order : list nat) :
  (0 ≤ L)%Z → Forall (λ r, lvl r = L) order → order ≠ [] →
  foldl Z.max 0%Z (lvl <$> order) = L.
Proof.
  intros HL Hall Hne.
  assert (∀ m, (m ≤ L)%Z → foldl Z.max m (lvl <$> order) = L) as H; [|by apply H].
  clear HL. induction Hall as [|r o Hr Ho IH]; [done|]. intros m Hm. simpl.
  destruct o as [|r' o]; [simpl; lia|]. apply IH; [done|lia].
Qed.

(** X10: a line whose runs all have the level [L], which is then the
    maximum level [addLine] finds, keeps its order when [L] is even, a
    left-to-right line, and is laid out back to front when [L] is odd. *)
Theorem reorder_uniform_level (lvl : nat → Z) (L : Z) (order : list nat) :
  (0 ≤ L)%Z →
  Forall (λ r, lvl r = L) order →
  order ≠ [] →
  reorder lvl (foldl Z.max 0%Z (lvl <$> order)) order
  = if Z.odd L then reverse order else order.
Proof.
  intros HL Hall Hne. rewrite (max_level_uniform lvl L order HL Hall Hne).
  unfold reorder.
  assert (∀ (lvls : list nat) o,
            Forall (λ i, (Z.of_nat i < L)%Z) lvls →
            Forall (λ r, lvl r = L) o →
            foldl (λ o i, reverse_regions lvl (Z.of_nat i) [] o) o lvls
            = if Nat.odd (length lvls) then reverse o else o) as Hfold.
  { induction lvls as [|i lvls IH]; intros o Hl Ho; [done|].
    apply Forall_cons in Hl as [Hi Hl]. simpl foldl.
    rewrite reverse_regions_all_above
      by (eapply Forall_impl; [exact Ho|]; simpl; intros; lia).
    rewrite app_nil_r, IH; [|done|by apply Forall_reverse].
    change (length (i :: lvls)) with (S (length lvls)).
    rewrite Nat.odd_succ, <- Nat.negb_odd.
    destruct (Nat.odd (length lvls)); simpl; [by rewrite reverse_involutive|done]. }
  rewrite Hfold; [| |done].
  - rewrite length_reverse, length_seq.
    replace (Nat.odd (Z.to_nat L)) with (Z.odd L); [done|].
    rewrite <- (Z2Nat.id L) at 1 by done.
    generalize (Z.to_nat L). intros n.
    rewrite <- Z.negb_even, <- Nat.negb_even. f_equal.
    induction n as [|n IHn]; [done|].
    rewrite Nat2Z.inj_succ, Z.even_succ, Nat.even_succ.
    rewrite <- Z.negb_even, <- Nat.negb_even. by rewrite IHn.
  - apply Forall_reverse, Forall_seq. intros j Hj. lia.
Qed.

Lemma reorder_unfold lvl n o :
  reorder lvl (Z.of_nat (S n)) o
  = reverse_regions lvl 0 []
      (foldl (λ o i, reverse_regions lvl (Z.of_nat i) [] o) o (reverse (seq 1 n))).
Proof.
  unfold reorder. rewrite Nat2Z.id. change (seq 0 (S n)) with (0 :: seq 1 n).
  by rewrite reverse_cons, foldl_app.
Qed.

Lemma upper_passes_idle lvl (lvls : list nat) : ∀ o,
  Forall (λ i, 1 ≤ i) lvls →
  Forall (λ r, (lvl r ≤ 1)%Z) o →
  foldl (λ o i, reverse_regions lvl (Z.of_nat i) [] o) o lvls = o.
Proof.
  induction lvls as [|i lvls IH]; intros o Hl Ho; [done|].
  apply Forall_cons in Hl as [Hi Hl]. simpl.
  rewrite reverse_regions_none_above
    by (eapply Forall_impl; [exact Ho|]; simpl; intros; lia).
  by apply IH.
Qed.

(** X11: a stretch of right-to-left runs between left-to-right runs is
    turned around in place: with [a] and [c] on level 0 and [b] on level
    1, the visual order of [a ++ b ++ c] is [a ++ reverse b ++ c],
    whatever maximum level of at least 1 the passes start from. *)
Theorem reorder_embedded_block (lvl : nat → Z) (max_level : Z) (a b c : list nat) :
  (1 ≤ max_level)%Z →
  Forall (λ r, lvl r = 0%Z) a →
  Forall (λ r, lvl r = 1%Z) b →
  Forall (λ r, lvl r = 0%Z) c →
  reorder lvl max_level (a ++ b ++ c) = a ++ reverse b ++ c.
Proof.
  intros HM Ha Hb Hc.
  replace max_level with (Z.of_nat (S (Z.to_nat (max_level - 1)))) by lia.
  rewrite reorder_unfold, upper_passes_idle.
  2: { apply Forall_reverse, Forall_seq. intros; lia. }
  2: { rewrite !Forall_app. repeat split;
         (eapply Forall_impl; [eassumption|]; simpl; intros; lia). }
  assert (Forall (λ r, (lvl r ≤ 0)%Z) a) as Ha'
    by (eapply Forall_impl; [exact Ha|]; simpl; intros; lia).
  assert (Forall (λ r, (lvl r ≤ 0)%Z) c) as Hc'
    by (eapply Forall_impl; [exact Hc|]; simpl; intros; lia).
  assert (Forall (λ r, (0 < lvl r)%Z) b) as Hb'
    by (eapply Forall_impl; [exact Hb|]; simpl; intros; lia).
  assert (reverse_regions lvl 0 [] (b ++ c) = reverse b ++ c) as Hbc.
  { rewrite reverse_regions_block by done. rewrite app_nil_r.
    destruct c as [|r c]; [simpl; by rewrite app_nil_r|].
    pose proof (reverse_regions_skip lvl 0 (r :: c) [] (reverse b) Hc' ltac:(done)) as H.
    rewrite app_nil_r in H. rewrite H. simpl. by rewrite app_nil_r. }
  destruct a as [|r a]; [done|].
  rewrite (reverse_regions_skip lvl 0 (r :: a) (b ++ c) []) by done.
  by rewrite Hbc.
Qed.

(** *** Runs: advance, soft hyphens, boundaries *)

Lemma Zsum_app l1 l2 : Zsum (l1 ++ l2) = (Zsum l1 + Zsum l2)%Z.
Proof. induction l1 as [|z l1 IH]; simpl; [done|]. rewrite IH. lia. Qed.

Lemma Zsum_reverse l : Zsum (reverse l) = Zsum l.
Proof.
  induction l as [|z l IH]; [done|]. rewrite reverse_cons, Zsum_app, IH. simpl. lia.
Qed.

Lemma position_loop_dx view prop asc desc gs : ∀ st gs' st',
  position_loop view prop asc desc gs st = Ret (gs', st') →
  ls_dx st' = (ls_dx st + Zsum (text_advance view <$> gs))%Z ∧
  Forall2 (λ g g', g_cluster g = g_cluster g' ∧ x_advance g = x_advance g') gs gs'.
Proof.
  induction gs as [|g gs IH]; intros st gs' st' H; simpl in H.
  - injection H as <- <-. simpl. split; [lia|constructor].
  - rewrite fmap_cons. unfold text_advance at 1.
    destruct (att_checked view (g_cluster g)) as [a| | |]; simpl in H; try done.
    destruct (a_inlay a).
    + res_outer H. destruct a0 as [gs1 st1]. injection H as <- <-.
      apply IH in E as [-> HF]. simpl. split; [lia|]. by constructor.
    + res_outer H. res_outer H. destruct a1 as [gs1 st2]. simpl in H.
      injection H as <- <-. apply IH in E0 as [-> HF]. simpl.
      split; [|by constructor].
      assert (ls_dx a0 = (ls_dx st + x_advance g)%Z) as ->; [|lia].
      clear -E. destruct (negb (a_link a =? 0)) in E.
      * res_outer E. destruct a1 as [ls1 cur1].
        destruct (cur1 =? 0); by injection E as <-.
      * by injection E as <-.
Qed.

Lemma output_loop_dx view prop f runstart asc gs : ∀ cmds rdx cmds' rdx',
  output_loop view prop f runstart asc gs cmds rdx = Ret (cmds', rdx') →
  rdx' = (rdx + Zsum (inlay_advance view <$> gs))%Z.
Proof.
  induction gs as [|g gs IH]; intros cmds rdx cmds' rdx' H; simpl in H.
  - injection H as _ <-. simpl. lia.
  - rewrite fmap_cons. unfold inlay_advance at 1.
    destruct (att_checked view (g_cluster g)) as [a| | |]; simpl in H; try done.
    destruct (a_inlay a).
    + apply IH in H. simpl. lia.
    + res_outer H. destruct (negb _); [done|]. apply IH in H. simpl. lia.
Qed.

Section RunShape.
Context (E : Externals).

(** X12: the advance of a run is the sum over its glyphs, in whatever
    direction they are laid out: a glyph counts with the advance the
    shaper gave it, a glyph that stands for an inline object with the
    right edge of the object; the vertical advance of a run is 0. *)
Theorem createRun_advance (view : LayoutDataView) (spos runstart : nat)
    (prop : LayoutProperties_c) (f : option FontFace_c) (glyphs : list glyph)
    (r : runInfo) :
  run_glyphs E view spos runstart f = Ret glyphs →
  createRun E view spos runstart prop f = Ret r →
  dx r = Zsum (glyph_advance view <$> glyphs) ∧ dy r = 0%Z.
Proof.
  intros Hg H. unfold createRun in H. rewrite Hg in H.
  destruct (_ && negb _); [done|].
  destruct (negb (script_tag_in_range _)); [done|]. simpl in H.
  res_outer H. destruct a as [asc desc]. simpl in H.
  res_outer H. destruct a as [gs st]. simpl in H.
  res_outer H. destruct a as [cmds rdx]. simpl in H.
  res_outer H. injection H as <-. simpl. split; [|done].
  apply position_loop_dx in E1 as [Hdx HF]. simpl in Hdx.
  apply output_loop_dx in E2. subst rdx. rewrite Hdx.
  assert (inlay_advance view <$> gs = inlay_advance view <$> glyphs) as Hin.
  { clear -HF. induction HF as [|g g' l l' [Hc _] _ IH]; [done|].
    rewrite !fmap_cons, IH. f_equal. unfold inlay_advance. by rewrite Hc. }
  assert (Zsum (inlay_advance view <$>
                  (if negb (Z.rem (emb view runstart) 2 =? 0)%Z then reverse gs else gs))
          = Zsum (inlay_advance view <$> glyphs)) as ->.
  { destruct (negb (Z.rem (emb view runstart) 2 =? 0)%Z); [|by rewrite Hin].
    rewrite fmap_reverse, Zsum_reverse. by rewrite Hin. }
  clear. induction glyphs as [|g l IH]; [done|].
  rewrite !fmap_cons. cbn [Zsum foldr]. fold (Zsum (text_advance view <$> l)).
  fold (Zsum (inlay_advance view <$> l)). fold (Zsum (glyph_advance view <$> l)).
  unfold glyph_advance at 1. lia.
Qed.

(** X13: the run that [createTextRuns] makes up for an automatic
    hyphenation point: it is a soft-hyphen run, not a blank, a break is
    allowed after it, and it has the level of the run before it and its
    face; what is shaped is one U+2010, or U+002D when the face has no
    U+2010, in the language of the run before it; without a face there
    is no such run. *)
Theorem synthesized_hyphen_run (view : LayoutDataView) (runstart : nat)
    (prop : LayoutProperties_c) :
  (∀ f r, createRun E (shy_view view runstart) 1 0 prop f = Ret r →
          shy r = true ∧ space r = false ∧ linebreak r = LINEBREAK_ALLOWBREAK ∧
          embeddingLevel r = emb view runstart ∧ r_font r = f ∧ is_Some f) ∧
  (∀ fc, run_glyphs E (shy_view view runstart) 1 0 (Some fc)
         = Ret (hb_shape E fc (a_lang (att view runstart))
                  (negb (Z.rem (emb view runstart) 2 =? 0)%Z)
                  [(if containsGlyph fc U_HYPHEN then U_HYPHEN else U_HYPHEN_MINUS, 0)])) ∧
  createRun E (shy_view view runstart) 1 0 prop None = Fault.
Proof.
  split; [|split].
  - intros f r H. unfold createRun in H.
    change (txt (shy_view view runstart) 0) with U_SHY in H.
    change (txt (shy_view view runstart) (1 - 1)) with U_SHY in H.
    change (lnb (shy_view view runstart) (1 - 1)) with LINEBREAK_ALLOWBREAK in H.
    change (emb (shy_view view runstart) 0) with (emb view runstart) in H.
    simpl in H. destruct (negb (script_tag_in_range _)); [done|].
    res_outer H. res_outer H. destruct a0 as [asc desc]. simpl in H.
    res_outer H. destruct a0 as [gs st]. simpl in H.
    res_outer H. destruct a0 as [cmds rdx]. simpl in H.
    res_outer H. injection H as <-. simpl. repeat split; try done.
    unfold run_glyphs in E0.
    change (txt (shy_view view runstart) 0) with U_SHY in E0. simpl in E0.
    destruct f; [done|done].
  - intros fc. reflexivity.
  - unfold createRun.
    change (txt (shy_view view runstart) 0) with U_SHY. simpl.
    by destruct (negb (script_tag_in_range _)).
Qed.

Lemma createTextRuns_loop_count fuel view prop : ∀ runstart runs0 runs,
  createTextRuns_loop E fuel view prop runstart runs0 = Ret runs →
  runstart ≤ size view →
  length runs0 + (if bool_decide (runstart < size view) then 1 else 0) ≤ length runs ∧
  length runs ≤ length runs0 + 2 * (size view - runstart) ∧
  (hyphens view = [] → length runs ≤ length runs0 + (size view - runstart)).
Proof.
  induction fuel as [|fuel IH]; intros runstart runs0 runs H Hle; simpl in H.
  - case_bool_decide; [done|]. injection H as <-. lia.
  - case_bool_decide as Hlt; [|injection H as <-; lia].
    set (spos := scan_while _ _ _) in H.
    assert (runstart < spos) as Hgt by apply scan_while_gt.
    assert (spos ≤ size view) as Hs by (apply scan_while_le; lia).
    res_outer H. res_outer H. apply IH in H as (H1 & H2 & H3); [|done].
    assert (length a0 = length runs0 + (if hyp view spos then 2 else 1)) as Hl.
    { destruct (hyp view spos); [res_outer E1|]; injection E1 as <-;
        rewrite length_app; simpl; lia. }
    assert (hyphens view = [] → hyp view spos = false) as Hnohyp.
    { intros Hh. unfold hyp. rewrite Hh. apply andb_false_iff. right. by destruct spos. }
    split; [|split].
    + destruct (hyp view spos); case_bool_decide; lia.
    + destruct (hyp view spos); lia.
    + intros Hh. rewrite (Hnohyp Hh) in Hl. specialize (H3 Hh). lia.
Qed.

(** X14: the number of runs: a text that is not empty gives at least one
    run, a text without hyphenation points at most one run per
    codepoint, and every hyphenation point at most one run more, so
    never more than two runs per codepoint. *)
Theorem createTextRuns_count (view : LayoutDataView) (prop : LayoutProperties_c)
    (runs : list runInfo) :
  createTextRuns E view prop = Ret runs →
  (0 < size view → 0 < length runs) ∧
  length runs ≤ 2 * size view ∧
  (hyphens view = [] → length runs ≤ size view).
Proof.
  intros H. apply createTextRuns_loop_count in H as (H1 & H2 & H3); [|lia].
  simpl in *. split; [|split].
  - intros Hpos. rewrite bool_decide_eq_true_2 in H1 by done. lia.
  - lia.
  - intros Hh. specialize (H3 Hh). lia.
Qed.

End RunShape.

Lemma scan_from_between (p : nat → bool) n : ∀ pos k,
  pos ≤ k < scan_from p n pos → p k = true.
Proof.
  induction n as [|n IH]; intros pos k Hk; simpl in Hk; [lia|].
  destruct (p pos) eqn:Hp; [|lia].
  destruct (decide (k = pos)) as [->|Hne]; [done|]. apply IH with (S pos). lia.
Qed.

(** X15: what a run holds: from the second codepoint of a run on there
    is no blank, no newline and no soft hyphen, no hyphenation point, no
    inline object, and no break opportunity before it; level, language
    and baseline are those of the first codepoint; a blank, a newline
    and an inline object are runs of one codepoint. *)
Theorem run_interior (view : LayoutDataView) (f : option FontFace_c) (runstart : nat) :
  let spos := scan_while (size view) (run_continues view f runstart) (runstart + 1) in
  runstart < spos ∧
  (runstart < size view → spos ≤ size view) ∧
  (∀ p, runstart < p < spos →
        txt view p ≠ U_SPACE ∧ txt view p ≠ U_NEWLINE ∧ txt view p ≠ U_SHY ∧
        hyp view p = false ∧ a_inlay (att view p) = None ∧
        (lnb view (p - 1) = LINEBREAK_NOBREAK ∨ lnb view (p - 1) = LINEBREAK_INSIDEACHAR) ∧
        emb view p = emb view runstart ∧
        a_lang (att view p) = a_lang (att view runstart) ∧
        a_baseline_shift (att view p) = a_baseline_shift (att view runstart)) ∧
  (txt view runstart = U_SPACE ∨ txt view runstart = U_NEWLINE ∨
   is_Some (a_inlay (att view runstart)) → spos = runstart + 1).
Proof.
  intros spos. split; [apply scan_while_gt|]. split; [intros; apply scan_while_le; lia|].
  assert (∀ p, runstart < p < spos → run_continues view f runstart p = true) as Hall.
  { intros p Hp. apply (scan_from_between _ (size view - (runstart + 1)) (runstart + 1)).
    fold (scan_while (size view) (run_continues view f runstart) (runstart + 1)).
    fold spos. lia. }
  split.
  - intros p Hp. specialize (Hall p Hp). unfold run_continues in Hall.
    repeat (apply andb_true_iff in Hall as [Hall ?]).
    repeat match goal with
           | H : negb _ = true |- _ => apply negb_true_iff in H
           | H : (_ =? _)%Z = true |- _ => apply Z.eqb_eq in H
           | H : (_ =? _)%Z = false |- _ => apply Z.eqb_neq in H
           | H : String.eqb _ _ = true |- _ => apply String.eqb_eq in H
           | H : bool_decide _ = false |- _ => apply bool_decide_eq_false in H
           end.
    repeat split; try done.
    + destruct (a_inlay (att view p)); [|done]. exfalso. eauto.
    + match goal with H : _ || _ = true |- _ =>
        apply orb_true_iff in H as [H|H]; apply Z.eqb_eq in H; tauto end.
  - intros Hone. destruct (decide (spos = runstart + 1)) as [|Hne]; [done|].
    exfalso. assert (runstart < spos) as Hgt by apply scan_while_gt.
    specialize (Hall (runstart + 1) ltac:(lia)). unfold run_continues in Hall.
    replace (runstart + 1 - 1) with runstart in Hall by lia.
    repeat (apply andb_true_iff in Hall as [Hall ?]).
    repeat match goal with
           | H : negb _ = true |- _ => apply negb_true_iff in H
           | H : (_ =? _)%Z = false |- _ => apply Z.eqb_neq in H
           | H : bool_decide _ = false |- _ => apply bool_decide_eq_false in H
           end.
    destruct Hone as [?|[?|?]]; done.
Qed.

(** *** What a line puts into the layout *)

Lemma maxlayer_inner_ge (cmds : list (nat * CommandData_c)) : ∀ m,
  m ≤ foldl (λ m' cc, Nat.max m' (cc.1 + 1)) m cmds ∧
  ∀ cc, cc ∈ cmds → cc.1 < foldl (λ m' cc, Nat.max m' (cc.1 + 1)) m cmds.
Proof.
  induction cmds as [|c0 cmds IH]; intros m; simpl.
  - split; [lia|]. by intros cc ?%elem_of_nil.
  - destruct (IH (Nat.max m (c0.1 + 1))) as [H1 H2]. split; [lia|].
    intros cc [->|Hin]%elem_of_cons; [lia|by apply H2].
Qed.

Lemma maxlayer_fold_ge (runs : list runInfo) (order : list nat) : ∀ m,
  m ≤ foldl (λ m ri, foldl (λ m' cc, Nat.max m' (cc.1 + 1)) m
               (match runs !! ri with Some r => run r | None => [] end)) m order ∧
  ∀ i r cc, i ∈ order → runs !! i = Some r → cc ∈ run r →
    cc.1 < foldl (λ m ri, foldl (λ m' cc, Nat.max m' (cc.1 + 1)) m
               (match runs !! ri with Some r => run r | None => [] end)) m order.
Proof.
  induction order as [|ri order IH]; intros m.
  - split; [simpl; lia|]. by intros i r cc ?%elem_of_nil.
  - cbn [foldl].
    pose proof (maxlayer_inner_ge
      (match runs !! ri with Some r => run r | None => [] end) m) as [Hm Hin].
    destruct (IH (foldl (λ m' cc, Nat.max m' (cc.1 + 1)) m
      (match runs !! ri with Some r => run r | None => [] end))) as [H1 H2].
    split; [lia|]. intros i r cc [->|Hi]%elem_of_cons Hr Hcc; [|by eapply H2].
    rewrite Hr in Hin, H1. specialize (Hin cc Hcc). rewrite Hr. lia.
Qed.

Lemma maxlayer_of_ge runs order : ∀ i r cc,
  i ∈ order → runs !! i = Some r → cc ∈ run r → cc.1 < maxlayer_of runs order.
Proof. intros i r cc. apply maxlayer_fold_ge. Qed.

Lemma elem_of_flat_map {A B} (f : A → list B) (l : list A) (b : B) :
  b ∈ flat_map f l ↔ ∃ a, a ∈ l ∧ b ∈ f a.
Proof.
  rewrite list_elem_of_In, in_flat_map. split; intros (a & Ha & Hb); exists a.
  - by rewrite !list_elem_of_In.
  - by rewrite <- !list_elem_of_In.
Qed.

(** The commands a run shows on its line: all of them, or only the
    rectangles when the run is a blank, or none when it is a soft hyphen
    inside the line. *)
Lemma emit_run_elem is_last r lay cc :
  cc ∈ emit_run is_last r lay ↔
  cc.1 = lay ∧ cc ∈ run r ∧ (shy r = false ∨ is_last = true) ∧
  (space r = true → command cc.2 = CMD_RECT).
Proof.
  unfold emit_run. destruct (shy r), is_last, (space r); simpl;
    rewrite ?list_elem_of_filter, ?elem_of_nil; intuition congruence.
Qed.

Lemma line_commands_elem runs order runstart spos cc :
  (∀ i, runstart ≤ i < spos → i ∈ order) →
  cc ∈ line_commands runs order runstart spos ↔
  ∃ i r, runstart ≤ i < spos ∧ runs !! i = Some r ∧ cc ∈ run r ∧
         (shy r = false ∨ S i = spos) ∧
         (space r = true → command cc.2 = CMD_RECT).
Proof.
  intros Hcover. unfold line_commands. rewrite elem_of_flat_map. split.
  - intros (layer & _ & Hin). unfold emit_layer in Hin.
    apply elem_of_flat_map in Hin as (i & Hi%elem_of_seq & Hin).
    destruct (runs !! i) as [r|] eqn:Hr; [|by apply elem_of_nil in Hin].
    apply emit_run_elem in Hin as (_ & Hcc & Hvis & Hsp).
    exists i, r. repeat split; try done; try lia.
    destruct Hvis as [?|Hl]; [by left|right]. by apply Nat.eqb_eq in Hl.
  - intros (i & r & Hi & Hr & Hcc & Hvis & Hsp).
    pose proof (maxlayer_of_ge runs order i r cc (Hcover i Hi) Hr Hcc) as Hlt.
    exists (maxlayer_of runs order - cc.1 - 1). split; [apply elem_of_seq; lia|].
    unfold emit_layer. apply elem_of_flat_map. exists i.
    split; [apply elem_of_seq; lia|]. rewrite Hr. apply emit_run_elem.
    repeat split; try done; [lia|].
    destruct Hvis as [?|Hl]; [by left|right]. by apply Nat.eqb_eq.
Qed.

Section LineFacts.
Context {F : FloatOps}.

Lemma foldl_addCommand_frame cs : ∀ l,
  firstBaseline (foldl addCommand l cs) = firstBaseline l ∧
  layout_left (foldl addCommand l cs) = layout_left l ∧
  layout_right (foldl addCommand l cs) = layout_right l.
Proof.
  induction cs as [|cmd cs IH]; intros l; simpl; [done|].
  by destruct (IH (addCommand l cmd)) as (-> & -> & ->).
Qed.

Lemma addLine_layout runstart spos runs l ypos cw left right lf ns prop runs' l' :
  addLine runstart spos runs l ypos cw left right lf ns prop = Ret (runs', l') →
  ∃ order, order ≡ₚ seq runstart (spos - runstart) ∧
           data l' = data l ++ (line_commands runs' order runstart spos).*2 ∧
           height l' = height l ∧ firstBaseline l' = firstBaseline l ∧
           layout_left l' = layout_left l ∧ layout_right l' = layout_right l.
Proof.
  unfold addLine. intros H. case_bool_decide; [done|].
  destruct (line_start prop left (right - left - cw) lf ns) as [xpos sa].
  res_inv H. destruct a0 as [r t]. injection H as <- <-.
  eexists. split; [apply reorder_perm|].
  match goal with |- context [foldl addCommand ?l0 ?cs] =>
    destruct (foldl_addCommand cs l0) as (-> & _ & ->);
    destruct (foldl_addCommand_frame cs l0) as (-> & -> & ->) end.
  done.
Qed.

(** X16: what [addLine] adds to the layout: a command is in the layout
    afterwards exactly when it was there before or is a command of a run
    of the line that is shown, that is, any command of a run that is
    neither a blank nor a soft hyphen inside the line, a rectangle of a
    blank, or a command of the soft hyphen that ends the line; glyphs of
    blanks and of soft hyphens inside the line are never drawn.  The
    commands the layout had stay in front, and first baseline, height
    and envelope of the layout are not touched. *)
Theorem addLine_draws_what_is_shown (runstart spos : nat) (runs : list runInfo)
    (l : TextLayout_c) (ypos curWidth left right lineflags numSpace : Z)
    (prop : LayoutProperties_c) (runs' : list runInfo) (l' : TextLayout_c) :
  addLine runstart spos runs l ypos curWidth left right lineflags numSpace prop
    = Ret (runs', l') →
  (∀ cmd, cmd ∈ data l' ↔
          cmd ∈ data l ∨
          ∃ i r lay, runstart ≤ i < spos ∧ runs' !! i = Some r ∧ (lay, cmd) ∈ run r ∧
                     (shy r = false ∨ S i = spos) ∧
                     (space r = true → command cmd = CMD_RECT)) ∧
  data l `prefix_of` data l' ∧
  height l' = height l ∧ firstBaseline l' = firstBaseline l ∧
  layout_left l' = layout_left l ∧ layout_right l' = layout_right l.
Proof.
  intros H. apply addLine_layout in H as (order & Hperm & Hdata & Hrest).
  split; [|split; [rewrite Hdata; by apply prefix_app_r|done]].
  intros cmd. rewrite Hdata, elem_of_app, list_elem_of_fmap.
  assert (∀ i, runstart ≤ i < spos → i ∈ order) as Hcover.
  { intros i Hi. rewrite Hperm. apply elem_of_seq. lia. }
  split.
  - intros [?|([lay c0] & -> & Hin)]; [by left|right].
    apply line_commands_elem in Hin as (i & r & ? & ? & ? & ? & ?); [|done].
    by exists i, r, lay.
  - intros [?|(i & r & lay & ? & ? & ? & ? & ?)]; [by left|right].
    exists (lay, cmd). split; [done|]. apply line_commands_elem; [done|].
    by exists i, r.
Qed.

End LineFacts.

(** *** Where a line puts its runs *)

Lemma run_levels_fmap runs order levels :
  run_levels runs order = Ret levels →
  levels = (λ ri, match runs !! ri with Some r => embeddingLevel r | None => 0%Z end)
             <$> order.
Proof.
  revert levels. induction order as [|ri order IH]; intros levels H; simpl in H.
  - by injection H as <-.
  - destruct (at_ runs ri) as [r| | |] eqn:Hr; try discriminate H. simpl in H.
    destruct (run_levels runs order) as [ls| | |]; try discriminate H. simpl in H.
    injection H as <-. apply at_lookup in Hr. rewrite fmap_cons, Hr.
    f_equal. by apply IH.
Qed.

Lemma placed_measures_insert spos lf runs pre ri r r' :
  runs !! ri = Some r → shy r' = shy r → space r' = space r → dx r' = dx r →
  placed_width spos lf (<[ri := r']> runs) pre = placed_width spos lf runs pre ∧
  placed_spaces spos (<[ri := r']> runs) pre = placed_spaces spos runs pre.
Proof.
  intros Hr Hshy Hsp Hdx. unfold placed_width, placed_spaces.
  split; f_equal; apply list_fmap_ext; intros _ j _;
    (destruct (decide (j = ri)) as [->|Hne];
     [rewrite list_lookup_insert_eq by (by eapply lookup_lt_Some);
      by rewrite Hr, Hshy, Hsp, ?Hdx
     |by rewrite list_lookup_insert_ne]).
Qed.

Lemma placed_width_cons spos lf runs ri0 pre r0 :
  runs !! ri0 = Some r0 →
  placed_width spos lf runs (ri0 :: pre)
  = ((if negb (shy r0) || Nat.eqb (S ri0) spos then
        if space r0 && has_flag lf LF_SMALL_SPACE
        then (9 * dx r0) `quot` 10 else dx r0
      else 0) + placed_width spos lf runs pre)%Z.
Proof. intros H. unfold placed_width. rewrite fmap_cons. cbn [Zsum foldr]. by rewrite H. Qed.

Lemma placed_spaces_cons spos runs ri0 pre r0 :
  runs !! ri0 = Some r0 →
  placed_spaces spos runs (ri0 :: pre)
  = ((if (negb (shy r0) || Nat.eqb (S ri0) spos) && space r0 then 1 else 0)
     + placed_spaces spos runs pre)%Z.
Proof. intros H. unfold placed_spaces. rewrite fmap_cons. cbn [Zsum foldr]. by rewrite H. Qed.

Section Placement.
Context {F : FloatOps}.

Lemma place_cmd_placed is_space sa off ypos cc :
  placed is_space sa off ypos cc (place_cmd is_space sa off ypos cc).
Proof.
  unfold placed, place_cmd. destruct is_space; simpl; [|done].
  destruct (command cc.2) eqn:Hc; simpl; rewrite ?Hc; done.
Qed.

Lemma place_loop_spec spos ypos lf sa order :
  ∀ runs txl xpos2 ns runs' txl',
  NoDup order →
  place_loop spos ypos lf sa order runs txl xpos2 ns = Ret (runs', txl') →
  (∀ i, i ∉ order → runs' !! i = runs !! i) ∧
  (∀ pre ri post r,
     order = pre ++ ri :: post → runs !! ri = Some r →
     runs' !! ri
     = Some (if negb (shy r) || Nat.eqb (S ri) spos then
               set_run_cmds r
                 (place_cmd (space r) sa
                    (run_offset (xpos2 + placed_width spos lf runs pre) sa
                                (ns + placed_spaces spos runs pre)) ypos <$> run r)
                 (if space r then widen_first_area sa (r_links r) else r_links r)
             else r)).
Proof.
  induction order as [|ri0 order IH]; intros runs txl xpos2 ns runs' txl' Hnd H.
  - simpl in H. injection H as <- <-. split; [done|].
    intros pre ri post r Ho. by destruct pre.
  - apply NoDup_cons in Hnd as [Hnotin Hnd]. cbn [place_loop] in H.
    destruct (at_ runs ri0) as [r0| | |] eqn:Hr0; try discriminate H.
    apply at_lookup in Hr0. simpl in H.
    match type of H with (if ?b then _ else _) = _ =>
      change b with (negb (shy r0) || Nat.eqb (S ri0) spos) in H end.
    destruct (negb (shy r0) || Nat.eqb (S ri0) spos) eqn:Hshown.
    + match type of H with
      | place_loop _ _ _ _ _ (<[_ := ?r1]> _) _ _ _ = _ => set (r0' := r1) in *
      end.
      apply IH in H as [Hframe Hspec]; [|done].
      destruct (placed_measures_insert spos lf runs [] ri0 r0 r0' Hr0
                  eq_refl eq_refl eq_refl) as [_ _].
      split.
      * intros i Hi. apply not_elem_of_cons in Hi as [Hne Hi].
        rewrite Hframe by done. by apply list_lookup_insert_ne.
      * intros pre ri post r Ho Hr. destruct pre as [|p pre].
        -- injection Ho as <- <-. rewrite Hframe by done.
           rewrite list_lookup_insert_eq by (by eapply lookup_lt_Some).
           rewrite Hr0 in Hr. injection Hr as <-. rewrite Hshown.
           unfold placed_width, placed_spaces. simpl. by rewrite !Z.add_0_r.
        -- injection Ho as <- Ho.
           assert (ri ≠ ri0) as Hne.
           { intros ->. apply Hnotin. rewrite Ho. apply elem_of_app. right. by left. }
           rewrite (Hspec pre ri post r Ho)
             by (by rewrite list_lookup_insert_ne).
           destruct (placed_measures_insert spos lf runs pre ri0 r0 r0' Hr0
                       eq_refl eq_refl eq_refl) as [-> ->].
           rewrite (placed_width_cons _ _ _ _ _ _ Hr0), (placed_spaces_cons _ _ _ _ _ Hr0).
           rewrite Hshown. simpl.
           match goal with |- context [run_offset ?a _ ?b] =>
             match goal with |- context [run_offset ?a' _ ?b'] =>
               replace a' with a; [replace b' with b; [done|]|] end end.
           ++ destruct (space r0); simpl; lia.
           ++ destruct (space r0), (has_flag lf LF_SMALL_SPACE); simpl; lia.
    + apply IH in H as [Hframe Hspec]; [|done]. split.
      * intros i Hi. apply not_elem_of_cons in Hi as [Hne Hi]. by apply Hframe.
      * intros pre ri post r Ho Hr. destruct pre as [|p pre].
        -- injection Ho as <- <-. rewrite Hframe by done.
           rewrite Hr0 in Hr. injection Hr as <-. by rewrite Hr0, Hshown.
        -- injection Ho as <- Ho. rewrite (Hspec pre ri post r Ho Hr).
           rewrite (placed_width_cons _ _ _ _ _ _ Hr0), (placed_spaces_cons _ _ _ _ _ Hr0).
           rewrite Hshown. simpl. by rewrite !Z.add_0_l.
Qed.

End Placement.

Section LinePlacement.
Context {F : FloatOps}.

Lemma line_start_table (prop : LayoutProperties_c) (left spaceLeft lineflags numSpace : Z) :
  (0 ≤ numSpace)%Z →
  let first := has_flag lineflags LF_FIRST in
  let plain := has_flag lineflags LF_LAST || (numSpace =? 0)%Z in
  line_start prop left spaceLeft lineflags numSpace
  = (match align prop with
     | ALG_LEFT | ALG_JUSTIFY_LEFT => if first then left + indent prop else left
     | ALG_RIGHT => left + spaceLeft
     | ALG_CENTER => left + spaceLeft `quot` 2
     | ALG_JUSTIFY_RIGHT => if plain then left + spaceLeft else left
     end%Z,
     match align prop with
     | ALG_JUSTIFY_LEFT | ALG_JUSTIFY_RIGHT =>
         if plain then of_int 0
         else fdiv (fmul (of_int 1) (of_int spaceLeft)) (of_int numSpace)
     | _ => of_int 0
     end).
Proof.
  intros Hn first plain. subst first plain. unfold line_start, space_share.
  destruct (align prop); try reflexivity;
    destruct (has_flag lineflags LF_LAST); simpl;
    rewrite ?andb_false_r, ?andb_true_r; try reflexivity;
    destruct (Z.ltb_spec 0 numSpace), (Z.eqb_spec numSpace 0);
    try reflexivity; lia.
Qed.

Lemma addLine_parts runstart spos runs l ypos cw left right lf ns prop runs' l' :
  addLine runstart spos runs l ypos cw left right lf ns prop = Ret (runs', l') →
  let lvl := λ ri, match runs !! ri with Some r => embeddingLevel r | None => 0%Z end in
  let order0 := seq runstart (spos - runstart) in
  let runorder := reorder lvl (foldl Z.max 0%Z (lvl <$> order0)) order0 in
  ∃ txl,
    place_loop spos ypos lf (line_start prop left (right - left - cw) lf ns).2
      runorder runs (links l) (line_start prop left (right - left - cw) lf ns).1 0%Z
    = Ret (runs', txl) ∧
    data l' = data l ++ (line_commands runs' runorder runstart spos).*2 ∧
    NoDup runorder ∧ (∀ i, i ∈ runorder ↔ runstart ≤ i < spos).
Proof.
  intros H lvl order0 runorder. unfold addLine in H. case_bool_decide as Hlt; [done|].
  destruct (run_levels runs (seq runstart (spos - runstart))) as [levels| | |] eqn:Hlv;
    try discriminate H.
  apply run_levels_fmap in Hlv. fold lvl order0 in Hlv. subst levels.
  simpl in H. fold lvl order0 runorder in H.
  destruct (line_start prop left (right - left - cw) lf ns) as [xpos sa]. simpl.
  destruct (place_loop spos ypos lf sa runorder runs (links l) xpos 0%Z)
    as [[r t]| | |] eqn:Hpl; try discriminate H.
  simpl in H. injection H as <- <-. exists t. split; [done|].
  split; [by rewrite (proj1 (foldl_addCommand _ _))|].
  assert (runorder ≡ₚ order0) as Hperm by apply reorder_perm.
  split.
  - rewrite Hperm. apply NoDup_seq.
  - intros i. rewrite Hperm. subst order0. rewrite elem_of_seq. lia.
Qed.

(** C5: where [addLine] puts the runs of a line.  With
    [spaceLeft = right - left - curWidth], a line that is "first" or
    "last" by its flags and [numSpace] the number of spaces handed in,
    the line starts at [xpos] and every blank grows by [spaceadder] as
    the alignment table says: left and justified-left lines start at
    [left], plus the indent on a first line; right lines at
    [left + spaceLeft]; centred lines at [left + spaceLeft/2];
    justified-right lines at [left], or at [left + spaceLeft] when the
    line is the last or has no spaces; [spaceadder] is
    [1.0 * spaceLeft / numSpace] on a justified line that is not the
    last and has spaces, and 0 everywhere else.  Every run that is shown
    has its commands moved down to [ypos] and right to [xpos] plus the
    widths of the runs before it in visual order plus [spaceadder] for
    every blank before it; the underline of a blank is widened by
    [spaceadder]. *)
Theorem addLine_alignment_table (runstart spos : nat) (runs : list runInfo)
    (l : TextLayout_c) (ypos curWidth left right lineflags numSpace : Z)
    (prop : LayoutProperties_c) (runs' : list runInfo) (l' : TextLayout_c) :
  (0 ≤ numSpace)%Z →
  addLine runstart spos runs l ypos curWidth left right lineflags numSpace prop
    = Ret (runs', l') →
  let spaceLeft := (right - left - curWidth)%Z in
  let first := has_flag lineflags LF_FIRST in
  let plain := has_flag lineflags LF_LAST || (numSpace =? 0)%Z in
  let xpos :=
    match align prop with
    | ALG_LEFT | ALG_JUSTIFY_LEFT => if first then left + indent prop else left
    | ALG_RIGHT => left + spaceLeft
    | ALG_CENTER => left + spaceLeft `quot` 2
    | ALG_JUSTIFY_RIGHT => if plain then left + spaceLeft else left
    end%Z in
  let spaceadder :=
    match align prop with
    | ALG_JUSTIFY_LEFT | ALG_JUSTIFY_RIGHT =>
        if plain then of_int 0
        else fdiv (fmul (of_int 1) (of_int spaceLeft)) (of_int numSpace)
    | _ => of_int 0
    end in
  let lvl := λ ri, match runs !! ri with Some r => embeddingLevel r | None => 0%Z end in
  let order0 := seq runstart (spos - runstart) in
  let runorder := reorder lvl (foldl Z.max 0%Z (lvl <$> order0)) order0 in
  ∀ pre ri post r,
    runorder = pre ++ ri :: post →
    runs !! ri = Some r →
    shy r = false ∨ S ri = spos →
    let off := fadd (of_int (xpos + placed_width spos lineflags runs pre))
                    (fmul spaceadder (of_int (placed_spaces spos runs pre))) in
    ∃ r', runs' !! ri = Some r' ∧
          Forall2 (placed (space r) spaceadder off ypos) (run r) (run r') ∧
          dx r' = dx r ∧ space r' = space r ∧ shy r' = shy r.
Proof.
  intros Hn H spaceLeft first plain xpos spaceadder lvl order0 runorder
    pre ri post r Ho Hr Hvis off.
  apply addLine_parts in H as (txl & Hpl & _ & Hnd & _).
  fold lvl order0 runorder spaceLeft in Hpl.
  rewrite (line_start_table prop left spaceLeft lineflags numSpace Hn) in Hpl.
  cbn [fst snd] in Hpl. fold first plain xpos spaceadder in Hpl.
  apply place_loop_spec in Hpl as [_ Hspec]; [|done].
  specialize (Hspec pre ri post r Ho Hr). rewrite Z.add_0_l in Hspec.
  assert (negb (shy r) || Nat.eqb (S ri) spos = true) as Hshown.
  { destruct Hvis as [-> | ->]; [done|]. rewrite Nat.eqb_refl. by destruct (shy r). }
  rewrite Hshown in Hspec. eexists. split; [exact Hspec|]. simpl.
  split; [|done]. apply Forall2_fmap_r, Forall_Forall2_diag, Forall_forall.
  intros cc _. apply place_cmd_placed.
Qed.

End LinePlacement.

Section LineLayers.
Context {F : FloatOps}.

Lemma placed_keeps_layer is_space sa off ypos cc cc' :
  placed is_space sa off ypos cc cc' → cc'.1 = cc.1 ∧ command cc'.2 = command cc.2.
Proof. by intros (? & ? & _). Qed.

Lemma addLine_runs_kept runstart spos runs l ypos cw left right lf ns prop runs' l' :
  addLine runstart spos runs l ypos cw left right lf ns prop = Ret (runs', l') →
  ∀ i r, runs !! i = Some r →
    ∃ r', runs' !! i = Some r' ∧ shy r' = shy r ∧ space r' = space r ∧
          Forall2 (λ cc cc', cc'.1 = cc.1 ∧ command cc'.2 = command cc.2) (run r) (run r').
Proof.
  intros H i r Hr. apply addLine_parts in H as (txl & Hpl & _ & Hnd & _).
  apply place_loop_spec in Hpl as [Hframe Hspec]; [|done].
  match type of Hnd with NoDup ?o => destruct (decide (i ∈ o)) as [Hin|Hout] end.
  - apply list_elem_of_split in Hin as (pre & post & Ho).
    rewrite (Hspec pre i post r Ho Hr).
    destruct (negb (shy r) || Nat.eqb (S i) spos).
    + eexists. split; [done|]. simpl. split; [done|]. split; [done|].
      apply Forall2_fmap_r, Forall_Forall2_diag, Forall_forall. intros cc _.
      eapply placed_keeps_layer, place_cmd_placed.
    + exists r. split; [done|]. split; [done|]. split; [done|].
      by apply Forall_Forall2_diag, Forall_forall.
  - rewrite (Hframe i Hout). exists r. split; [done|]. split; [done|]. split; [done|].
    by apply Forall_Forall2_diag, Forall_forall.
Qed.

(** C8: the shadow commands of a glyph and of an underline are filed
    under layers above 0 and the glyph, the underline and the commands
    of an inline object under layer 0.  [addLine] appends to the layout
    exactly the commands of the runs of the line that are shown, every
    one of them, with the layers the runs came with, layer by layer
    from the highest down to 0: a command of a higher layer always
    comes before a command of a lower one, so the shadow of a glyph or
    underline comes before its base command. *)
Theorem layers_emitted_in_descending_order :
  (∀ n a f gi gx gy sh,
     glyph_shadows n (seq 0 n) a f gi gx gy = Ret sh → Forall (λ cc, 0 < cc.1) sh) ∧
  (∀ gx gy gw gh a, Forall (λ cc, 0 < cc.1) (underline_shadows gx gy gw gh a)) ∧
  (∀ cmds gx gw prop a,
     addUnderline cmds gx gw prop a = cmds ∨
     ∃ gy gh, addUnderline cmds gx gw prop a
              = cmds ++ underline_shadows gx gy gw gh a
                     ++ [(0, mkRect gx gy gw gh (a_c a) 0%Z)]) ∧
  (∀ view prop f runstart asc g gs cmds rdx a sh,
     att_checked view (g_cluster g) = Ret a →
     a_inlay a = None →
     glyph_shadows (length (a_shadows (att view runstart)))
       (seq 0 (length (a_shadows (att view runstart)))) a f (g_codepoint g) (x_offset g)
       (0 - y_offset g - a_baseline_shift (att view runstart))%Z = Ret sh →
     y_advance g = 0%Z →
     output_loop view prop f runstart asc (g :: gs) cmds rdx
     = output_loop view prop f runstart asc gs
         (addUnderline
            (cmds ++ sh ++ [(0, mkGlyph f (g_codepoint g) (x_offset g)
                                  (0 - y_offset g - a_baseline_shift (att view runstart))%Z
                                  (a_c a) 0%Z)])
            (x_offset g) (x_advance g + 64)%Z prop a)
         rdx) ∧
  (∀ runstart spos runs l ypos curWidth left right lineflags numSpace prop runs' l',
     addLine runstart spos runs l ypos curWidth left right lineflags numSpace prop
       = Ret (runs', l') →
     ∃ new : list (nat * CommandData_c),
       data l' = data l ++ new.*2 ∧
       (∀ i r, runs !! i = Some r →
          ∃ r', runs' !! i = Some r' ∧ shy r' = shy r ∧ space r' = space r ∧
                Forall2 (λ cc cc', cc'.1 = cc.1 ∧ command cc'.2 = command cc.2)
                        (run r) (run r')) ∧
       (∀ cc, cc ∈ new ↔
              ∃ i r', runstart ≤ i < spos ∧ runs' !! i = Some r' ∧ cc ∈ run r' ∧
                      (shy r' = false ∨ S i = spos) ∧
                      (space r' = true → command cc.2 = CMD_RECT)) ∧
       (∀ p q cp cq,
          new !! p = Some cp → new !! q = Some cq →
          (p < q → cq.1 ≤ cp.1) ∧ (cq.1 < cp.1 → p < q)) ∧
       (∀ i r' sh base,
          runstart ≤ i < spos → runs' !! i = Some r' →
          shy r' = false ∨ S i = spos →
          sh ∈ run r' → base ∈ run r' →
          (space r' = true → command sh.2 = CMD_RECT ∧ command base.2 = CMD_RECT) →
          base.1 < sh.1 →
          ∃ p q, p < q ∧ new !! p = Some sh ∧ new !! q = Some base)).
Proof.
  split; [|split; [|split; [|split]]].
  - intros n a f gi gx gy sh. apply glyph_shadows_layers.
    apply Forall_forall. intros j Hj%elem_of_seq. lia.
  - apply underline_shadows_layers.
  - intros cmds gx gw prop a. unfold addUnderline.
    destruct (negb _); [right; by do 2 eexists|by left].
  - intros view prop f runstart asc g gs cmds rdx a sh Ha Hinl Hsh Hy. simpl.
    rewrite Ha. simpl. rewrite Hinl, Hsh. simpl. by rewrite Hy.
  - intros runstart spos runs l ypos curWidth left right lineflags numSpace prop
      runs' l' H.
    pose proof (addLine_runs_kept _ _ _ _ _ _ _ _ _ _ _ _ _ H) as Hkept.
    apply addLine_parts in H as (txl & _ & Hdata & _ & Hcover).
    match type of Hdata with _ = _ ++ (?cmds).*2 => set (new := cmds) in * end.
    assert (∀ cc, cc ∈ new ↔
              ∃ i r', runstart ≤ i < spos ∧ runs' !! i = Some r' ∧ cc ∈ run r' ∧
                      (shy r' = false ∨ S i = spos) ∧
                      (space r' = true → command cc.2 = CMD_RECT)) as Hmem.
    { intros cc. apply line_commands_elem. intros i Hi. by apply Hcover. }
    assert (∀ p q cp cq,
              new !! p = Some cp → new !! q = Some cq →
              (p < q → cq.1 ≤ cp.1) ∧ (cq.1 < cp.1 → p < q)) as Hord.
    { intros p q cp cq Hp Hq. split.
      - intros Hpq. by eapply (sorted_lookup _ _ (line_commands_descend _ _ _ _)).
      - intros Hlt. destruct (decide (p < q)) as [|Hge]; [done|].
        destruct (decide (p = q)) as [->|Hne]; [exfalso; simplify_eq; lia|].
        assert (q < p) as Hqp by lia.
        pose proof (sorted_lookup _ _ (line_commands_descend _ _ _ _)
                      q p cq cp Hq Hp Hqp) as Hle.
        simpl in Hle. lia. }
    exists new. split; [done|]. split; [done|]. split; [done|]. split; [done|].
    intros i r' sh base Hi Hr Hvis Hsh Hbase Hrect Hlt.
    assert (sh ∈ new) as [p Hp]%list_elem_of_lookup.
    { apply Hmem. exists i, r'. repeat split; try done; try lia.
      intros Hs. by apply Hrect. }
    assert (base ∈ new) as [q Hq]%list_elem_of_lookup.
    { apply Hmem. exists i, r'. repeat split; try done; try lia.
      intros Hs. by apply Hrect. }
    exists p, q. split; [|done]. by apply (Hord p q sh base Hp Hq).
Qed.

End LineLayers.

(** *** The vertical extent of a greedily broken paragraph *)

Lemma extend_upright runs n : ∀ c, upright c → upright (extend runs n c).
Proof.
  induction n as [|n IH]; intros c Hc; simpl; [done|].
  destruct (runs !! l_spos c) as [r|]; [|done].
  assert (upright (add_run c r)) as H1.
  { destruct Hc. split; simpl; lia. }
  destruct (break_after runs (l_spos c)); [done|]. by apply IH.
Qed.

Lemma try_extend_upright runs shape ypos runstart cur c fb :
  upright cur → try_extend runs shape ypos runstart cur = Ret (Commit c fb) → upright c.
Proof.
  intros Hc H. unfold try_extend in H.
  pose proof (extend_upright runs (length runs - l_spos cur) cur Hc) as Hu.
  destruct (bool_decide (runstart < l_spos cur) && overruns shape ypos (candidate runs cur));
    [discriminate|].
  destruct (bool_decide (runstart < l_spos cur)); res_inv H; injection H as <- _;
    exact Hu.
Qed.

Lemma fill_line_upright fuel runs shape ypos runstart : ∀ cur c fb,
  upright cur → fill_line fuel runs shape ypos runstart cur = Ret (c, fb) → upright c.
Proof.
  induction fuel as [|fuel IH]; intros cur c fb Hc; simpl.
  - case_bool_decide; [done|]. by intros [= <- _].
  - case_bool_decide as Hlt; [|by intros [= <- _]].
    destruct (try_extend runs shape ypos runstart cur) as [s| | |] eqn:E; simpl; try done.
    destruct s as [|c' [|]].
    + by intros [= <- _].
    + intros [= <- _]. by eapply try_extend_upright.
    + intros H. eapply IH; [|done]. by eapply try_extend_upright.
Qed.

Section GreedyExtent.
Context {F : FloatOps}.

Lemma breakLines_iter_extent shape prop st st' :
  breakLines_iter shape prop st = Ret st' →
  (b_ypos st ≤ b_ypos st')%Z ∧ firstline st' = false ∧
  (if firstline st
   then (b_ypos st ≤ firstBaseline (b_layout st') ≤ b_ypos st')%Z
   else firstBaseline (b_layout st') = firstBaseline (b_layout st)).
Proof.
  unfold breakLines_iter. intros H.
  set (runs := b_runs st) in *. set (runstart := scan_while _ _ _) in *.
  set (cur0 := {| curAscend := 0; curDescend := 0; curWidth := _;
                  l_spos := runstart; numSpace := 0 |}) in *.
  destruct (fill_line (length runs) runs shape (b_ypos st) runstart cur0)
    as [[cur fb]| | |] eqn:Hfill; try done. simpl in H.
  apply fill_line_upright in Hfill as [Ha Hd]; [|split; simpl; lia].
  match type of H with context [addLine ?a ?b ?c ?d ?e ?f ?g ?h ?i ?j ?k] =>
    destruct (addLine a b c d e f g h i j k) as [[runs' l']| | |] eqn:Hadd; try done end.
  simpl in H. injection H as <-. simpl.
  apply addLine_layout in Hadd as (_ & _ & _ & _ & Hfb & _).
  split; [lia|split; [done|]].
  destruct (firstline st); simpl; [lia|done].
Qed.

Lemma breakLines_loop_extent shape prop fuel : ∀ st st',
  breakLines_loop fuel shape prop st = Ret st' →
  (b_ypos st ≤ b_ypos st')%Z ∧
  (b_runstart st < length (b_runs st) → firstline st' = false) ∧
  (firstline st = false → firstline st' = false) ∧
  (b_runstart st < length (b_runs st) → firstline st = true →
   (b_ypos st ≤ firstBaseline (b_layout st') ≤ b_ypos st')%Z) ∧
  (firstline st = false → firstBaseline (b_layout st') = firstBaseline (b_layout st)) ∧
  (¬ b_runstart st < length (b_runs st) → st' = st).
Proof.
  induction fuel as [|fuel IH]; intros st st'; simpl.
  - case_bool_decide; [done|]. intros [= <-]. repeat split; try done; lia.
  - case_bool_decide as Hlt; [|intros [= <-]; repeat split; try done; lia].
    destruct (breakLines_iter shape prop st) as [st1| | |] eqn:Hit; simpl; try done.
    intros Hloop. apply breakLines_iter_extent in Hit as (Hy & Hf & Hb).
    apply IH in Hloop as (Hy' & _ & Hf' & _ & Hb' & _).
    specialize (Hf' Hf). specialize (Hb' Hf).
    split; [lia|]. split; [done|]. split; [done|]. split; [|split].
    + intros _ Hfirst. rewrite Hfirst in Hb. rewrite Hb'. lia.
    + intros Hfirst. rewrite Hfirst in Hb. by rewrite Hb', Hb.
    + done.
Qed.

(** X17: the vertical extent of a paragraph broken by [breakLines]:
    the layout never ends above the place it was started at; its left
    and right limits are those of the shape between the start and the
    height it reports; for no runs the height is the start and nothing
    is drawn; and for at least one run the first baseline lies between
    the start and the height. *)
Theorem breakLines_vertical_extent (runs : list runInfo) (shape : Shape_c)
    (prop : LayoutProperties_c) (ystart : Z) (l : TextLayout_c) :
  breakLines runs shape prop ystart = Ret l →
  (ystart ≤ height l)%Z ∧
  layout_left l = getLeft2 shape ystart (height l) ∧
  layout_right l = getRight2 shape ystart (height l) ∧
  (runs = [] → height l = ystart ∧ data l = []) ∧
  (runs ≠ [] → (ystart ≤ firstBaseline l ≤ height l)%Z).
Proof.
  unfold breakLines. intros H.
  destruct (breakLines_loop (length runs) shape prop _) as [st| | |] eqn:Hloop;
    try done.
  simpl in H. injection H as <-. simpl.
  apply breakLines_loop_extent in Hloop as (Hy & _ & _ & Hb & _ & Hid). simpl in *.
  split; [done|]. split; [done|]. split; [done|]. split.
  - intros ->. by rewrite Hid by (simpl; lia).
  - intros Hne. apply Hb; [|done]. destruct runs; [done|simpl; lia].
Qed.

End GreedyExtent.

(** *** The optimizing line breaker: measuring and ending *)

Section OptimizerLines.
Context {F : FloatOps}.

Lemma Zsum_cons a l : Zsum (a :: l) = (a + Zsum l)%Z.
Proof. reflexivity. Qed.

Lemma measure_loop_sum runs s2 js : ∀ m m',
  measure_loop runs s2 js m = Ret m' →
  Width m' = (Width m + Zsum (measured_advance runs s2 <$> js))%Z ∧
  (Ascend m ≤ Ascend m')%Z ∧ (Descend m' ≤ Descend m)%Z ∧ (Space m ≤ Space m')%Z.
Proof.
  induction js as [|j js IH]; intros m m' H.
  - injection H as <-. cbn. lia.
  - rewrite fmap_cons, Zsum_cons. cbn [measure_loop] in H.
    destruct (at_ runs j) as [r| | |] eqn:Hr; simpl in H; try done.
    apply at_lookup in Hr. unfold measured_advance at 1. rewrite Hr.
    revert H. simpl (Nat.eqb _ _).
    destruct (negb (shy r) || _); [destruct (space r)|];
      intros H; apply IH in H as (-> & ? & ? & ?); simpl in *; repeat split; lia.
Qed.

Lemma skip_fwd_first runs n : ∀ s1 s,
  skip_fwd runs n s1 = Ret s →
  s1 ≤ s ∧
  (∀ j, s1 ≤ j < s → ∃ r, runs !! j = Some r ∧ space r = true) ∧
  ∃ r, runs !! s = Some r ∧ space r = false.
Proof.
  induction n as [|n IH]; intros s1 s; simpl.
  - destruct (at_ runs s1) as [r| | |] eqn:Hr; simpl; try done.
    destruct (space r) eqn:Hs; [done|]. intros [= <-]. split; [lia|].
    split; [intros; lia|]. exists r. by apply at_lookup in Hr.
  - destruct (at_ runs s1) as [r| | |] eqn:Hr; simpl; try done.
    apply at_lookup in Hr. destruct (space r) eqn:Hs.
    + intros H. apply IH in H as (? & Hbl & ?). split; [lia|]. split; [|done].
      intros j Hj. destruct (decide (j = s1)) as [->|Hne]; [by exists r|].
      apply Hbl. lia.
    + intros [= <-]. split; [lia|]. split; [intros; lia|]. by exists r.
Qed.

Lemma skip_bwd_last runs : ∀ s2 s,
  skip_bwd runs s2 = Ret s →
  0 < s ≤ s2 ∧
  (∀ j, s ≤ j < s2 → ∃ r, runs !! j = Some r ∧ space r = true) ∧
  ∃ r, runs !! (s - 1) = Some r ∧ space r = false.
Proof.
  induction s2 as [|p IH]; intros s; simpl; [done|].
  destruct (at_ runs p) as [r| | |] eqn:Hr; simpl; try done.
  apply at_lookup in Hr. destruct (space r) eqn:Hs.
  - intros H. apply IH in H as (? & Hbl & ?). split; [lia|]. split; [|done].
    intros j Hj. destruct (decide (j = p)) as [->|Hne]; [by exists r|].
    apply Hbl. lia.
  - intros [= <-]. split; [lia|]. split; [intros; lia|]. exists r.
    by replace (S p - 1) with p by lia.
Qed.

Lemma eval_start_from runs shape prop prev i st e :
  eval_start runs shape prop prev i st = Ret (Cand e) →
  from e = st - 1 ∧ start e = false.
Proof.
  unfold eval_start. intros H.
  destruct (skip_fwd runs (length runs) (st - 1)) as [s1| | |]; try discriminate.
  destruct (skip_bwd runs i) as [s2| | |]; try discriminate. simpl in H.
  destruct (measure_loop _ _ _ _) as [m| | |]; try discriminate. simpl in H.
  destruct (_ <? _)%Z; try discriminate.
  destruct (at_ runs (s2 - 1)) as [last| | |]; try discriminate. simpl in H.
  destruct (at_forced_end runs i) as [b| | |]; try discriminate. simpl in H.
  destruct (final_demerits _ _ _ _). by injection H as <-.
Qed.

(** X18: a line the optimizing breaker accepts as a candidate, from the
    break [st-1] to the break [i].  It is measured from [s1], the first
    run at or behind [st-1] that is not a blank, to [s2], which follows
    the last run before [i] that is not a blank: the runs from [st-1]
    up to [s1] and from [s2] up to [i] are all blanks.  Its width is the
    indent, on a first line that is not centred, plus the advances of
    the runs from [s1] up to [s2], a blank at nine tenths of its advance
    and a soft hyphen inside the line at nothing; with that width the
    line fits between the limits of the shape at its height; and it
    ends at or below the line before it. *)
Theorem optimizer_candidate_fits (runs : list runInfo) (shape : Shape_c)
    (prop : LayoutProperties_c) (prev e : lineinfo) (i st : nat) :
  eval_start runs shape prop prev i st = Ret (Cand e) →
  ∃ s1 s2,
    st - 1 ≤ s1 ∧ 0 < s2 ≤ i ∧
    (∀ j, st - 1 ≤ j < s1 → ∃ r, runs !! j = Some r ∧ space r = true) ∧
    (∃ r, runs !! s1 = Some r ∧ space r = false) ∧
    (∀ j, s2 ≤ j < i → ∃ r, runs !! j = Some r ∧ space r = true) ∧
    (∃ r, runs !! (s2 - 1) = Some r ∧ space r = false ∧ hypen e = shy r) ∧
    li_width e
      = ((if Nat.eqb st 1 && negb (is_center (align prop)) then indent prop else 0)
         + Zsum (measured_advance runs s2 <$> seq s1 (s2 - s1)))%Z ∧
    (getLeft shape (li_ypos prev) (li_ypos e) + li_width e
       ≤ getRight shape (li_ypos prev) (li_ypos e))%Z ∧
    li_ypos e = (li_ypos prev + li_ascend e - li_descend e)%Z ∧
    (0 ≤ li_ascend e)%Z ∧ (li_descend e ≤ 0)%Z ∧ (0 ≤ li_spaces e)%Z ∧
    from e = st - 1 ∧ start e = false.
Proof.
  intros H. pose proof (eval_start_from _ _ _ _ _ _ _ H) as [Hfrom Hstart].
  unfold eval_start in H.
  destruct (skip_fwd runs (length runs) (st - 1)) as [s1| | |] eqn:H1; try discriminate.
  destruct (skip_bwd runs i) as [s2| | |] eqn:H2; try discriminate. simpl in H.
  destruct (measure_loop _ _ _ _) as [m| | |] eqn:Hm; try discriminate. simpl in H.
  destruct (_ <? _)%Z eqn:Hfit; try discriminate.
  destruct (at_ runs (s2 - 1)) as [last| | |] eqn:Hl; try discriminate. simpl in H.
  destruct (at_forced_end runs i) as [b| | |]; try discriminate. simpl in H.
  destruct (final_demerits _ _ _ _). injection H as <-. simpl in *.
  apply skip_fwd_first in H1 as (Hs1 & Hb1 & Hr1).
  apply skip_bwd_last in H2 as (Hs2 & Hb2 & r2 & Hr2 & Hsp2).
  apply measure_loop_sum in Hm as (Hw & Ha & Hd & Hs). simpl in *.
  apply at_lookup in Hl. rewrite Hr2 in Hl. injection Hl as <-.
  exists s1, s2. repeat split; try done; try lia.
  by exists r2.
Qed.

Lemma skip_fwd_not_fuel runs n : ∀ s1,
  length runs ≤ s1 + n → skip_fwd runs n s1 ≠ OutOfFuel.
Proof.
  induction n as [|n IH]; intros s1 Hn; simpl.
  - destruct (at_ runs s1) as [r| | |] eqn:Hr; simpl; try done.
    + apply at_lookup, lookup_lt_Some in Hr. lia.
    + by apply at_not_fuel in Hr.
  - destruct (at_ runs s1) as [r| | |] eqn:Hr; simpl; try done.
    + destruct (space r); [|done]. apply IH. lia.
    + by apply at_not_fuel in Hr.
Qed.

Lemma skip_bwd_not_fuel runs : ∀ s2, skip_bwd runs s2 ≠ OutOfFuel.
Proof.
  induction s2 as [|p IH]; simpl; [done|].
  destruct (at_ runs p) as [r| | |] eqn:Hr; simpl; try done.
  - by destruct (space r).
  - by apply at_not_fuel in Hr.
Qed.

Lemma measure_loop_not_fuel runs s2 js : ∀ m, measure_loop runs s2 js m ≠ OutOfFuel.
Proof.
  induction js as [|j js IH]; intros m; simpl; [done|].
  destruct (at_ runs j) as [r| | |] eqn:Hr; simpl; try done.
  - destruct (negb (shy r) || _); [destruct (space r)|]; apply IH.
  - by apply at_not_fuel in Hr.
Qed.

Lemma at_forced_end_not_fuel runs i : at_forced_end runs i ≠ OutOfFuel.
Proof.
  unfold at_forced_end.
  destruct (at_ runs (i - 1)) as [r| | |] eqn:Hr; simpl; try done.
  by apply at_not_fuel in Hr.
Qed.

Lemma eval_start_not_fuel runs shape prop prev i st :
  eval_start runs shape prop prev i st ≠ OutOfFuel.
Proof.
  unfold eval_start.
  destruct (skip_fwd runs (length runs) (st - 1)) as [s1| | |] eqn:H1; simpl; try done;
    [|by apply skip_fwd_not_fuel in H1; [|lia]].
  destruct (skip_bwd runs i) as [s2| | |] eqn:H2; simpl; try done;
    [|by apply skip_bwd_not_fuel in H2].
  destruct (measure_loop _ _ _ _) as [m| | |] eqn:Hm; simpl; try done;
    [|by apply measure_loop_not_fuel in Hm].
  destruct (_ <? _)%Z; [done|].
  destruct (at_ runs (s2 - 1)) as [last| | |] eqn:Hl; simpl; try done;
    [|by apply at_not_fuel in Hl].
  destruct (at_forced_end runs i) as [b| | |] eqn:He; simpl; try done;
    [|by apply at_forced_end_not_fuel in He].
  by destruct (final_demerits _ _ _ _).
Qed.

Lemma backlinks_insert li k e :
  backlinks li → (start e = true ∨ from e < k) → backlinks (<[k := e]> li).
Proof.
  intros Hb He j e' Hj. destruct (decide (j = k)) as [->|Hne].
  - assert (k < length li) as Hk.
    { apply lookup_lt_Some in Hj. by rewrite length_insert in Hj. }
    rewrite list_lookup_insert_eq in Hj by done. by injection Hj as <-.
  - rewrite list_lookup_insert_ne in Hj by done. by eapply Hb.
Qed.

Lemma starts_loop_frame runs shape prop i sts : ∀ li li',
  Forall (λ st, 1 ≤ st ≤ i) sts →
  starts_loop runs shape prop i sts li = Ret li' →
  length li' = length li ∧
  (∀ j, j ≠ i → li' !! j = li !! j) ∧
  (li' !! i = li !! i ∨
   ∃ e, li' !! i = Some e ∧ from e < i ∧ start e = false) ∧
  (backlinks li → backlinks li').
Proof.
  induction sts as [|st sts IH]; intros li li' Hsts; simpl.
  - intros [= <-]. repeat split; try done. by left.
  - apply Forall_cons in Hsts as [Hst Hsts].
    destruct (at_ li (st - 1)) as [prev| | |] eqn:Hp; simpl; try done.
    destruct (feq (demerits prev) (of_int INT_MAX)); [by apply IH|].
    destruct (eval_start runs shape prop prev i st) as [[|e]| | |] eqn:Hev; simpl;
      try done.
    { intros [= <-]. repeat split; try done. by left. }
    destruct (at_ li i) as [cur| | |] eqn:Hc; simpl; try done.
    destruct (flt (demerits e) (demerits cur)); [|by apply IH].
    intros H. apply IH in H as (Hlen & Hother & Hi & Hb); [|done].
    apply eval_start_from in Hev as [Hfrom Hstart].
    rewrite length_insert in Hlen. split; [done|]. split; [|split].
    + intros j Hj. rewrite Hother by done. by rewrite list_lookup_insert_ne.
    + right. destruct Hi as [Hi|Hi]; [|done]. exists e.
      rewrite Hi, list_lookup_insert_eq
        by (apply at_lookup in Hc; by eapply lookup_lt_Some).
      repeat split; try done. lia.
    + intros Hbl. apply Hb, backlinks_insert; [done|]. right. lia.
Qed.

Lemma starts_loop_not_fuel runs shape prop i sts : ∀ li,
  starts_loop runs shape prop i sts li ≠ OutOfFuel.
Proof.
  induction sts as [|st sts IH]; intros li; simpl; [done|].
  destruct (at_ li (st - 1)) as [prev| | |] eqn:Hp; simpl; try done;
    [|by apply at_not_fuel in Hp].
  destruct (feq (demerits prev) (of_int INT_MAX)); [by apply IH|].
  destruct (eval_start runs shape prop prev i st) as [[|e]| | |] eqn:Hev; simpl;
    try done; [|by apply eval_start_not_fuel in Hev].
  destruct (at_ li i) as [cur| | |] eqn:Hc; simpl; try done;
    [|by apply at_not_fuel in Hc].
  destruct (flt (demerits e) (demerits cur)); by apply IH.
Qed.

Lemma collect_breaks_not_fuel fuel : ∀ li ii breaks,
  backlinks li → ii ≤ fuel → collect_breaks fuel li ii breaks ≠ OutOfFuel.
Proof.
  induction fuel as [|fuel IH]; intros li ii breaks Hb Hii; simpl.
  - destruct (at_ li ii) as [e| | |] eqn:He; simpl; try done;
      [|by apply at_not_fuel in He].
    apply at_lookup in He. destruct (Hb _ _ He) as [->|?]; [done|lia].
  - destruct (at_ li ii) as [e| | |] eqn:He; simpl; try done;
      [|by apply at_not_fuel in He].
    apply at_lookup in He. destruct (start e) eqn:Hs; [done|].
    apply IH; [done|]. destruct (Hb _ _ He) as [?|?]; [congruence|lia].
Qed.

Lemma emit_lines_frame shape prop breaks iis : ∀ runs li l runs' li' l',
  emit_lines shape prop breaks iis runs li l = Ret (runs', li', l') →
  length runs' = length runs ∧ (backlinks li → backlinks li').
Proof.
  induction iis as [|ii iis IH]; intros runs li l runs' li' l'; simpl.
  - by intros [= <- <- <-].
  - intros H. res_outer H. res_outer H. res_outer H. res_outer H. res_outer H.
    res_outer H.
    match type of H with context [addLine ?a ?b ?c ?d ?e ?f ?g ?h ?i ?j ?k] =>
      destruct (addLine a b c d e f g h i j k) as [[runs1 l1]| | |] eqn:Hadd;
        try discriminate H end.
    simpl in H. apply IH in H as [Hlen Hb].
    apply addLine_length in Hadd. split; [congruence|].
    intros Hbl. apply Hb, backlinks_insert; [done|].
    simpl. match goal with Hl : at_ li _ = Ret ?c |- context [from ?c] =>
      apply at_lookup in Hl; exact (Hbl _ _ Hl) end.
Qed.

Lemma emit_lines_not_fuel shape prop breaks iis : ∀ runs li l,
  emit_lines shape prop breaks iis runs li l ≠ OutOfFuel.
Proof.
  induction iis as [|ii iis IH]; intros runs li l; simpl; [done|].
  intros H. res_outer H; [|by eapply at_not_fuel].
  res_outer H; [|by eapply at_not_fuel].
  res_outer H; [|by eapply at_not_fuel].
  res_outer H; [|by eapply at_not_fuel].
  res_outer H; [|eapply skip_fwd_not_fuel; [|done]; lia].
  res_outer H; [|by eapply skip_bwd_not_fuel].
  match type of H with context [addLine ?a ?b ?c ?d ?e ?f ?g ?h ?i ?j ?k] =>
    destruct (addLine a b c d e f g h i j k) as [[runs1 l1]| | |] eqn:Hadd;
      try discriminate H end.
  - simpl in H. by eapply IH.
  - by eapply addLine_not_fuel.
Qed.

End OptimizerLines.

Section OptimizerTermination.
Context {F : FloatOps}.

Lemma optimize_iter_measure shape prop s s' :
  backlinks (o_li s) →
  optimize_iter shape prop s = Ret s' →
  backlinks (o_li s') ∧
  (o_i s' = o_i s ∧ length (o_runs s') = length (o_runs s) ∨
   o_i s' = 0 ∧ length (o_runs s') = length (o_runs s) - o_i s).
Proof.
  intros Hb H. unfold optimize_iter in H.
  destruct (at_ (o_li s) (o_i s)) as [cur| | |] eqn:Hcur; try discriminate H.
  simpl in H.
  assert (backlinks (<[o_i s := set_demerits cur (of_int INT_MAX)]> (o_li s))) as Hb1.
  { apply backlinks_insert; [done|]. apply at_lookup in Hcur. exact (Hb _ _ Hcur). }
  destruct (at_ (o_runs s) (o_i s - 1)) as [r| | |] eqn:Hr; try discriminate H.
  simpl in H.
  set (li1 := if is_break (linebreak r) then _ else _) in H.
  destruct li1 as [li| | |] eqn:Hli; try discriminate H. simpl in H.
  assert (backlinks li) as Hb2.
  { subst li1. destruct (is_break (linebreak r)); [|by injection Hli as <-].
    apply starts_loop_frame in Hli as (_ & _ & _ & Hbl); [by apply Hbl|].
    apply Forall_reverse, Forall_seq. intros; lia. }
  destruct (at_forced_end (o_runs s) (o_i s)) as [[|]| | |]; try discriminate H;
    simpl in H; [|injection H as <-; simpl; split; [done|by left]].
  destruct (collect_breaks (length li) li (o_i s) []) as [breaks| | |];
    try discriminate H. simpl in H.
  destruct (emit_lines _ _ _ _ _ _ _) as [[[runs' li'] l']| | |] eqn:Hem;
    try discriminate H. simpl in H.
  apply emit_lines_frame in Hem as [Hlen Hb3].
  destruct (at_ li' 0) as [e0| | |] eqn:He0; try discriminate H. simpl in H.
  destruct (at_ li' (o_i s)) as [ei| | |]; try discriminate H. simpl in H.
  injection H as <-. simpl. split.
  - apply backlinks_insert; [by apply Hb3|]. simpl.
    apply at_lookup in He0. destruct (Hb3 Hb2 _ _ He0) as [?|?]; [by left|lia].
  - right. split; [done|]. by rewrite length_drop, Hlen.
Qed.

Lemma optimize_iter_not_fuel shape prop s :
  backlinks (o_li s) → optimize_iter shape prop s ≠ OutOfFuel.
Proof.
  intros Hb H. unfold optimize_iter in H.
  destruct (at_ (o_li s) (o_i s)) as [cur| | |] eqn:Hcur; try discriminate H;
    [|by apply at_not_fuel in Hcur].
  simpl in H.
  assert (backlinks (<[o_i s := set_demerits cur (of_int INT_MAX)]> (o_li s))) as Hb1.
  { apply backlinks_insert; [done|]. apply at_lookup in Hcur. exact (Hb _ _ Hcur). }
  destruct (at_ (o_runs s) (o_i s - 1)) as [r| | |] eqn:Hr; try discriminate H;
    [|by apply at_not_fuel in Hr].
  simpl in H.
  set (li1 := if is_break (linebreak r) then _ else _) in H.
  destruct li1 as [li| | |] eqn:Hli; try discriminate H; simpl in H.
  2:{ subst li1. destruct (is_break (linebreak r)); [|done].
      by apply starts_loop_not_fuel in Hli. }
  assert (backlinks li ∧ o_i s < length li) as [Hb2 Hlt].
  { apply at_lookup, lookup_lt_Some in Hcur.
    subst li1. destruct (is_break (linebreak r)).
    - apply starts_loop_frame in Hli as (Hlen & _ & _ & Hbl).
      + split; [by apply Hbl|]. rewrite Hlen, length_insert. done.
      + apply Forall_reverse, Forall_seq. intros; lia.
    - injection Hli as <-. split; [done|]. by rewrite length_insert. }
  destruct (at_forced_end (o_runs s) (o_i s)) as [[|]| | |] eqn:Hend;
    try discriminate H; simpl in H; [|by apply at_forced_end_not_fuel in Hend].
  destruct (collect_breaks (length li) li (o_i s) []) as [breaks| | |] eqn:Hcb;
    try discriminate H; simpl in H.
  2:{ apply collect_breaks_not_fuel in Hcb; [done|done|lia]. }
  destruct (emit_lines _ _ _ _ _ _ _) as [[[runs' li'] l']| | |] eqn:Hem;
    try discriminate H; simpl in H; [|by apply emit_lines_not_fuel in Hem].
  destruct (at_ li' 0) as [e0| | |] eqn:He0; try discriminate H; simpl in H;
    [|by apply at_not_fuel in He0].
  destruct (at_ li' (o_i s)) as [ei| | |] eqn:Hei; try discriminate H; simpl in H.
  by apply at_not_fuel in Hei.
Qed.

Lemma optimize_loop_not_fuel shape prop fuel : ∀ s,
  backlinks (o_li s) →
  length (o_runs s) + 1 - o_i s ≤ fuel →
  optimize_loop fuel shape prop s ≠ OutOfFuel.
Proof.
  induction fuel as [|fuel IH]; intros s Hb Hf; simpl.
  - by rewrite bool_decide_eq_false_2 by lia.
  - case_bool_decide as Hlt; [|done].
    destruct (optimize_iter shape prop s) as [s'| | |] eqn:Hit; simpl; try done.
    + apply optimize_iter_measure in Hit as [Hb' Hm]; [|done].
      apply IH; [done|]. simpl. lia.
    + by apply optimize_iter_not_fuel in Hit.
Qed.

Lemma backlinks_initial (e0 : lineinfo) n :
  start e0 = true → backlinks (e0 :: replicate n lineinfo0).
Proof.
  intros Hs [|k] e; simpl.
  - intros [= <-]. by left.
  - intros [-> _]%lookup_replicate. right. simpl. lia.
Qed.

Lemma breakLinesOptimize_not_fuel runs shape prop ystart :
  breakLinesOptimize runs shape prop ystart ≠ OutOfFuel.
Proof.
  intros H. unfold breakLinesOptimize in H.
  match type of H with context [optimize_loop ?f ?sh ?p ?s0] =>
    destruct (optimize_loop f sh p s0) as [s| | |] eqn:Hloop end;
    try discriminate H; simpl in H.
  - destruct (at_ (o_li s) 0) as [e0| | |] eqn:He0; try discriminate H.
    by apply at_not_fuel in He0.
  - apply optimize_loop_not_fuel in Hloop; [done| |].
    + by apply backlinks_initial.
    + simpl. lia.
Qed.

(** X19: the optimizing breaker ends.  A turn of its loop that comes
    back either keeps the runs and the position, which the loop then
    moves one run on, or, at the end of a sub-paragraph, removes the
    runs in front of the position and starts over behind them; so the
    number of runs behind the position shrinks with every turn, the
    loop, given one unit of fuel per run, never runs out of it, and
    neither do the walk back along the chosen breaks and the steps over
    the blanks: [breakLinesOptimize] ends for every run list. *)
Theorem breakLinesOptimize_terminates :
  (∀ shape prop s s',
     backlinks (o_li s) →
     o_i s < length (o_runs s) + 1 →
     optimize_iter shape prop s = Ret s' →
     backlinks (o_li (next_i s')) ∧
     length (o_runs (next_i s')) + 1 - o_i (next_i s')
       < length (o_runs s) + 1 - o_i s) ∧
  (∀ runs shape prop ystart, breakLinesOptimize runs shape prop ystart ≠ OutOfFuel).
Proof.
  split; [|apply breakLinesOptimize_not_fuel].
  intros shape prop s s' Hb Hlt H.
  apply optimize_iter_measure in H as [Hb' Hm]; [|done]. simpl.
  split; [done|lia].
Qed.

End OptimizerTermination.

(** *** White space in XHTML text *)

Lemma normalize_fold inp : ∀ out prev,
  foldl normalize_step (out, prev) inp
  = (out ++ normalizeHTML inp prev, default prev (last (blanked <$> inp))).
Proof.
  unfold normalizeHTML.
  induction inp as [|a inp IH]; intros out prev.
  - simpl. by rewrite app_nil_r.
  - cbn [foldl]. unfold normalize_step at 2 4. cbn [fst snd].
    set (keep := negb (blanked a =? CH_BLANK)%Z || negb (prev =? CH_BLANK)%Z).
    rewrite (IH (if keep then out ++ [blanked a] else out) (blanked a)).
    rewrite (IH (if keep then [] ++ [blanked a] else []) (blanked a)). cbn [fst].
    rewrite fmap_cons. f_equal.
    + destruct keep; simpl; [by rewrite <- app_assoc|done].
    + destruct inp as [|b inp]; [done|]. rewrite fmap_cons, last_cons_cons, last_cons.
      by destruct (last (blanked <$> inp)).
Qed.

Lemma normalizeHTML_nil prev : normalizeHTML [] prev = [].
Proof. done. Qed.

Lemma normalizeHTML_cons a inp prev :
  normalizeHTML (a :: inp) prev
  = (if negb (blanked a =? CH_BLANK)%Z || negb (prev =? CH_BLANK)%Z
     then [blanked a] else []) ++ normalizeHTML inp (blanked a).
Proof.
  unfold normalizeHTML at 1. cbn [foldl]. unfold normalize_step at 2. cbn [fst snd].
  rewrite normalize_fold. cbn [fst]. by destruct (negb _ || negb _).
Qed.

Lemma blanked_not_newline a : blanked a ≠ CH_LF ∧ blanked a ≠ CH_CR.
Proof.
  unfold blanked, CH_LF, CH_CR, CH_BLANK.
  destruct (a =? 10)%Z eqn:H1; [done|]. destruct (a =? 13)%Z eqn:H2; [done|].
  simpl. lia.
Qed.

Lemma blanked_fixed a : a ≠ CH_LF → a ≠ CH_CR → blanked a = a.
Proof.
  unfold blanked, CH_LF, CH_CR. intros H1 H2.
  destruct (a =? 10)%Z eqn:E1; [lia|]. destruct (a =? 13)%Z eqn:E2; [lia|]. done.
Qed.

Lemma blanked_white a : is_white a = (blanked a =? CH_BLANK)%Z.
Proof.
  unfold is_white, blanked, CH_LF, CH_CR, CH_BLANK.
  destruct (a =? 10)%Z eqn:E1; [done|]. destruct (a =? 13)%Z eqn:E2; done.
Qed.

Lemma blanked_idem a : blanked (blanked a) = blanked a.
Proof. destruct (blanked_not_newline a). by apply blanked_fixed. Qed.

(** X20: what [normalizeHTML] returns: no line feed and no carriage
    return; no two blanks next to each other; no blank in front when the
    character before the text was a blank; at most as many characters as
    it got; and the characters that are not white space are exactly
    those of the input, in their order. *)
Theorem normalizeHTML_collapses_white_space (inp : list Z) (prev : Z) :
  (CH_LF ∉ normalizeHTML inp prev) ∧
  (CH_CR ∉ normalizeHTML inp prev) ∧
  (∀ i, normalizeHTML inp prev !! i = Some CH_BLANK →
        normalizeHTML inp prev !! S i ≠ Some CH_BLANK) ∧
  (prev = CH_BLANK → head (normalizeHTML inp prev) ≠ Some CH_BLANK) ∧
  length (normalizeHTML inp prev) ≤ length inp ∧
  filter (λ a, is_white a = false) (normalizeHTML inp prev)
    = filter (λ a, is_white a = false) inp.
Proof.
  revert prev. induction inp as [|a inp IH]; intros prev.
  - rewrite normalizeHTML_nil. repeat split; try done; by intros ?%elem_of_nil.
  - rewrite normalizeHTML_cons.
    destruct (IH (blanked a)) as (H1 & H2 & H3 & H4 & H5 & H6).
    destruct (blanked_not_newline a) as [Hn1 Hn2].
    pose proof (blanked_white a) as Hw.
    pose proof (blanked_white (blanked a)) as Hwb. rewrite blanked_idem in Hwb.
    destruct (blanked a =? CH_BLANK)%Z eqn:Ha; simpl.
    + apply Z.eqb_eq in Ha. rewrite (filter_cons_False _ a) by (by rewrite Hw).
      destruct (prev =? CH_BLANK)%Z eqn:Hp; simpl.
      * apply Z.eqb_eq in Hp. repeat split; try done; [by auto|lia].
      * apply Z.eqb_neq in Hp.
        rewrite filter_cons_False by (by rewrite Hwb).
        split; [by intros [?|?]%elem_of_cons|].
        split; [by intros [?|?]%elem_of_cons|].
        split; [|split; [done|split; [simpl; lia|done]]].
        intros [|i]; simpl; [|by apply H3]. intros _ Hs.
        apply (H4 Ha). by rewrite head_lookup.
    + apply Z.eqb_neq in Ha.
      assert (blanked a = a) as Heq.
      { unfold blanked in *. destruct ((a =? CH_LF)%Z || (a =? CH_CR)%Z); done. }
      rewrite filter_cons_True by done. rewrite (filter_cons_True _ a) by done.
      split; [by intros [?|?]%elem_of_cons|].
      split; [by intros [?|?]%elem_of_cons|].
      split; [|split; [by intros _ [= ?]|split; [simpl; lia|by rewrite H6, Heq]]].
      intros [|i]; simpl; [by intros [= ?]|by apply H3].
Qed.

Lemma normalizeHTML_app (a b : list Z) : ∀ prev,
  normalizeHTML (a ++ b) prev
  = normalizeHTML a prev
    ++ normalizeHTML b (default prev (last (normalizeHTML a prev))).
Proof.
  induction a as [|x a IH]; intros p; [done|].
  rewrite <- app_comm_cons, !normalizeHTML_cons, IH, <- app_assoc. f_equal.
  f_equal.
  destruct (negb (blanked x =? CH_BLANK)%Z || negb (p =? CH_BLANK)%Z) eqn:Hk.
  - f_equal. cbn [app]. rewrite last_cons.
    by destruct (last (normalizeHTML a (blanked x))).
  - f_equal. cbn [app]. apply orb_false_iff in Hk as [Hx Hp].
    apply negb_false_iff, Z.eqb_eq in Hx. apply negb_false_iff, Z.eqb_eq in Hp.
    destruct (last (normalizeHTML a (blanked x))); simpl; congruence.
Qed.

Lemma normalizeHTML_ascii inp : ∀ prev,
  Forall is_ascii inp → Forall is_ascii (normalizeHTML inp prev).
Proof.
  induction inp as [|a inp IH]; intros prev Hall; [constructor|].
  apply Forall_cons in Hall as [Ha Hall]. rewrite normalizeHTML_cons.
  apply Forall_app. split; [|by apply IH].
  destruct (negb _ || negb _); [|constructor].
  constructor; [|constructor]. unfold blanked, is_ascii, CH_BLANK in *.
  destruct ((a =? CH_LF)%Z || (a =? CH_CR)%Z); lia.
Qed.

Lemma to_char_ascii ch : is_ascii ch → to_char ch = ch.
Proof.
  unfold is_ascii, to_char. intros H. rewrite Z.mod_small by lia. lia.
Qed.

Lemma xml_node_induction (P : xml_node → Prop) :
  (∀ value, P (node_pcdata value)) →
  (∀ name children, Forall P children → P (node_element name children)) →
  P node_other →
  ∀ xml, P xml.
Proof.
  intros Hp He Ho. fix IH 1. intros [v|n ch|]; [apply Hp| |apply Ho].
  apply He. induction ch as [|i l IHl]; constructor; [apply IH|exact IHl].
Qed.

Lemma layoutXML_text_values conv : ∀ xml txt,
  layoutXML_text conv xml txt = foldl (add_text conv) txt (text_values xml).
Proof.
  induction xml as [v|name children Hch|] using xml_node_induction; intros txt;
    [done| |done].
  simpl. revert txt. induction Hch as [|i l Hi _ IHl]; intros txt; [done|].
  cbn -[text_element]. rewrite foldl_app, <- IHl. f_equal.
  destruct i as [v|n ch|]; [done| |done].
  destruct (text_element n); [apply Hi|done].
Qed.

Section TextNodes.
Context (u8_convertToU32 : list Z → list Z).

(** X21: [layoutXML_text] puts the text of a paragraph together from
    the values of its text nodes, those inside [i] and [div] elements
    included, each normalized with a [prev] taken from the text written
    so far.  As long as the values stay in the 7-bit range, on which the
    conversion to UTF-32 changes nothing, the result is the text of the
    nodes normalized as one, started behind a blank.  Beyond that range
    it is not: [prev] is the last character cut down to [char], so
    behind a character that is no blank but whose low byte is that of a
    blank, such as U+0420, a blank at the start of the next value is
    dropped. *)
Theorem text_nodes_normalized_as_one :
  ((∀ s, Forall is_ascii s → u8_convertToU32 s = s) →
   ∀ xml, Forall (Forall is_ascii) (text_values xml) →
     layoutXML_text u8_convertToU32 xml []
     = normalizeHTML (concat (text_values xml)) CH_BLANK) ∧
  (∀ txt ch value,
     ch ≠ CH_BLANK → to_char ch = CH_BLANK →
     add_text u8_convertToU32 (txt ++ [ch]) (CH_BLANK :: value)
     = add_text u8_convertToU32 (txt ++ [ch]) value ∧
     add_text u8_convertToU32 (txt ++ [ch]) (CH_BLANK :: value)
     = (txt ++ [ch]) ++ u8_convertToU32 (normalizeHTML value CH_BLANK)).
Proof.
  split.
  - intros Hconv xml. rewrite layoutXML_text_values.
    generalize (text_values xml). intros values Hall.
    assert (∀ done,
              Forall is_ascii done →
              foldl (add_text u8_convertToU32) (normalizeHTML done CH_BLANK) values
              = normalizeHTML (done ++ concat values) CH_BLANK) as Hgen.
    { induction values as [|v values IH]; intros done Hdone.
      - simpl. by rewrite app_nil_r.
      - apply Forall_cons in Hall as [Hv Hall]. cbn [foldl concat].
        rewrite app_assoc, <- (IH Hall (done ++ v)) by (by apply Forall_app).
        f_equal. rewrite normalizeHTML_app.
        pose proof (normalizeHTML_ascii done CH_BLANK Hdone) as Hasc.
        unfold add_text. destruct (normalizeHTML done CH_BLANK) as [|c0 l0] eqn:Hn.
        + simpl. apply Hconv. by apply normalizeHTML_ascii.
        + rewrite <- Hn in *. assert (normalizeHTML done CH_BLANK ≠ []) as Hne
            by (by rewrite Hn).
          destruct (Nat.eqb_spec (length (normalizeHTML done CH_BLANK)) 0) as [H0|_].
          { by apply nil_length_inv in H0. }
          rewrite Hconv by (by apply normalizeHTML_ascii). f_equal. f_equal.
          rewrite last_lookup.
          replace (pred (length (normalizeHTML done CH_BLANK)))
            with (length (normalizeHTML done CH_BLANK) - 1) by lia.
          destruct (normalizeHTML done CH_BLANK !! (length (normalizeHTML done CH_BLANK) - 1))
            as [ch|] eqn:Hch.
          * rewrite (nth_lookup_Some _ _ _ _ Hch). simpl. apply to_char_ascii.
            rewrite Forall_forall in Hasc. apply Hasc.
            by eapply list_elem_of_lookup_2.
          * apply lookup_ge_None in Hch.
            destruct (normalizeHTML done CH_BLANK); [done|simpl in Hch; lia]. }
    exact (Hgen [] (Forall_nil_2 _)).
  - intros txt ch value Hne Hch.
    assert (add_text u8_convertToU32 (txt ++ [ch]) (CH_BLANK :: value)
            = (txt ++ [ch]) ++ u8_convertToU32 (normalizeHTML value CH_BLANK)) as H1.
    { unfold add_text. rewrite length_app. simpl.
      destruct (Nat.eqb_spec (length txt + 1) 0) as [|_]; [lia|].
      replace (length txt + 1 - 1) with (length txt) by lia.
      rewrite nth_middle, Hch, normalizeHTML_cons. done. }
    split; [|done]. rewrite H1. unfold add_text. rewrite length_app. simpl.
    destruct (Nat.eqb_spec (length txt + 1) 0) as [|_]; [lia|].
    replace (length txt + 1 - 1) with (length txt) by lia.
    by rewrite nth_middle, Hch.
Qed.

End TextNodes.

(** X22: a text that went through [normalizeHTML] goes through it
    again unchanged. *)
Theorem normalizeHTML_idempotent (inp : list Z) (prev : Z) :
  normalizeHTML (normalizeHTML inp prev) prev = normalizeHTML inp prev.
Proof.
  revert prev. induction inp as [|a inp IH]; intros prev; [done|].
  rewrite normalizeHTML_cons.
  destruct (negb (blanked a =? CH_BLANK)%Z || negb (prev =? CH_BLANK)%Z) eqn:Hk.
  - simpl. rewrite normalizeHTML_cons.
    destruct (blanked_not_newline a) as [Hn1 Hn2].
    rewrite (blanked_fixed (blanked a)) by done. rewrite Hk. simpl. by rewrite IH.
  - simpl. apply orb_false_iff in Hk as [Hx Hp].
    apply negb_false_iff, Z.eqb_eq in Hx. apply negb_false_iff, Z.eqb_eq in Hp.
    rewrite Hx, Hp. apply IH.
Qed.

(** *** Drawing glyph spans into the surface *)

Lemma deref_inside mem p :
  (0 ≤ p < Z.of_nat (length mem))%Z → ∃ px, SDL.deref mem p = Ret px.
Proof.
  intros Hp. unfold SDL.deref. destruct (p <? 0)%Z eqn:Hn; [lia|].
  apply at_in_range. lia.
Qed.

Lemma pixel_loop_inside b alpha n : ∀ start mem,
  (0 ≤ start)%Z → (start + Z.of_nat n < SDL.last_pixel b)%Z →
  (SDL.last_pixel b ≤ Z.of_nat (length mem))%Z →
  ∃ mem', SDL.pixel_loop b alpha n start mem = Ret (mem', false) ∧
          length mem' = length mem ∧
          ∀ k : nat, (Z.of_nat k < start ∨ start + Z.of_nat n ≤ Z.of_nat k)%Z →
                     mem' !! k = mem !! k.
Proof.
  induction n as [|n IH]; intros start mem H0 Hn Hlast; simpl.
  - by eexists.
  - destruct (deref_inside mem start) as [px ->]; [lia|]. simpl.
    rewrite Z.geb_leb. destruct (SDL.last_pixel b <=? start + 1)%Z eqn:Hl; [lia|].
    destruct (IH (start + 1)%Z (<[Z.to_nat start := SDL.blend_pixel b alpha px]> mem))
      as (mem' & -> & Hlen & Hframe); [lia|lia|by rewrite length_insert|].
    exists mem'. split; [done|]. rewrite length_insert in Hlen. split; [done|].
    intros k Hk. rewrite Hframe by lia. apply list_lookup_insert_ne. lia.
Qed.

Lemma span_loop_inside b scanline spans : ∀ mem,
  Forall (λ s, 0 ≤ scanline + SDL.x s ∧ 0 ≤ SDL.len s)%Z spans →
  (SDL.last_pixel b ≤ Z.of_nat (length mem))%Z →
  ∃ mem', SDL.span_loop b scanline spans mem = Ret mem' ∧
          length mem' = length mem ∧
          ∀ k : nat, mem' !! k ≠ mem !! k →
            ∃ s, s ∈ spans ∧
                 (scanline + SDL.x s ≤ Z.of_nat k < scanline + SDL.x s + SDL.len s)%Z ∧
                 (scanline + SDL.x s + SDL.len s < SDL.last_pixel b)%Z.
Proof.
  induction spans as [|s rest IH]; intros mem Hx Hlast; simpl.
  - by eexists.
  - apply Forall_cons in Hx as [[Hs Hs'] Hx]. rewrite Z.geb_leb.
    destruct (SDL.last_pixel b <=? scanline + SDL.x s + SDL.len s)%Z eqn:Hl;
      [by eexists|].
    apply Z.leb_gt in Hl.
    destruct (pixel_loop_inside b (SDL.alpha_of b s) (Z.to_nat (SDL.len s))
                (scanline + SDL.x s)%Z mem) as (mem1 & -> & Hlen1 & Hframe1);
      [done|lia|done|].
    simpl. destruct (IH mem1) as (mem' & -> & Hlen & Hframe); [done|lia|].
    exists mem'. split; [done|]. split; [lia|]. intros k Hk.
    destruct (decide (scanline + SDL.x s ≤ Z.of_nat k
                      < scanline + SDL.x s + SDL.len s)%Z) as [Hin|Hout].
    + exists s. split; [by left|done].
    + rewrite <- Hframe1 in Hk by lia.
      destruct (Hframe k Hk) as (s' & ? & ?). exists s'. split; [by right|done].
Qed.

(** X23: where [spanner] writes.  When the memory of the surface
    reaches from the first pixel the function may touch to the last,
    and no span starts left of its scan line's origin, the function
    comes back, keeps the size of the memory and changes a pixel only
    inside that range and inside a span of the scan line.  The test on
    the scan line does not look at the start of a span, though: a span
    that starts in front of the memory, on a scan line the test lets
    through, is written through a pointer outside of it. *)
Theorem spanner_writes_inside_spans (y : Z) (spans : list SDL.FT_Span)
    (b : SDL.spanInfo) (mem : list Z) :
  ((0 ≤ SDL.first_pixel b)%Z →
   (SDL.last_pixel b ≤ Z.of_nat (length mem))%Z →
   Forall (λ s, 0 ≤ SDL.x s ∧ 0 ≤ SDL.len s)%Z spans →
   ∃ mem', SDL.spanner y spans b mem = Ret mem' ∧
           length mem' = length mem ∧
           ∀ k : nat, mem' !! k ≠ mem !! k →
             (SDL.first_pixel b ≤ Z.of_nat k < SDL.last_pixel b)%Z ∧
             ∃ s, s ∈ spans ∧
                  (SDL.pixels b - y * SDL.pitch b + SDL.x s ≤ Z.of_nat k
                   < SDL.pixels b - y * SDL.pitch b + SDL.x s + SDL.len s)%Z) ∧
  (∀ s rest,
     spans = s :: rest →
     (SDL.first_pixel b ≤ SDL.pixels b - y * SDL.pitch b)%Z →
     (SDL.pixels b - y * SDL.pitch b + SDL.x s < 0)%Z →
     (0 < SDL.len s)%Z →
     (SDL.pixels b - y * SDL.pitch b + SDL.x s + SDL.len s < SDL.last_pixel b)%Z →
     SDL.spanner y spans b mem = Fault).
Proof.
  split.
  - intros Hfirst Hlast Hx. unfold SDL.spanner. rewrite Z.geb_leb.
    destruct (SDL.first_pixel b <=? SDL.pixels b - y * SDL.pitch b)%Z eqn:Hsc;
      [|by eexists].
    apply Z.leb_le in Hsc.
    destruct (span_loop_inside b (SDL.pixels b - y * SDL.pitch b)%Z spans mem)
      as (mem' & -> & Hlen & Hframe); [|done|].
    { eapply Forall_impl; [exact Hx|]. simpl. intros; lia. }
    exists mem'. split; [done|]. split; [done|]. intros k Hk.
    destruct (Hframe k Hk) as (s & Hs & Hr & Hl).
    rewrite Forall_forall in Hx. specialize (Hx s Hs). simpl in Hx.
    split; [lia|]. by exists s.
  - intros s rest -> Hsc Hneg Hlen Hl. unfold SDL.spanner. rewrite Z.geb_leb.
    rewrite (proj2 (Z.leb_le _ _) Hsc). simpl. rewrite Z.geb_leb.
    destruct (SDL.last_pixel b <=? _)%Z eqn:Hl'; [lia|].
    destruct (Z.to_nat (SDL.len s)) as [|n] eqn:Hn; [lia|]. simpl.
    unfold SDL.deref. by rewrite (proj2 (Z.ltb_lt _ _) Hneg).
Qed.

Lemma uint8_bits v i : SDL.is_uint8 v → Z.testbit v i = true → (0 ≤ i < 8)%Z.
Proof.
  intros Hv Hb. destruct (Z.ltb_spec i 0) as [Hn|Hn].
  { by rewrite Z.testbit_neg_r in Hb. }
  rewrite <- (Z.mod_small v (2 ^ 8)) in Hb by (unfold SDL.is_uint8 in Hv; lia).
  rewrite Z.testbit_mod_pow2 in Hb by lia.
  apply andb_true_iff in Hb as [Hlt _]. apply Z.ltb_lt in Hlt. lia.
Qed.

Lemma uint8_is_uint8 v : SDL.is_uint8 (SDL.uint8 v).
Proof. unfold SDL.is_uint8, SDL.uint8. pose proof (Z.mod_pos_bound v 256). lia. Qed.

Lemma packed_bits a sa b sb c sc m :
  (0 ≤ m)%Z →
  Z.testbit (SDL.uint32 (Z.lor (Z.lor (Z.shiftl a sa) (Z.shiftl b sb)) (Z.shiftl c sc))) m
  = (m <? 32)%Z && (Z.testbit a (m - sa) || Z.testbit b (m - sb) || Z.testbit c (m - sc)).
Proof.
  intros Hm. unfold SDL.uint32. rewrite Z.testbit_mod_pow2 by lia.
  by rewrite !Z.lor_spec, !Z.shiftl_spec by lia.
Qed.

Lemma channel_of_packed a sa b sb c sc :
  SDL.is_uint8 a → SDL.is_uint8 b → SDL.is_uint8 c →
  (0 ≤ sa ≤ 24)%Z → (8 ≤ Z.abs (sa - sb))%Z → (8 ≤ Z.abs (sa - sc))%Z →
  SDL.channel
    (SDL.uint32 (Z.lor (Z.lor (Z.shiftl a sa) (Z.shiftl b sb)) (Z.shiftl c sc))) sa = a.
Proof.
  intros Ha Hb Hc Hsa Hab Hac. apply Z.bits_inj'. intros n Hn.
  unfold SDL.channel, SDL.uint8. change 256%Z with (2 ^ 8)%Z.
  rewrite Z.testbit_mod_pow2, Z.shiftr_spec, packed_bits by lia.
  replace (n + sa - sa)%Z with n by lia.
  destruct (Z.testbit a n) eqn:Ea.
  - apply uint8_bits in Ea; [|done].
    rewrite (proj2 (Z.ltb_lt n 8)), (proj2 (Z.ltb_lt (n + sa) 32)) by lia. done.
  - destruct (Z.testbit b (n + sa - sb)) eqn:Eb.
    { apply uint8_bits in Eb; [|done].
      rewrite (proj2 (Z.ltb_ge n 8)) by lia. done. }
    destruct (Z.testbit c (n + sa - sc)) eqn:Ec.
    { apply uint8_bits in Ec; [|done].
      rewrite (proj2 (Z.ltb_ge n 8)) by lia. done. }
    simpl. by rewrite !andb_false_r.
Qed.

Lemma blend_between alpha p col :
  SDL.is_uint8 alpha → SDL.is_uint8 p → SDL.is_uint8 col →
  (Z.min p col ≤ SDL.blend alpha p col ≤ Z.max p col)%Z.
Proof.
  unfold SDL.is_uint8, SDL.blend, SDL.uint8. intros Ha Hp Hc.
  rewrite Z.quot_div_nonneg by nia.
  assert (Z.min p col ≤ ((255 - alpha) * p + alpha * col) / 255 ≤ Z.max p col)%Z as H.
  { split.
    - apply Z.div_le_lower_bound; [lia|]. nia.
    - apply Z.div_le_upper_bound; [lia|]. nia. }
  rewrite Z.mod_small by lia. done.
Qed.

Lemma blend_ends p col :
  SDL.is_uint8 p → SDL.is_uint8 col →
  SDL.blend 0 p col = p ∧ SDL.blend 255 p col = col.
Proof.
  unfold SDL.is_uint8, SDL.blend, SDL.uint8. intros Hp Hc. split.
  - replace ((255 - 0) * p + 0 * col)%Z with (p * 255)%Z by lia.
    rewrite Z.quot_mul by lia. apply Z.mod_small. lia.
  - replace ((255 - 255) * p + 255 * col)%Z with (col * 255)%Z by lia.
    rewrite Z.quot_mul by lia. apply Z.mod_small. lia.
Qed.

Lemma alpha_of_range b s :
  SDL.is_uint8 (SDL.coverage s) → SDL.is_uint8 (col_a (SDL.c b)) →
  SDL.alpha_of b s = (SDL.coverage s * col_a (SDL.c b) / 255)%Z ∧
  (0 ≤ SDL.alpha_of b s ≤ Z.min (SDL.coverage s) (col_a (SDL.c b)))%Z.
Proof.
  unfold SDL.is_uint8, SDL.alpha_of, SDL.uint8. intros Hc Ha.
  rewrite Z.quot_div_nonneg by nia.
  assert (0 ≤ SDL.coverage s * col_a (SDL.c b) / 255
          ≤ Z.min (SDL.coverage s) (col_a (SDL.c b)))%Z as H.
  { split; [apply Z.div_pos; nia|]. apply Z.div_le_upper_bound; [lia|]. nia. }
  rewrite Z.mod_small by lia. done.
Qed.

(** X24: what [spanner] writes into a pixel of a span.  With the three
    colour channels inside the pixel and apart from each other, every
    channel of the new pixel lies between the channel of the old pixel
    and that of the colour; a full coverage with an opaque colour gives
    the colour, no coverage or a transparent colour gives the old
    channels; and every bit outside of the three channels is cleared,
    whatever the coverage. *)
Theorem spanner_blends_channels (b : SDL.spanInfo) (s : SDL.FT_Span) (px : Z) :
  SDL.channels_apart b →
  SDL.is_uint8 (SDL.coverage s) →
  SDL.is_uint8 (col_r (SDL.c b)) → SDL.is_uint8 (col_g (SDL.c b)) →
  SDL.is_uint8 (col_b (SDL.c b)) → SDL.is_uint8 (col_a (SDL.c b)) →
  let new := SDL.blend_pixel b (SDL.alpha_of b s) px in
  let between (shift col : Z) :=
    (Z.min (SDL.channel px shift) col ≤ SDL.channel new shift
     ≤ Z.max (SDL.channel px shift) col)%Z in
  (between (SDL.rshift b) (col_r (SDL.c b)) ∧
   between (SDL.gshift b) (col_g (SDL.c b)) ∧
   between (SDL.bshift b) (col_b (SDL.c b))) ∧
  (SDL.coverage s = 255%Z → col_a (SDL.c b) = 255%Z →
   SDL.channel new (SDL.rshift b) = col_r (SDL.c b) ∧
   SDL.channel new (SDL.gshift b) = col_g (SDL.c b) ∧
   SDL.channel new (SDL.bshift b) = col_b (SDL.c b)) ∧
  (SDL.coverage s = 0%Z ∨ col_a (SDL.c b) = 0%Z →
   SDL.channel new (SDL.rshift b) = SDL.channel px (SDL.rshift b) ∧
   SDL.channel new (SDL.gshift b) = SDL.channel px (SDL.gshift b) ∧
   SDL.channel new (SDL.bshift b) = SDL.channel px (SDL.bshift b)) ∧
  (∀ m, Z.testbit new m = true →
        (SDL.rshift b ≤ m < SDL.rshift b + 8)%Z ∨
        (SDL.gshift b ≤ m < SDL.gshift b + 8)%Z ∨
        (SDL.bshift b ≤ m < SDL.bshift b + 8)%Z).
Proof.
  intros [(Hr & Hg & Hb) (Hrg & Hrb & Hgb)] Hcov Hcr Hcg Hcb Hca new between.
  destruct (alpha_of_range b s Hcov Hca) as [Halpha Hrange].
  assert (SDL.is_uint8 (SDL.alpha_of b s)) as Hal.
  { unfold SDL.is_uint8 in *. lia. }
  set (alpha := SDL.alpha_of b s) in *.
  set (pr := SDL.blend alpha (SDL.channel px (SDL.rshift b)) (col_r (SDL.c b))).
  set (pg := SDL.blend alpha (SDL.channel px (SDL.gshift b)) (col_g (SDL.c b))).
  set (pb := SDL.blend alpha (SDL.channel px (SDL.bshift b)) (col_b (SDL.c b))).
  assert (SDL.is_uint8 pr ∧ SDL.is_uint8 pg ∧ SDL.is_uint8 pb) as (Hpr & Hpg & Hpb).
  { repeat split; apply uint8_is_uint8. }
  assert (SDL.channel new (SDL.rshift b) = pr) as Er.
  { apply channel_of_packed; done. }
  assert (SDL.channel new (SDL.gshift b) = pg) as Eg.
  { subst new. unfold SDL.blend_pixel. fold alpha pr pg pb.
    rewrite (Z.lor_comm (Z.shiftl pr _)). apply channel_of_packed; try done; lia. }
  assert (SDL.channel new (SDL.bshift b) = pb) as Eb.
  { subst new. unfold SDL.blend_pixel. fold alpha pr pg pb.
    rewrite Z.lor_comm, Z.lor_assoc. apply channel_of_packed; try done; lia. }
  subst between. cbv beta. rewrite Er, Eg, Eb.
  pose proof (uint8_is_uint8 (Z.shiftr px (SDL.rshift b))) as Hxr.
  pose proof (uint8_is_uint8 (Z.shiftr px (SDL.gshift b))) as Hxg.
  pose proof (uint8_is_uint8 (Z.shiftr px (SDL.bshift b))) as Hxb.
  split; [|split; [|split]].
  - repeat split; apply blend_between; done.
  - intros Hc255 Ha255.
    assert (alpha = 255%Z) as ->.
    { subst alpha. rewrite Halpha, Hc255, Ha255. done. }
    subst pr pg pb. repeat split; by apply blend_ends.
  - intros Hzero.
    assert (alpha = 0%Z) as ->.
    { subst alpha. rewrite Halpha. destruct Hzero as [-> | ->]; [done|].
      by rewrite Z.mul_0_r. }
    subst pr pg pb. repeat split; by apply blend_ends.
  - intros m Hm. destruct (Z.ltb_spec m 0) as [Hn|Hn].
    { by rewrite Z.testbit_neg_r in Hm. }
    subst new. unfold SDL.blend_pixel in Hm. fold alpha pr pg pb in Hm.
    rewrite packed_bits in Hm by done.
    apply andb_true_iff in Hm as [_ Hm].
    apply orb_true_iff in Hm as [Hm|Hm]; [apply orb_true_iff in Hm as [Hm|Hm]|];
      apply uint8_bits in Hm; try done; lia.
Qed.

(** *** The whole paragraph *)

Section ParagraphEnds.
Context (E : Externals) {F : FloatOps}.

(** X25: [layoutParagraph] ends.  Each of its loops, in the analysis, in
    the making of the runs and in either line breaker, is given a bound
    taken from the length of the text or the number of runs, and none
    of them ever uses its bound up: whatever the text, the attributes,
    the shape, the properties and the answers of the libraries, the
    function comes to an end. *)
Theorem layoutParagraph_ends (t : list Z) (a : AttributeIndex_c) (shape : Shape_c)
    (prop : LayoutProperties_c) (ystart : Z) :
  layoutParagraph E t a shape prop ystart ≠ OutOfFuel.
Proof.
  unfold layoutParagraph. apply bounded_bind; [apply analysis_bounded|].
  intros view. apply bounded_bind; [apply (analysis_bounded E t a prop)|].
  intros runs. destruct (optimizeLinebreaks prop).
  - apply breakLinesOptimize_not_fuel.
  - unfold breakLines. apply bounded_bind; [|done].
    apply breakLines_loop_not_fuel. simpl. lia.
Qed.

End ParagraphEnds.

(** *** The further statements at concrete inputs *)

(** In "xabc" position 1 of the view is position 1 of the text. *)
Lemma view_index_example :
  [120; 97; 98; 99]%Z !! 1 = txt32 Sample.view_de !! 1.
Proof.
  exact (proj1 (view_index_leads_back [120; 97; 98; 99]%Z
                  (Sample.attrs ["de"; "de"; "de"; "de"]%string) (replicate 4 0%Z))
           1 1 eq_refl).
Defined.

(** A mark at position 1 of "xabc". *)
Lemma sethyp_example :
  ∃ v', sethyp Sample.view_de 1 = Ret v' ∧ hyp v' 1 = true ∧
        (∀ j, j < length (idx Sample.view_de) → j ≠ 1 → hyp v' j = hyp Sample.view_de j) ∧
        length (hyphens v') = length (idx Sample.view_de) ∧
        txt32 v' = txt32 Sample.view_de ∧ idx v' = idx Sample.view_de ∧
        linebreaks v' = linebreaks Sample.view_de.
Proof.
  apply (proj1 (sethyp_then_hyp Sample.view_de 1)). vm_compute. lia.
Defined.

(** The sample analyzer forces a break at the end of "xabc". *)
Lemma last_class_example :
  ∃ v', getLinebreaks (Sample.lib "de") Sample.view_de = Ret v' ∧
        txt32 v' = txt32 Sample.view_de ∧ idx v' = idx Sample.view_de ∧
        hyphens v' = hyphens Sample.view_de ∧
        length (linebreaks v') = size Sample.view_de ∧
        lnb v' (size Sample.view_de - 1) = LINEBREAK_MUSTBREAK.
Proof.
  apply (getLinebreaks_ends_in_mustbreak (Sample.lib "de") Sample.view_de).
  - intros [|ch w] lang Hw; [done|]. simpl. unfold Sample.linebreaks_of. simpl.
    by rewrite Nat.sub_0_r, Nat.add_1_r, Nat.eqb_refl.
  - reflexivity.
  - vm_compute. lia.
Defined.

(** "xabc", all German, is analysed in one call. *)
Lemma one_language_example :
  getLinebreaks (Sample.lib "de") Sample.view_de
  = Ret (set_linebreaks Sample.view_de
           (Sample.linebreaks_of (txt32 Sample.view_de) "de"
              <$> seq 0 (size Sample.view_de))).
Proof.
  apply (getLinebreaks_one_language (Sample.lib "de") Sample.view_de "de").
  - intros i Hi. do 4 (destruct i as [|i]; [reflexivity|]). vm_compute in Hi. lia.
  - reflexivity.
  - vm_compute. lia.
Defined.

(** Hyphenating "xabc" adds the mark after its first letter. *)
Lemma added_marks_example :
  marks_added Cases.broken_de Cases.hyphenated_de ∧
  ∀ i, hyp Cases.hyphenated_de i = true →
       hyp Cases.broken_de i = true ∨ i < length (idx Cases.broken_de).
Proof.
  apply (getHyphens_only_adds_marks (Sample.lib "de") Cases.broken_de Cases.hyphenated_de).
  vm_compute. reflexivity.
Defined.

(** Without a dictionary "xabc" stays as it is. *)
Lemma no_dictionary_example :
  getHyphens Sample.lib_vertical Sample.view_de = Ret Sample.view_de.
Proof.
  apply (proj1 (getHyphens_without_dictionary Sample.lib_vertical Sample.view_de)).
  intros lang. reflexivity.
Defined.

(** Merging the links "a" and "b" into a layout that has "a". *)
Lemma merged_urls_example :
  NoDup (url <$> mergeLinks [Cases.link_a] [Cases.link_a; Cases.link_b] 64 0) ∧
  (url <$> [Cases.link_a])
    `prefix_of` (url <$> mergeLinks [Cases.link_a] [Cases.link_a; Cases.link_b] 64 0) ∧
  ∀ u, u ∈ url <$> mergeLinks [Cases.link_a] [Cases.link_a; Cases.link_b] 64 0
       ↔ u ∈ url <$> [Cases.link_a] ∨ u ∈ url <$> [Cases.link_a; Cases.link_b].
Proof.
  apply (mergeLinks_keeps_urls_unique [Cases.link_a] [Cases.link_a; Cases.link_b] 64 0).
  repeat constructor. by intros ?%elem_of_nil.
Defined.

Lemma merged_rectangles_example :
  areas_of "a" (mergeLinks [Cases.link_a] [Cases.link_a; Cases.link_b] 64 0)
  = areas_of "a" [Cases.link_a]
    ++ (shift_rect 64 0 <$> areas_of "a" [Cases.link_a; Cases.link_b]).
Proof.
  apply (mergeLinks_conserves_rectangles [Cases.link_a] [Cases.link_a; Cases.link_b]
           64 0 "a").
  repeat constructor. by intros ?%elem_of_nil.
Defined.

(** Three right-to-left runs are laid out back to front. *)
Lemma uniform_level_example :
  reorder (λ _, 1%Z) (foldl Z.max 0%Z ((λ _, 1%Z) <$> [0; 1; 2])) [0; 1; 2]
  = if Z.odd 1 then reverse [0; 1; 2] else [0; 1; 2].
Proof.
  apply (reorder_uniform_level (λ _, 1%Z) 1 [0; 1; 2]).
  - lia.
  - repeat constructor.
  - done.
Defined.

(** Five runs, the three in the middle right-to-left. *)
Lemma embedded_block_example :
  reorder Cases.middle_rtl 1 ([0] ++ [1; 2; 3] ++ [4]) = [0] ++ reverse [1; 2; 3] ++ [4].
Proof.
  apply (reorder_embedded_block Cases.middle_rtl 1 [0] [1; 2; 3] [4]).
  - lia.
  - repeat constructor.
  - repeat constructor.
  - repeat constructor.
Defined.

(** The run of the letter "a" advances by the advance of its glyph. *)
Lemma run_advance_example :
  dx Cases.run_a = Zsum (glyph_advance Sample.view_a <$> Cases.glyphs_a) ∧
  dy Cases.run_a = 0%Z.
Proof.
  apply (createRun_advance (Sample.lib "en") Sample.view_a 1 0
           (Sample.props ALG_LEFT false) (Some Sample.face1)).
  - vm_compute. reflexivity.
  - vm_compute. reflexivity.
Defined.

(** The hyphen made up behind the letter "a". *)
Lemma hyphen_run_example :
  shy Cases.hyphen_run = true ∧ space Cases.hyphen_run = false ∧
  linebreak Cases.hyphen_run = LINEBREAK_ALLOWBREAK ∧
  embeddingLevel Cases.hyphen_run = emb Sample.view_a 0 ∧
  r_font Cases.hyphen_run = Some Sample.face1 ∧ is_Some (Some Sample.face1).
Proof.
  apply (proj1 (synthesized_hyphen_run (Sample.lib "en") Sample.view_a 0
                  (Sample.props ALG_LEFT false))).
  vm_compute. reflexivity.
Defined.

(** The letter "a" gives one run. *)
Lemma run_count_example :
  (0 < size Sample.view_a → 0 < length Cases.runs_a) ∧
  length Cases.runs_a ≤ 2 * size Sample.view_a ∧
  (hyphens Sample.view_a = [] → length Cases.runs_a ≤ size Sample.view_a).
Proof.
  apply (createTextRuns_count (Sample.lib "en") Sample.view_a (Sample.props ALG_LEFT false)).
  vm_compute. reflexivity.
Defined.

(** The blank between "abcd" and "xy" is a run of its own. *)
Lemma blank_run_example :
  scan_while (size Sample.view_user_shy)
    (run_continues Sample.view_user_shy (Some Sample.face1) 4) (4 + 1) = 4 + 1.
Proof.
  apply (proj2 (proj2 (proj2 (run_interior Sample.view_user_shy (Some Sample.face1) 4)))).
  left. reflexivity.
Defined.

(** The line over "word blank word" leaves the envelope of the layout
    alone. *)
Lemma first_line_example :
  (∀ cmd, cmd ∈ data Cases.first_line.2 ↔
          cmd ∈ data emptyLayout ∨
          ∃ i r lay, 0 ≤ i < 3 ∧ Cases.first_line.1 !! i = Some r ∧ (lay, cmd) ∈ run r ∧
                     (shy r = false ∨ S i = 3) ∧
                     (space r = true → command cmd = CMD_RECT)) ∧
  data emptyLayout `prefix_of` data Cases.first_line.2 ∧
  height Cases.first_line.2 = height emptyLayout ∧
  firstBaseline Cases.first_line.2 = firstBaseline emptyLayout ∧
  layout_left Cases.first_line.2 = layout_left emptyLayout ∧
  layout_right Cases.first_line.2 = layout_right emptyLayout.
Proof.
  apply (addLine_draws_what_is_shown (F := Sample.zfloat) 0 3 Sample.two_words emptyLayout
           640 7040 0 64000 3 1 (Sample.props ALG_LEFT false)).
  vm_compute. reflexivity.
Defined.

(** "word blank word" on two lines, started at 7. *)
Lemma two_lines_example :
  (7 ≤ height Cases.two_lines)%Z ∧
  layout_left Cases.two_lines
    = getLeft2 (Sample.column 6400) 7 (height Cases.two_lines) ∧
  layout_right Cases.two_lines
    = getRight2 (Sample.column 6400) 7 (height Cases.two_lines) ∧
  (Sample.two_words = [] → height Cases.two_lines = 7%Z ∧ data Cases.two_lines = []) ∧
  (Sample.two_words ≠ [] →
   (7 ≤ firstBaseline Cases.two_lines ≤ height Cases.two_lines)%Z).
Proof.
  apply (breakLines_vertical_extent (F := Sample.zfloat) Sample.two_words
           (Sample.column 6400) (Sample.props ALG_LEFT false) 7).
  vm_compute. reflexivity.
Defined.

(** The line over all of "word blank word" fits a column of 64000. *)
Lemma closing_line_fits_example :
  ∃ s1 s2,
    1 - 1 ≤ s1 ∧ 0 < s2 ≤ 3 ∧
    (∀ j, 1 - 1 ≤ j < s1 → ∃ r, Sample.two_words !! j = Some r ∧ space r = true) ∧
    (∃ r, Sample.two_words !! s1 = Some r ∧ space r = false) ∧
    (∀ j, s2 ≤ j < 3 → ∃ r, Sample.two_words !! j = Some r ∧ space r = true) ∧
    (∃ r, Sample.two_words !! (s2 - 1) = Some r ∧ space r = false ∧
          hypen Sample.closing_line = shy r) ∧
    li_width Sample.closing_line
      = ((if Nat.eqb 1 1 && negb (is_center (align (Sample.props ALG_LEFT true)))
          then indent (Sample.props ALG_LEFT true) else 0)
         + Zsum (measured_advance Sample.two_words s2 <$> seq s1 (s2 - s1)))%Z ∧
    (getLeft (Sample.column 64000) (li_ypos Sample.entry0) (li_ypos Sample.closing_line)
       + li_width Sample.closing_line
     ≤ getRight (Sample.column 64000) (li_ypos Sample.entry0)
         (li_ypos Sample.closing_line))%Z ∧
    li_ypos Sample.closing_line
      = (li_ypos Sample.entry0 + li_ascend Sample.closing_line
         - li_descend Sample.closing_line)%Z ∧
    (0 ≤ li_ascend Sample.closing_line)%Z ∧ (li_descend Sample.closing_line ≤ 0)%Z ∧
    (0 ≤ li_spaces Sample.closing_line)%Z ∧
    from Sample.closing_line = 1 - 1 ∧ start Sample.closing_line = false.
Proof.
  apply (optimizer_candidate_fits (F := Sample.zfloat) Sample.two_words
           (Sample.column 64000) (Sample.props ALG_LEFT true) Sample.entry0
           Sample.closing_line 3 1).
  reflexivity.
Defined.

(** The optimizing breaker ends on "word blank word". *)
Lemma optimizer_ends_example :
  breakLinesOptimize (F := Sample.zfloat) Sample.two_words (Sample.column 6400)
    (Sample.props ALG_LEFT true) 0 ≠ OutOfFuel.
Proof.
  exact (proj2 (breakLinesOptimize_terminates (F := Sample.zfloat)) Sample.two_words
           (Sample.column 6400) (Sample.props ALG_LEFT true) 0%Z).
Defined.

(** Behind a blank, " a  b" loses the blank in front. *)
Lemma leading_blank_example :
  head (normalizeHTML [32; 97; 32; 10; 98]%Z CH_BLANK) ≠ Some CH_BLANK.
Proof.
  apply (proj1 (proj2 (proj2 (proj2
           (normalizeHTML_collapses_white_space [32; 97; 32; 10; 98]%Z CH_BLANK))))).
  reflexivity.
Defined.

(** A span of two pixels in the second row of the surface, and a span
    that starts two pixels left of the first pixel of that row. *)
Lemma span_inside_example :
  (∃ mem', SDL.spanner 0 [Cases.full_span] Cases.baton Cases.surface = Ret mem' ∧
           length mem' = length Cases.surface ∧
           ∀ k : nat, mem' !! k ≠ Cases.surface !! k →
             (SDL.first_pixel Cases.baton ≤ Z.of_nat k < SDL.last_pixel Cases.baton)%Z ∧
             ∃ s, s ∈ [Cases.full_span] ∧
                  (SDL.pixels Cases.baton - 0 * SDL.pitch Cases.baton + SDL.x s
                   ≤ Z.of_nat k
                   < SDL.pixels Cases.baton - 0 * SDL.pitch Cases.baton + SDL.x s
                     + SDL.len s)%Z) ∧
  SDL.spanner 1 [Cases.left_span] Cases.baton Cases.surface = Fault.
Proof.
  split.
  - apply (proj1 (spanner_writes_inside_spans 0 [Cases.full_span] Cases.baton
                    Cases.surface)).
    + vm_compute. discriminate.
    + vm_compute. discriminate.
    + repeat constructor; vm_compute; discriminate.
  - apply (proj2 (spanner_writes_inside_spans 1 [Cases.left_span] Cases.baton
                    Cases.surface) Cases.left_span []).
    + reflexivity.
    + vm_compute. discriminate.
    + reflexivity.
    + reflexivity.
    + reflexivity.
Defined.

(** An opaque colour at full coverage replaces a white pixel. *)
Lemma full_coverage_example :
  SDL.channel (SDL.blend_pixel Cases.baton (SDL.alpha_of Cases.baton Cases.full_span)
                 0xFFFFFFFF) (SDL.rshift Cases.baton) = col_r (SDL.c Cases.baton) ∧
  SDL.channel (SDL.blend_pixel Cases.baton (SDL.alpha_of Cases.baton Cases.full_span)
                 0xFFFFFFFF) (SDL.gshift Cases.baton) = col_g (SDL.c Cases.baton) ∧
  SDL.channel (SDL.blend_pixel Cases.baton (SDL.alpha_of Cases.baton Cases.full_span)
                 0xFFFFFFFF) (SDL.bshift Cases.baton) = col_b (SDL.c Cases.baton).
Proof.
  apply (proj1 (proj2 (spanner_blends_channels Cases.baton Cases.full_span 0xFFFFFFFF
                         ltac:(repeat split; vm_compute; discriminate)
                         ltac:(split; vm_compute; discriminate)
                         ltac:(split; vm_compute; discriminate)
                         ltac:(split; vm_compute; discriminate)
                         ltac:(split; vm_compute; discriminate)
                         ltac:(split; vm_compute; discriminate)))).
  - reflexivity.
  - reflexivity.
Defined.

(** The paragraph layouter ends on the letter "a". *)
Lemma paragraph_ends_example :
  layoutParagraph (Sample.lib "en") (F := Sample.zfloat) [97%Z]
    (AttributeIndex_all (Sample.attr_of "en")) (Sample.column 6400)
    (Sample.props ALG_LEFT true) 0 ≠ OutOfFuel.
Proof.
  exact (layoutParagraph_ends (Sample.lib "en") (F := Sample.zfloat) [97%Z]
           (AttributeIndex_all (Sample.attr_of "en")) (Sample.column 6400)
           (Sample.props ALG_LEFT true) 0).
Defined.

(** On a justified line over "word blank word" with 1000 units to
    spare and one blank, the second word is moved right by the width of
    the first word and of the blank and by the 1000 units the blank
    grows by. *)
Lemma justified_line_example :
  ∃ r', Cases.justified_line.1 !! 2 = Some r' ∧
        Forall2 (placed (F := Sample.zfloat) (space (Sample.word_run 3200 LINEBREAK_MUSTBREAK))
                   1000%Z 4840%Z 640)
                (run (Sample.word_run 3200 LINEBREAK_MUSTBREAK)) (run r') ∧
        dx r' = dx (Sample.word_run 3200 LINEBREAK_MUSTBREAK) ∧
        space r' = space (Sample.word_run 3200 LINEBREAK_MUSTBREAK) ∧
        shy r' = shy (Sample.word_run 3200 LINEBREAK_MUSTBREAK).
Proof.
  apply (addLine_alignment_table (F := Sample.zfloat) 0 3 Sample.two_words emptyLayout
           640%Z 7040%Z 0%Z 8040%Z 0%Z 1%Z (Sample.props ALG_JUSTIFY_LEFT false)
           Cases.justified_line.1 Cases.justified_line.2
           ltac:(vm_compute; discriminate) ltac:(vm_compute; reflexivity)
           [0; 1] 2 []).
  - reflexivity.
  - reflexivity.
  - left. reflexivity.
Defined.

(** The line over the one word with a shadow. *)
Lemma shadow_first_example :
  ∃ new : list (nat * CommandData_c),
    data Cases.shadow_line.2 = data emptyLayout ++ new.*2 ∧
    (∀ i r, Sample.shadowed !! i = Some r →
       ∃ r', Cases.shadow_line.1 !! i = Some r' ∧ shy r' = shy r ∧ space r' = space r ∧
             Forall2 (λ cc cc', cc'.1 = cc.1 ∧ command cc'.2 = command cc.2)
                     (run r) (run r')) ∧
    (∀ cc, cc ∈ new ↔
           ∃ i r', 0 ≤ i < 1 ∧ Cases.shadow_line.1 !! i = Some r' ∧ cc ∈ run r' ∧
                   (shy r' = false ∨ S i = 1) ∧
                   (space r' = true → command cc.2 = CMD_RECT)) ∧
    (∀ p q cp cq,
       new !! p = Some cp → new !! q = Some cq →
       (p < q → cq.1 ≤ cp.1) ∧ (cq.1 < cp.1 → p < q)) ∧
    (∀ i r' sh base,
       0 ≤ i < 1 → Cases.shadow_line.1 !! i = Some r' →
       shy r' = false ∨ S i = 1 →
       sh ∈ run r' → base ∈ run r' →
       (space r' = true → command sh.2 = CMD_RECT ∧ command base.2 = CMD_RECT) →
       base.1 < sh.1 →
       ∃ p q, p < q ∧ new !! p = Some sh ∧ new !! q = Some base).
Proof.
  apply (proj2 (proj2 (proj2 (proj2
           (layers_emitted_in_descending_order (F := Sample.zfloat)))))
           0 1 Sample.shadowed emptyLayout 640%Z 640%Z 0%Z 6400%Z 3%Z 0%Z
           (Sample.props ALG_LEFT false)).
  vm_compute. reflexivity.
Defined.

Lemma utf8_decode_ascii s : Forall is_ascii s → Cases.utf8_decode s = s.
Proof.
  induction 1 as [|ch s Hch _ IH]; [done|]. simpl.
  unfold is_ascii in Hch. destruct (Z.ltb_spec ch 128); [|lia]. by rewrite IH.
Qed.

(** "a " and, inside an [i] element, " b" give "a b"; behind U+0420
    the blank in front of "b" is lost. *)
Lemma text_nodes_example :
  layoutXML_text Cases.utf8_decode Page.paragraph []
  = normalizeHTML (concat (text_values Page.paragraph)) CH_BLANK ∧
  add_text Cases.utf8_decode ([97] ++ [0x420])%Z (CH_BLANK :: [98]%Z)
  = ([97] ++ [0x420])%Z ++ Cases.utf8_decode (normalizeHTML [98]%Z CH_BLANK).
Proof.
  split.
  - apply (proj1 (text_nodes_normalized_as_one Cases.utf8_decode) utf8_decode_ascii).
    repeat first [apply Forall_nil_2 | apply Forall_cons_2];
      (vm_compute; split; [discriminate|reflexivity]).
  - apply (proj2 (text_nodes_normalized_as_one Cases.utf8_decode) [97]%Z 0x420%Z [98]%Z).
    + vm_compute. discriminate.
    + reflexivity.
Defined.
